(** * Nano Bananary front end: generation service, watermark orchestration,
      grid uploader and the watermark codec.

    The development follows the TypeScript sources: [services/geminiService]
    ([editImage], [generateImageEditsBatch]), [App.tsx] ([applyWatermarks]) and
    [components/MultiImageGridUploader.tsx] ([handleFiles]).  The watermark
    codec of [utils/fileUtils] is modelled from its specification. *)

From Stdlib Require Import ZArith List String Ascii Bool Arith Lia Permutation.
From Stdlib Require QArith.
Import ListNotations.

Set Implicit Arguments.
Open Scope string_scope.
Open Scope list_scope.

(** ** JavaScript values the sources rely on *)

Module JS.

(** A thrown value: an [Error] carrying a message, or anything else
    (a value for which [instanceof Error] is false). *)
Inductive thrown : Type :=
| ErrorObj (message : string)
| NonError (repr : string).

(** The settled state of a promise (or the result of a [try] body). *)
Inductive outcome (A : Type) : Type :=
| Resolved (a : A)
| Rejected (e : thrown).

Arguments Resolved {A} a.
Arguments Rejected {A} e.

(** Truthiness of a [string | null | undefined] value: [null], [undefined]
    and the empty string are falsy. *)
Definition truthy (v : option string) : bool :=
  match v with
  | Some s => negb (String.eqb s EmptyString)
  | None => false
  end.

(** The double-quote and line-feed characters, used inside messages. *)
Definition dquote : string := String (ascii_of_nat 34) EmptyString.
Definition newline : string := String (ascii_of_nat 10) EmptyString.

(** [String.prototype.startsWith] *)
Fixpoint starts_with (p s : string) : bool :=
  match p with
  | EmptyString => true
  | String a p' =>
      match s with
      | String b s' => Ascii.eqb a b && starts_with p' s'
      | EmptyString => false
      end
  end.

(** A template-literal hole [${v}]: [undefined] prints as its name. *)
Definition interpolate (v : option string) : string :=
  match v with Some s => s | None => "undefined" end.

(** [Array.prototype.join]: [null] and [undefined] elements print empty. *)
Fixpoint join (sep : string) (xs : list (option string)) : string :=
  match xs with
  | [] => EmptyString
  | [x] => match x with Some s => s | None => EmptyString end
  | x :: rest =>
      ((match x with Some s => s | None => EmptyString end) ++ sep ++ join sep rest)%string
  end.

(** [Promise.all].  [settle] lists the indices of the promises in the
    order in which they settle; every promise settles, so the indices
    missing from [settle] are taken to settle afterwards, in index order.
    The combined promise rejects with the reason of the first rejection
    to happen, and otherwise resolves with the values in index order. *)
Fixpoint first_rejection {A} (ps : list (outcome A)) (settle : list nat)
  : option thrown :=
  match settle with
  | [] => None
  | i :: rest =>
      match nth_error ps i with
      | Some (Rejected e) => Some e
      | _ => first_rejection ps rest
      end
  end.

Definition resolved_values {A} (ps : list (outcome A)) : list A :=
  flat_map (fun p => match p with Resolved a => [a] | Rejected _ => [] end) ps.

Definition Promise_all {A} (settle : list nat) (ps : list (outcome A))
  : outcome (list A) :=
  match first_rejection ps (settle ++ seq 0 (List.length ps)) with
  | Some e => Rejected e
  | None => Resolved (resolved_values ps)
  end.

(** [Array.prototype.slice(0, n)] on a list, for an integer [n]: a negative
    [n] counts from the end. *)
Definition slice0 {A} (xs : list A) (n : Z) : list A :=
  if (n <? 0)%Z
  then firstn (Z.to_nat (Z.of_nat (List.length xs) + n)) xs
  else firstn (Z.to_nat n) xs.

(** The first character at which a JSON text can start (after white
    space); [JSON.parse] raises a [SyntaxError] on any other text. *)
Definition json_value_start (c : ascii) : bool :=
  let n := nat_of_ascii c in
  ((n =? 123) || (n =? 91) || (n =? 34) || (n =? 45)
   || ((48 <=? n) && (n <=? 57))
   || (n =? 116) || (n =? 102) || (n =? 110))%nat.

Definition json_space (c : ascii) : bool :=
  let n := nat_of_ascii c in
  ((n =? 32) || (n =? 9) || (n =? 10) || (n =? 13))%nat.

Fixpoint json_opening (s : string) : bool :=
  match s with
  | EmptyString => false
  | String c rest =>
      if json_space c then json_opening rest else json_value_start c
  end.

End JS.

Import JS.

(** ** services/geminiService *)

Module GeminiService.

(** Request side. *)
Record ImagePart : Type := { base64 : string; mimeType : string }.

Inductive RequestPart : Type :=
| InlinePart (data : string) (mime : string)
| TextPart (text : string).

Record GenerateContentRequest : Type :=
  { model : string;
    contents : list RequestPart;
    responseModalities : list string }.

(** Response side; every property of the SDK's response is optional. *)
Record InlineData : Type :=
  { inline_data : option string; inline_mimeType : option string }.

Record ResponsePart : Type :=
  { part_text : option string; part_inlineData : option InlineData }.

Record SafetyRating : Type :=
  { category : option string; blocked : bool }.

Record Content : Type := { parts : option (list ResponsePart) }.

Record Candidate : Type :=
  { content : option Content;
    finishReason : option string;
    safetyRatings : option (list SafetyRating) }.

Record GenerateContentResponse : Type :=
  { candidates : option (list Candidate) }.

Record GeneratedContent : Type :=
  { imageUrl : option string; text : option string }.

(** What the catch blocks look at in a parsed error message:
    [parsedError.error] with its [message], [status] and [code]. *)
Record ApiErrorBody : Type :=
  { err_message : option string;
    err_status : option string;
    err_code : option Z }.

Inductive ParsedJson : Type :=
| WithError (body : ApiErrorBody)
| WithoutError.

Definition masked_prompt (prompt : string) : string :=
  ("Apply the following instruction only to the masked area of the image: "
     ++ dquote ++ prompt ++ dquote ++ ". Preserve the unmasked area.")%string.

Definition inline_of (img : ImagePart) : RequestPart :=
  InlinePart (base64 img) (mimeType img).

(** The [parts] array and [fullPrompt] built before the call. *)
Definition request_parts (prompt : string) (imageParts : list ImagePart)
    (maskBase64 : option string) : list RequestPart :=
  let primary :=
    match imageParts with
    | img :: _ => [inline_of img]
    | [] => []
    end in
  let mask :=
    match maskBase64 with
    | Some m => if truthy maskBase64 then [InlinePart m "image/png"] else []
    | None => []
    end in
  let fullPrompt :=
    if truthy maskBase64 then masked_prompt prompt else prompt in
  let others :=
    if (1 <? List.length imageParts)%nat then map inline_of (skipn 1 imageParts) else [] in
  primary ++ mask ++ others ++ [TextPart fullPrompt].

Definition edit_request (prompt : string) (imageParts : list ImagePart)
    (maskBase64 : option string) : GenerateContentRequest :=
  {| model := "gemini-2.5-flash-image-preview";
     contents := request_parts prompt imageParts maskBase64;
     responseModalities := ["IMAGE"; "TEXT"] |}.

(** [response.candidates?.[0]] *)
Definition first_candidate (response : GenerateContentResponse) : option Candidate :=
  match candidates response with
  | Some (c :: _) => Some c
  | _ => None
  end.

(** [response.candidates?.[0]?.content?.parts] *)
Definition response_parts (response : GenerateContentResponse)
  : option (list ResponsePart) :=
  match first_candidate response with
  | Some c => match content c with Some ct => parts ct | None => None end
  | None => None
  end.

Definition data_uri (d : InlineData) : string :=
  ("data:" ++ interpolate (inline_mimeType d) ++ ";base64,"
     ++ interpolate (inline_data d))%string.

(** One iteration of the [for (const part of responseParts)] loop. *)
Definition absorb_part (result : GeneratedContent) (part : ResponsePart)
  : GeneratedContent :=
  if truthy (part_text part) then
    {| imageUrl := imageUrl result;
       text := Some ((if truthy (text result)
                      then (interpolate (text result) ++ newline)
                      else EmptyString)
                     ++ interpolate (part_text part))%string |}
  else
    match part_inlineData part with
    | Some d => {| imageUrl := Some (data_uri d); text := text result |}
    | None => result
    end.

Definition collect_parts (response : GenerateContentResponse) : GeneratedContent :=
  match response_parts response with
  | Some ps => fold_left absorb_part ps {| imageUrl := None; text := None |}
  | None => {| imageUrl := None; text := None |}
  end.

Definition refusal_message : string :=
  "The model did not return an image. It might have refused the request. Please try a different image or prompt.".

Definition blocked_categories (response : GenerateContentResponse) : option string :=
  match first_candidate response with
  | Some c =>
      match safetyRatings c with
      | Some rs => Some (join ", " (map category (filter blocked rs)))
      | None => None
      end
  | None => None
  end.

Definition safety_message (response : GenerateContentResponse) : string :=
  let cats := blocked_categories response in
  ("The request was blocked for safety reasons. Categories: "
     ++ (if truthy cats then interpolate cats else "Unknown")
     ++ ". Please modify your prompt or image.")%string.

Definition responded_message (t : string) : string :=
  ("The model responded: " ++ dquote ++ t ++ dquote)%string.

Definition finish_reason (response : GenerateContentResponse) : option string :=
  match first_candidate response with
  | Some c => finishReason c
  | None => None
  end.

Definition is_safety (response : GenerateContentResponse) : bool :=
  match finish_reason response with
  | Some r => String.eqb r "SAFETY"
  | None => false
  end.

(** The message of the error thrown when no image came back. *)
Definition no_image_message (response : GenerateContentResponse)
    (result : GeneratedContent) : string :=
  if truthy (text result) then responded_message (interpolate (text result))
  else if is_safety response then safety_message response
  else refusal_message.

(** The part of the [try] body that follows the awaited call. *)
Definition editImage_after (response : GenerateContentResponse)
  : outcome GeneratedContent :=
  let result := collect_parts response in
  if negb (truthy (imageUrl result))
  then Rejected (ErrorObj (no_image_message response result))
  else Resolved result.

Section WithPlatform.

(** What [JSON.parse] yields on a text that opens like a JSON value;
    [None] stands for a [SyntaxError]. *)
Variable json_oracle : string -> option ParsedJson.

Definition JSON_parse (s : string) : option ParsedJson :=
  if json_opening s then json_oracle s else None.

Definition rate_limit_message : string :=
  "You've likely exceeded the request limit. Please wait a moment before trying again.".

Definition server_error_message : string :=
  "An unexpected server error occurred. This might be a temporary issue. Please try again in a few moments.".

Definition unknown_api_message : string :=
  "An unknown error occurred while communicating with the API.".

(** The inner [try { JSON.parse ... } catch (e) {}] of the catch block. *)
Definition refine_message (errorMessage : string) : string :=
  match JSON_parse errorMessage with
  | Some (WithError body) =>
      if truthy (err_message body) then
        if match err_status body with
           | Some s => String.eqb s "RESOURCE_EXHAUSTED"
           | None => false
           end
        then rate_limit_message
        else if match err_code body with
                | Some c => (c =? 500)%Z
                | None => false
                end
                || match err_status body with
                   | Some s => String.eqb s "UNKNOWN"
                   | None => false
                   end
        then server_error_message
        else interpolate (err_message body)
      else errorMessage
  | _ => errorMessage
  end.

(** The catch block of [editImage]: it always throws an [Error]. *)
Definition editImage_catch (error : thrown) : thrown :=
  match error with
  | ErrorObj message => ErrorObj (refine_message message)
  | NonError _ => ErrorObj unknown_api_message
  end.

(** [editImage], given the behaviour of [ai.models.generateContent] on
    the request it sends. *)
Definition editImage
    (generateContent : GenerateContentRequest -> outcome GenerateContentResponse)
    (prompt : string) (imageParts : list ImagePart) (maskBase64 : option string)
  : outcome GeneratedContent :=
  let attempt :=
    match generateContent (edit_request prompt imageParts maskBase64) with
    | Resolved response => editImage_after response
    | Rejected e => Rejected e
    end in
  match attempt with
  | Resolved result => Resolved result
  | Rejected error => Rejected (editImage_catch error)
  end.

Definition no_variations_message : string :=
  "Failed to generate any image variations. The model may have refused the request.".

Definition unknown_batch_message : string :=
  "An unknown error occurred during batch image generation.".

(** The four promises pushed by the loop; the [i]-th call to the
    service is answered by [generateContent i]. *)
Definition batch_promises
    (generateContent : nat -> GenerateContentRequest -> outcome GenerateContentResponse)
    (prompt : string) (imageParts : list ImagePart)
  : list (outcome GeneratedContent) :=
  map (fun i => editImage (generateContent i) prompt imageParts None) (seq 0 4).

(** [results.map(r => r.imageUrl).filter(url => !!url)] *)
Definition image_urls (results : list GeneratedContent) : list string :=
  flat_map (fun url => match url with
                       | Some u => if truthy url then [u] else []
                       | None => []
                       end)
           (map imageUrl results).

(** The [try] body of [generateImageEditsBatch]. *)
Definition batch_try (settle : list nat)
    (generateContent : nat -> GenerateContentRequest -> outcome GenerateContentResponse)
    (prompt : string) (imageParts : list ImagePart)
  : outcome (list string) :=
  match Promise_all settle (batch_promises generateContent prompt imageParts) with
  | Rejected e => Rejected e
  | Resolved results =>
      let imageUrls := image_urls results in
      if (List.length imageUrls =? 0)%nat
      then Rejected (ErrorObj no_variations_message)
      else Resolved imageUrls
  end.

Definition batch_catch (error : thrown) : thrown :=
  match error with
  | ErrorObj message => ErrorObj message
  | NonError _ => ErrorObj unknown_batch_message
  end.

Definition generateImageEditsBatch (settle : list nat)
    (generateContent : nat -> GenerateContentRequest -> outcome GenerateContentResponse)
    (prompt : string) (imageParts : list ImagePart)
  : outcome (list string) :=
  match batch_try settle generateContent prompt imageParts with
  | Resolved imageUrls => Resolved imageUrls
  | Rejected error => Rejected (batch_catch error)
  end.

End WithPlatform.

(** Notions and sample data used by the properties below. *)

(** The image slot of a result under construction is either still empty
    or a data URI built from an inline part. *)
Definition image_shape (r : GeneratedContent) : Prop :=
  imageUrl r = None \/ exists d, imageUrl r = Some (data_uri d).

Definition is_data_uri (u : string) : Prop := starts_with "data:" u = true.

(** A reply that carries a refusal text and no image, with finish reason
    SAFETY. *)
Definition refusal_with_text : GenerateContentResponse :=
  {| candidates :=
       Some [ {| content :=
                   Some {| parts :=
                             Some [ {| part_text := Some "I cannot edit this image.";
                                       part_inlineData := None |} ] |};
                 finishReason := Some "SAFETY";
                 safetyRatings :=
                   Some [ {| category := Some "HARM_CATEGORY_DANGEROUS_CONTENT";
                             blocked := true |} ] |} ] |}.

(** A reply blocked for safety with neither text nor image. *)
Definition blocked_reply : GenerateContentResponse :=
  {| candidates :=
       Some [ {| content := None;
                 finishReason := Some "SAFETY";
                 safetyRatings :=
                   Some [ {| category := Some "HARM_CATEGORY_DANGEROUS_CONTENT";
                             blocked := true |};
                          {| category := Some "HARM_CATEGORY_HARASSMENT";
                             blocked := false |} ] |} ] |}.

Definition is_safety_message (m : string) : Prop :=
  starts_with "The request was blocked for safety reasons." m = true.

Definition image_reply : GenerateContentResponse :=
  {| candidates :=
       Some [ {| content :=
                   Some {| parts :=
                             Some [ {| part_text := None;
                                       part_inlineData :=
                                         Some {| inline_data := Some "iVBORw0KGgo=";
                                                 inline_mimeType := Some "image/png" |} |} ] |};
                 finishReason := Some "STOP";
                 safetyRatings := None |} ] |}.

End GeminiService.

(** ** App.tsx: the watermark orchestration *)

Module App.

Inductive step : Type := EmbedStep | VisibleStep.

(** What a run of [applyWatermarks] does besides returning: a watermarking
    step throwing, and the [console.error] of the catch block. *)
Inductive event : Type :=
| StepThrew (s : step) (err : thrown)
| ConsoleError (label : string) (err : thrown).

Definition watermark_text : string := "Nano Bananary｜ZHO".

Section Orchestration.

(** [embedWatermark] and [addVisibleWatermark] of [utils/fileUtils], as
    the promises they return for an image URL and a text. *)
Variables embedWatermark addVisibleWatermark : string -> string -> outcome string.

(** The [try] body. *)
Definition watermark_try (imageUrl : string) : outcome string * list event :=
  match embedWatermark imageUrl watermark_text with
  | Rejected err => (Rejected err, [StepThrew EmbedStep err])
  | Resolved invisiblyWatermarked =>
      match addVisibleWatermark invisiblyWatermarked watermark_text with
      | Rejected err => (Rejected err, [StepThrew VisibleStep err])
      | Resolved visiblyWatermarked => (Resolved visiblyWatermarked, [])
      end
  end.

Definition applyWatermarks (imageUrl : option string)
  : outcome (option string) * list event :=
  match imageUrl with
  | None => (Resolved None, [])
  | Some url =>
      if negb (truthy imageUrl) then (Resolved None, [])
      else
        match watermark_try url with
        | (Resolved visiblyWatermarked, log) =>
            (Resolved (Some visiblyWatermarked), log)
        | (Rejected err, log) =>
            (Resolved (Some url),
             log ++ [ConsoleError "Failed to apply watermarks" err])
        end
  end.

End Orchestration.

(** Notions and sample data used by the properties below. *)

(** A watermarking step threw during the run that left this log. *)
Definition step_threw (log : list event) : Prop :=
  exists s err, In (StepThrew s err) log.

Definition canvas_unavailable : thrown := ErrorObj "Could not get canvas context".

Definition sample_url : string := "data:image/png;base64,iVBORw0KGgo=".

End App.

(** ** components/MultiImageGridUploader.tsx *)

Module MultiImageGridUploader.

(** A dropped or picked file: [read] is the data URL its [FileReader]
    delivers to [onload], or [None] when the read fails and [onload]
    never fires. *)
Record File : Type := { name : string; read : option string }.

(** The variables shared by the [onload] callbacks of one call, and the
    calls made to [onImagesChange] so far. *)
Record progress : Type :=
  { newUrls : list string;
    processedCount : nat;
    changes : list (list string) }.

Definition onload (imageUrls : list string) (total : nat)
    (st : progress) (result : string) : progress :=
  let newUrls' := newUrls st ++ [result] in
  let processedCount' := S (processedCount st) in
  {| newUrls := newUrls';
     processedCount := processedCount';
     changes := if (processedCount' =? total)%nat
                then changes st ++ [imageUrls ++ newUrls']
                else changes st |}.

(** A reader completing: the [i]-th file of [filesToProcess]. *)
Definition complete (imageUrls : list string) (filesToProcess : list File)
    (st : progress) (i : nat) : progress :=
  match nth_error filesToProcess i with
  | Some f =>
      match read f with
      | Some result => onload imageUrls (List.length filesToProcess) st result
      | None => st
      end
  | None => st
  end.

(** [handleFiles] for the props [imageUrls] and [maxImages]: the list of
    arguments [onImagesChange] is called with, when the readers complete
    in the order [completions]. *)
Definition handleFiles (imageUrls : list string) (maxImages : Z)
    (files : list File) (completions : list nat) : list (list string) :=
  let filesToProcess := slice0 files (maxImages - Z.of_nat (List.length imageUrls)) in
  if (List.length filesToProcess =? 0)%nat then []
  else
    changes (fold_left (complete imageUrls filesToProcess) completions
               {| newUrls := []; processedCount := 0; changes := [] |}).

(** Notions and sample data used by the properties below. *)

(** The data URLs the readers of [files] can deliver. *)
Definition readable (files : list File) : list string :=
  flat_map (fun f => match read f with Some u => [u] | None => [] end) files.

(** What holds of the shared variables while the readers of
    [filesToProcess] complete. *)
Definition progress_ok (imageUrls : list string) (filesToProcess : list File)
    (st : progress) : Prop :=
  List.length (newUrls st) = processedCount st
  /\ incl (newUrls st) (readable filesToProcess)
  /\ Forall (fun allUrls =>
               exists added,
                 allUrls = imageUrls ++ added
                 /\ List.length added = List.length filesToProcess
                 /\ incl added (readable filesToProcess))
            (changes st).

Definition photo (n : string) (u : string) : File := {| name := n; read := Some u |}.

End MultiImageGridUploader.

(** ** utils/fileUtils: the watermark codec *)

Module WatermarkCodec.

Local Open Scope Z_scope.

(** Modelled from the spec: the Image Buffer of [utils/fileUtils], a
    rectangular grid of pixels in raster order, each with four 8-bit
    channels. *)
Record pixel : Type := { red : Z; green : Z; blue : Z; alpha : Z }.

Record image : Type := { width : nat; height : nat; pixels : list pixel }.

Definition channel_ok (v : Z) : Prop := 0 <= v < 256.

Definition pixel_ok (p : pixel) : Prop :=
  channel_ok (red p) /\ channel_ok (green p)
  /\ channel_ok (blue p) /\ channel_ok (alpha p).

(** A well-formed buffer holds exactly width x height pixels of 8-bit
    channels. *)
Definition well_formed (img : image) : Prop :=
  List.length (pixels img) = (width img * height img)%nat
  /\ Forall pixel_ok (pixels img).

Definition pixel_count (img : image) : Z := Z.of_nat (width img * height img).

(** Three writable channels per pixel. *)
Definition capacity (img : image) : Z := 3 * pixel_count img.

(** Modelled from the spec: the Payload, a sequence of characters, here
    Unicode scalar values. *)
Definition text : Type := list Z.

Definition scalar_value (c : Z) : bool :=
  ((0 <=? c) && (c <? 55296)) || ((57344 <=? c) && (c <? 1114112)).

Definition valid_text (t : text) : Prop := forallb scalar_value t = true.

Definition text_of_string (s : string) : text :=
  map (fun a => Z.of_nat (nat_of_ascii a)) (list_ascii_of_string s).

(** Modelled from the spec: the UTF-8 serialisation of the payload that
    [embedWatermark] writes and its decoder reads back. *)
Definition utf8_encode_char (c : Z) : list Z :=
  if c <? 128 then [c]
  else if c <? 2048 then [192 + c / 64; 128 + c mod 64]
  else if c <? 65536 then
    [224 + c / 4096; 128 + (c / 64) mod 64; 128 + c mod 64]
  else
    [240 + c / 262144; 128 + (c / 4096) mod 64;
     128 + (c / 64) mod 64; 128 + c mod 64].

Definition utf8_encode (t : text) : list Z := flat_map utf8_encode_char t.

Definition continuation (b : Z) : bool := (128 <=? b) && (b <? 192).

Definition cons_char (c : Z) (rest : option text) : option text :=
  match rest with Some t => Some (c :: t) | None => None end.

(** Modelled from the spec: strict UTF-8 decoding of the recovered bytes;
    [None] on a sequence that is not the encoding of any text. *)
Fixpoint utf8_decode (bs : list Z) : option text :=
  match bs with
  | [] => Some []
  | b0 :: r0 =>
      if (0 <=? b0) && (b0 <? 128) then cons_char b0 (utf8_decode r0)
      else if (192 <=? b0) && (b0 <? 224) then
        match r0 with
        | b1 :: r1 =>
            let c := (b0 - 192) * 64 + (b1 - 128) in
            if continuation b1 && (128 <=? c)
            then cons_char c (utf8_decode r1) else None
        | _ => None
        end
      else if (224 <=? b0) && (b0 <? 240) then
        match r0 with
        | b1 :: b2 :: r2 =>
            let c := (b0 - 224) * 4096 + (b1 - 128) * 64 + (b2 - 128) in
            if continuation b1 && continuation b2
               && (2048 <=? c) && scalar_value c
            then cons_char c (utf8_decode r2) else None
        | _ => None
        end
      else if (240 <=? b0) && (b0 <? 248) then
        match r0 with
        | b1 :: b2 :: b3 :: r3 =>
            let c := (b0 - 240) * 262144 + (b1 - 128) * 4096
                     + (b2 - 128) * 64 + (b3 - 128) in
            if continuation b1 && continuation b2 && continuation b3
               && (65536 <=? c) && (c <? 1114112)
            then cons_char c (utf8_decode r3) else None
        | _ => None
        end
      else None
  end.

(** Modelled from the spec: the Encoded Bitstream of [embedWatermark], a
    fixed 32-bit length prefix (the payload's byte count) followed by the
    payload bytes, every number most-significant bit first. *)
Fixpoint Z_to_bits (n : nat) (v : Z) : list bool :=
  match n with
  | O => []
  | S n' => Z.testbit v (Z.of_nat n') :: Z_to_bits n' v
  end.

Definition bits_to_Z (bs : list bool) : Z :=
  fold_left (fun acc b => 2 * acc + Z.b2z b) bs 0.

Definition prefix_bits : nat := 32.

Definition length_prefix (byte_count : Z) : list bool :=
  Z_to_bits prefix_bits byte_count.

Definition bits_of_bytes (bytes : list Z) : list bool :=
  flat_map (Z_to_bits 8) bytes.

Fixpoint bytes_of_bits (count : nat) (bs : list bool) : list Z :=
  match count with
  | O => []
  | S count' => bits_to_Z (firstn 8 bs) :: bytes_of_bits count' (skipn 8 bs)
  end.

Definition payload_bytes (t : text) : Z :=
  Z.of_nat (List.length (utf8_encode t)).

(** Length-prefix bits plus payload bits. *)
Definition encoded_bits (t : text) : Z := 32 + 8 * payload_bytes t.

Definition bitstream (t : text) : list bool :=
  length_prefix (payload_bytes t) ++ bits_of_bytes (utf8_encode t).

(** One bit slot: the least-significant bit of a colour channel. *)
Definition set_lsb (v : Z) (b : bool) : Z := Z.lor (Z.land v 254) (Z.b2z b).

Definition lsb (v : Z) : bool := Z.testbit v 0.

(** Modelled from the spec: the slot order of [embedWatermark], red,
    green, blue of each pixel in raster order, alpha preserved. *)
Fixpoint write_bits (bs : list bool) (ps : list pixel) {struct ps} : list pixel :=
  match ps with
  | [] => []
  | p :: ps' =>
      match bs with
      | [] => p :: ps'
      | [r] =>
          {| red := set_lsb (red p) r; green := green p;
             blue := blue p; alpha := alpha p |} :: ps'
      | [r; g] =>
          {| red := set_lsb (red p) r; green := set_lsb (green p) g;
             blue := blue p; alpha := alpha p |} :: ps'
      | r :: g :: b :: bs' =>
          {| red := set_lsb (red p) r; green := set_lsb (green p) g;
             blue := set_lsb (blue p) b; alpha := alpha p |}
            :: write_bits bs' ps'
      end
  end.

Definition lsb_stream (ps : list pixel) : list bool :=
  flat_map (fun p => [lsb (red p); lsb (green p); lsb (blue p)]) ps.

(** Reading [count] slots starting at slot [from]; [None] when the pixel
    data ends before the last slot asked for. *)
Definition read_bits (from count : nat) (ps : list pixel) : option (list bool) :=
  let got := firstn count (skipn from (lsb_stream ps)) in
  if (List.length got =? count)%nat then Some got else None.

Inductive embed_result : Type :=
| Embedded (out : image)
| CapacityExceeded.

Inductive decode_result : Type :=
| Found (payload : text)
| Absent
| DecodeFailure.


(** Modelled from the spec: [embedWatermark] of [utils/fileUtils] on the
    decoded pixel buffer (the spec's embedInvisible): capacity check, then
    the bitstream written into a copy of the buffer. *)
Definition embedInvisible (img : image) (payload : text) : embed_result :=
  if capacity img <? encoded_bits payload then CapacityExceeded
  else Embedded {| width := width img; height := height img;
                   pixels := write_bits (bitstream payload) (pixels img) |}.

(** The length declared by the first 32 slots, when the buffer has them. *)
Definition declared_length (img : image) : option Z :=
  option_map bits_to_Z (read_bits 0 prefix_bits (pixels img)).

(** Modelled from the spec: the decoder matching [embedWatermark] (the
    spec's decodeInvisible).  A buffer with no room for the prefix, a
    declared length beyond the capacity and bytes that are not UTF-8 all
    mean that no valid watermark is present; only a buffer that is shorter
    than its dimensions say makes decoding fail. *)
Definition decodeInvisible (img : image) : decode_result :=
  if capacity img <? 32 then Absent
  else
    match declared_length img with
    | None => DecodeFailure
    | Some len =>
        if capacity img <? 32 + 8 * len then Absent
        else
          match read_bits prefix_bits (Z.to_nat (8 * len)) (pixels img) with
          | None => DecodeFailure
          | Some body =>
              match utf8_decode (bytes_of_bits (Z.to_nat len) body) with
              | Some payload => Found payload
              | None => Absent
              end
          end
    end.

Section Rendering.

(** The platform's text rasteriser: for a stamp text and the surface
    dimensions, the stamp layer in raster order (colour and coverage of
    every pixel), or [None] when rendering fails. *)
Variable rasterize : text -> nat -> nat -> option (list pixel).






End Rendering.

(** Notions and sample data used by the properties below. *)

(** Two channel values that agree on all bits but the lowest. *)
Definition lsb_only (v w : Z) : Prop :=
  Z.shiftr w 1 = Z.shiftr v 1 /\ Z.abs (w - v) <= 1 /\ channel_ok w.

(** A pixel after embedding, against the pixel before. *)
Definition pixel_close (p q : pixel) : Prop :=
  alpha q = alpha p
  /\ lsb_only (red p) (red q)
  /\ lsb_only (green p) (green q)
  /\ lsb_only (blue p) (blue q).

Definition black : pixel := {| red := 0; green := 0; blue := 0; alpha := 255 |}.

Definition white : pixel := {| red := 255; green := 255; blue := 255; alpha := 255 |}.

Definition solid (w h : nat) (p : pixel) : image :=
  {| width := w; height := h; pixels := repeat p (w * h) |}.

(** A Payload of bounded byte length: valid text whose byte count the
    32-bit prefix can declare. *)
Definition valid_payload (t : text) : Prop :=
  valid_text t /\ payload_bytes t < 2 ^ 32.









(** A layer with no coverage anywhere. *)
Definition clear : pixel := {| red := 0; green := 0; blue := 0; alpha := 0 |}.


End WatermarkCodec.

(** ** services/geminiService: text-to-image and video *)

Module TextToImage.

Import GeminiService.

Inductive ImageAspectRatio : Type :=
| Ratio_1_1 | Ratio_16_9 | Ratio_9_16 | Ratio_4_3 | Ratio_3_4.

Definition ratio_text (r : ImageAspectRatio) : string :=
  match r with
  | Ratio_1_1 => "1:1"
  | Ratio_16_9 => "16:9"
  | Ratio_9_16 => "9:16"
  | Ratio_4_3 => "4:3"
  | Ratio_3_4 => "3:4"
  end.

Record GenerateImagesRequest : Type :=
  { images_model : string;
    images_prompt : string;
    numberOfImages : Z;
    outputMimeType : string;
    aspectRatio : string }.

Record Image : Type := { imageBytes : option string }.

Record GeneratedImage : Type := { image : option Image }.

Record GenerateImagesResponse : Type :=
  { generatedImages : option (list GeneratedImage) }.

Definition images_request (prompt : string) (ratio : ImageAspectRatio)
  : GenerateImagesRequest :=
  {| images_model := "imagen-4.0-generate-001";
     images_prompt := prompt;
     numberOfImages := 1;
     outputMimeType := "image/png";
     aspectRatio := ratio_text ratio |}.

Definition no_image_returned : string :=
  "The model did not return an image. It might have refused the request.".

Section WithPlatform.

Variable json_oracle : string -> option ParsedJson.

(** The message of the [TypeError] the engine raises when a property of
    [undefined] is read. *)
Variable type_error_message : string.

(** The part of the [try] body that follows the awaited call. *)
Definition generateImageFromText_after (response : GenerateImagesResponse)
  : outcome GeneratedContent :=
  match generatedImages response with
  | None => Rejected (ErrorObj no_image_returned)
  | Some [] => Rejected (ErrorObj no_image_returned)
  | Some (first :: _) =>
      match image first with
      | None => Rejected (ErrorObj type_error_message)
      | Some img =>
          Resolved {| imageUrl := Some ("data:image/png;base64,"
                                        ++ interpolate (imageBytes img))%string;
                      text := None |}
      end
  end.

(** [generateImageFromText], given the behaviour of
    [ai.models.generateImages]; its catch block is the one of
    [editImage]. *)
Definition generateImageFromText
    (generateImages : GenerateImagesRequest -> outcome GenerateImagesResponse)
    (prompt : string) (ratio : ImageAspectRatio) : outcome GeneratedContent :=
  let attempt :=
    match generateImages (images_request prompt ratio) with
    | Resolved response => generateImageFromText_after response
    | Rejected e => Rejected e
    end in
  match attempt with
  | Resolved result => Resolved result
  | Rejected error => Rejected (editImage_catch json_oracle error)
  end.

End WithPlatform.

Definition is_png_data_uri (u : string) : Prop :=
  starts_with "data:image/png;base64," u = true.

End TextToImage.

Module VideoGeneration.

Import GeminiService.

Record VideoRequest : Type :=
  { video_model : string;
    video_prompt : string;
    numberOfVideos : Z;
    video_aspectRatio : string;
    video_image : option ImagePart }.

(** [operation.error]; [message] is [None] when it is not a string. *)
Record OperationError : Type := { error_message : option string }.

Record Video : Type := { uri : option string }.

Record GeneratedVideo : Type := { video : option Video }.

Record VideosResponse : Type := { generatedVideos : option (list GeneratedVideo) }.

Record Operation : Type :=
  { done : bool;
    error : option OperationError;
    response : option VideosResponse }.

Definition video_request (prompt : string) (image : option ImagePart)
    (ratio : string) : VideoRequest :=
  {| video_model := "veo-2.0-generate-001";
     video_prompt := prompt;
     numberOfVideos := 1;
     video_aspectRatio := ratio;
     video_image := image |}.

Definition initializing : string := "Initializing video generation...".

Definition polling : string := "Polling for results, this may take a few minutes...".

Definition operation_failed : string := "Video generation failed during operation.".

Definition no_download_link : string :=
  "Video generation completed, but no download link was found.".

Definition unknown_video_message : string :=
  "An unknown error occurred during video generation.".

(** [operation.response?.generatedVideos?.[0]?.video?.uri] *)
Definition download_link (operation : Operation) : option string :=
  match response operation with
  | Some r =>
      match generatedVideos r with
      | Some (first :: _) =>
          match video first with
          | Some v => uri v
          | None => None
          end
      | _ => None
      end
  | None => None
  end.

(** The message thrown for [operation.error]. *)
Definition operation_error_message (e : OperationError) : string :=
  match error_message e with
  | Some m => if truthy (Some m) then m else operation_failed
  | None => operation_failed
  end.

(** The [while (!operation.done)] loop: [replies] are the results of the
    successive calls to [getVideosOperation].  The result is the operation
    the loop ends with (or the error of a failed call) and the number of
    calls made; [None] when the replies run out while the operation is
    still not done, so the loop is still waiting. *)
Fixpoint poll (operation : Operation) (replies : list (outcome Operation))
  : option (outcome Operation * nat) :=
  if done operation then Some (Resolved operation, 0%nat)
  else
    match replies with
    | [] => None
    | Rejected e :: _ => Some (Rejected e, 1%nat)
    | Resolved next :: rest =>
        match poll next rest with
        | Some (final, calls) => Some (final, S calls)
        | None => None
        end
    end.

Section WithPlatform.

Variable json_oracle : string -> option ParsedJson.

(** [process.env.API_KEY]; the module refuses to load without it. *)
Variable API_KEY : string.

(** What follows the loop in the [try] body. *)
Definition generateVideo_after (operation : Operation) : outcome string :=
  match error operation with
  | Some e => Rejected (ErrorObj (operation_error_message e))
  | None =>
      if negb (truthy (download_link operation))
      then Rejected (ErrorObj no_download_link)
      else Resolved (interpolate (download_link operation) ++ "&key=" ++ API_KEY)%string
  end.

Definition generateVideo_catch (error : thrown) : thrown :=
  match error with
  | ErrorObj message => ErrorObj (refine_message json_oracle message)
  | NonError _ => ErrorObj unknown_video_message
  end.

(** A run of [generateVideo]: how it settles ([None] while it is still
    polling), the messages passed to [onProgress], and the number of calls
    to [getVideosOperation]. *)
Record video_run : Type :=
  { settled : option (outcome string);
    progress : list string;
    polls : nat }.

Definition generateVideo
    (generateVideos : VideoRequest -> outcome Operation)
    (replies : list (outcome Operation))
    (prompt : string) (image : option ImagePart) (ratio : string) : video_run :=
  match generateVideos (video_request prompt image ratio) with
  | Rejected e =>
      {| settled := Some (Rejected (generateVideo_catch e));
         progress := [initializing]; polls := 0 |}
  | Resolved operation =>
      match poll operation replies with
      | None =>
          {| settled := None; progress := [initializing; polling];
             polls := List.length replies |}
      | Some (Rejected e, calls) =>
          {| settled := Some (Rejected (generateVideo_catch e));
             progress := [initializing; polling]; polls := calls |}
      | Some (Resolved final, calls) =>
          {| settled :=
               Some (match generateVideo_after final with
                     | Resolved url => Resolved url
                     | Rejected e => Rejected (generateVideo_catch e)
                     end);
             progress := [initializing; polling]; polls := calls |}
      end
  end.

End WithPlatform.

End VideoGeneration.

(** Notions used to describe what [editImage] makes of a reply. *)

Module ReplyNotions.

Import GeminiService.

(** The texts of the parts the loop treats as text, in order. *)
Definition said (ps : list ResponsePart) : list string :=
  flat_map (fun p => if truthy (part_text p) then [interpolate (part_text p)] else [])
           ps.

(** The inline data of the parts the loop treats as images, in order. *)
Definition shown (ps : list ResponsePart) : list InlineData :=
  flat_map (fun p => if truthy (part_text p) then []
                     else match part_inlineData p with
                          | Some d => [d]
                          | None => []
                          end)
           ps.

Definition joined (texts : list string) : option string :=
  match texts with
  | [] => None
  | _ => Some (String.concat newline texts)
  end.

Definition last_of {A} (xs : list A) : option A :=
  match rev xs with
  | x :: _ => Some x
  | [] => None
  end.

Definition two_texts_one_image : GenerateContentResponse :=
  {| candidates :=
       Some [ {| content :=
                   Some {| parts :=
                             Some [ {| part_text := Some "Here you go.";
                                       part_inlineData := None |};
                                    {| part_text := None;
                                       part_inlineData :=
                                         Some {| inline_data := Some "AAAA";
                                                 inline_mimeType := Some "image/png" |} |};
                                    {| part_text := Some "Enjoy!";
                                       part_inlineData := None |};
                                    {| part_text := None;
                                       part_inlineData :=
                                         Some {| inline_data := Some "BBBB";
                                                 inline_mimeType := Some "image/jpeg" |} |} ] |};
                 finishReason := Some "STOP";
                 safetyRatings := None |} ] |}.

Definition quota_error : ApiErrorBody :=
  {| err_message := Some "Quota exceeded for quota metric";
     err_status := Some "RESOURCE_EXHAUSTED";
     err_code := Some 500%Z |}.

(** The JSON text of an API error, as it arrives in [Error.message], and a
    parser that knows this one text and throws on every other. *)
Definition quota_json : string :=
  ("{" ++ dquote ++ "error" ++ dquote ++ ":{"
     ++ dquote ++ "code" ++ dquote ++ ":500,"
     ++ dquote ++ "message" ++ dquote ++ ":"
     ++ dquote ++ "Quota exceeded for quota metric" ++ dquote ++ ","
     ++ dquote ++ "status" ++ dquote ++ ":"
     ++ dquote ++ "RESOURCE_EXHAUSTED" ++ dquote ++ "}}")%string.

Definition quota_parser (s : string) : option ParsedJson :=
  if String.eqb s quota_json then Some (WithError quota_error) else None.

End ReplyNotions.

(** Sample replies of the image and video services. *)

Module ServiceSamples.

Import GeminiService TextToImage VideoGeneration.

Definition quota_reached : thrown := ErrorObj "Quota reached".

Definition one_png : GenerateImagesResponse :=
  {| generatedImages := Some [ {| image := Some {| imageBytes := Some "iVBORw0KGgo=" |} |} ] |}.

Definition running : Operation :=
  {| done := false; error := None; response := None |}.

Definition finished (link : string) : Operation :=
  {| done := true; error := None;
     response :=
       Some {| generatedVideos := Some [ {| video := Some {| uri := Some link |} |} ] |} |}.

Definition failed_with_link (link : string) : Operation :=
  {| done := true; error := Some {| error_message := Some EmptyString |};
     response :=
       Some {| generatedVideos := Some [ {| video := Some {| uri := Some link |} |} ] |} |}.

(** The second of the four calls fails, the others return an image. *)
Definition second_fails (i : nat)
  : GenerateContentRequest -> outcome GenerateContentResponse :=
  fun _ => if (i =? 1)%nat then Rejected quota_reached else Resolved image_reply.

End ServiceSamples.

(** ** components/MultiImageGridUploader.tsx: removal and the upload tile *)

Module GridUploaderRest.

Import MultiImageGridUploader.

(** [xs.filter((_, index) => keep(index))], with [from] the index of the
    head. *)
Fixpoint filter_index {A} (keep : nat -> bool) (from : nat) (xs : list A) : list A :=
  match xs with
  | [] => []
  | x :: rest =>
      if keep from then x :: filter_index keep (S from) rest
      else filter_index keep (S from) rest
  end.

(** [removeImage]: the list handed to [onImagesChange]. *)
Definition removeImage (imageUrls : list string) (indexToRemove : nat) : list string :=
  filter_index (fun index => negb (index =? indexToRemove)%nat) 0 imageUrls.

(** [imageUrls.length < maxImages]: whether the upload tile, the only
    element that calls [handleFiles], is rendered. *)
Definition upload_tile_shown (imageUrls : list string) (maxImages : Z) : bool :=
  (Z.of_nat (List.length imageUrls) <? maxImages)%Z.

(** The data URL the reader of the [i]-th file delivers, if any. *)
Definition read_at (files : list File) (i : nat) : option string :=
  match nth_error files i with
  | Some f => read f
  | None => None
  end.

Definition delivered (files : list File) (completions : list nat) : list string :=
  flat_map (fun i => match read_at files i with Some u => [u] | None => [] end)
           completions.

(** Whether the reader of the [i]-th file fires [onload]. *)
Definition delivers (files : list File) (i : nat) : bool :=
  match read_at files i with Some _ => true | None => false end.

Definition unreadable (n : string) : File := {| name := n; read := None |}.

End GridUploaderRest.

(** ** App.tsx and ResultDisplay.tsx: taking data URLs apart *)

Module DataUrls.

Import GeminiService.

(** [String.prototype.split] with a one-character separator. *)
Fixpoint split_on (sep : ascii) (s : string) : list string :=
  match s with
  | EmptyString => [EmptyString]
  | String c rest =>
      if Ascii.eqb c sep then EmptyString :: split_on sep rest
      else
        match split_on sep rest with
        | head :: tail => String c head :: tail
        | [] => [String c EmptyString]
        end
  end.

(** [String.prototype.includes] *)
Fixpoint includes (needle s : string) : bool :=
  starts_with needle s
  || match s with
     | EmptyString => false
     | String _ rest => includes needle rest
     end.

Definition comma : ascii := ascii_of_nat 44.
Definition semicolon : ascii := ascii_of_nat 59.
Definition colon : ascii := ascii_of_nat 58.
Definition slash : ascii := ascii_of_nat 47.

(** [url.split(';')[0]]; the first piece of a split always exists. *)
Definition before_semicolon (url : string) : string :=
  match split_on semicolon url with
  | head :: _ => head
  | [] => EmptyString
  end.

(** [url.split(',')[1]] *)
Definition url_base64 (url : string) : option string :=
  nth_error (split_on comma url) 1.

(** [url.split(';')[0].split(':')[1] ?? 'image/png'] *)
Definition url_mimeType (url : string) : string :=
  match nth_error (split_on colon (before_semicolon url)) 1 with
  | Some m => m
  | None => "image/png"
  end.

(** The image part built from a data URL all over [App.tsx]; [base64] is
    [undefined] for a URL without a comma. *)
Record UrlPart : Type := { part_base64 : option string; part_mimeType : string }.

Definition url_part (url : string) : UrlPart :=
  {| part_base64 := url_base64 url; part_mimeType := url_mimeType url |}.

(** [url.split(';')[0].split('/')[1] || 'png'] *)
Definition url_extension (url : string) : string :=
  let sub := nth_error (split_on slash (before_semicolon url)) 1 in
  if truthy sub then interpolate sub else "png".

(** The file name of [handleDownload] in [ResultDisplay.tsx], with [now]
    the text of [Date.now()]. *)
Definition download_name (imageUrl : string) (now : string) : string :=
  ("generated-image-" ++ now ++ "." ++ url_extension imageUrl)%string.

(** The file name of [handleDownloadFromHistory] in [App.tsx]. *)
Definition history_download_name (url type now : string) : string :=
  let fileExtension := if includes "video" type then "mp4" else url_extension url in
  (type ++ "-" ++ now ++ "." ++ fileExtension)%string.

(** No occurrence of a character in a string. *)
Fixpoint free_of (c : ascii) (s : string) : bool :=
  match s with
  | EmptyString => true
  | String x rest => negb (Ascii.eqb x c) && free_of c rest
  end.

End DataUrls.

(** ** App.tsx: the application state *)

Module AppState.

(** The properties of a [Transformation] (declared in [types], filled in by
    [constants]) that [App.tsx] reads; an absent flag is [false]. *)
Record Transformation : Type :=
  { key : string;
    prompt : string;
    videoPrompt : option string;
    stepTwoPrompt : option string;
    maxImages : option Z;
    isVideo : bool;
    isMultiImage : bool;
    isSecondaryOptional : bool;
    isTwoStep : bool;
    isMultiStepVideo : bool }.

(** Truthiness of [maxImages]: a number other than 0. *)
Definition has_maxImages (tr : Transformation) : bool :=
  match maxImages tr with
  | Some n => negb (n =? 0)%Z
  | None => false
  end.

(** What [localStorage.getItem('transformationOrder')] and [JSON.parse]
    make of the saved order. *)
Inductive SavedOrder : Type :=
| NoItem
| Unparsable
| Keys (orderedKeys : list string).

Section Order.

(** [TRANSFORMATIONS] of [constants]. *)
Variable TRANSFORMATIONS : list Transformation.

(** [new Map(TRANSFORMATIONS.map(t => [t.key, t])).get(k)]: of several
    entries with one key the last one stays. *)
Definition transformationMap_get (k : string) : option Transformation :=
  find (fun tr => String.eqb (key tr) k) (rev TRANSFORMATIONS).

(** The initial value of the [transformations] state. *)
Definition initial_transformations (savedOrder : SavedOrder) : list Transformation :=
  match savedOrder with
  | Keys orderedKeys =>
      let orderedTransformations :=
        flat_map (fun k => match transformationMap_get k with
                           | Some tr => [tr]
                           | None => []
                           end)
                 orderedKeys in
      let newTransformations :=
        filter (fun tr => negb (existsb (String.eqb (key tr)) orderedKeys))
               TRANSFORMATIONS in
      orderedTransformations ++ newTransformations
  | _ => TRANSFORMATIONS
  end.

End Order.

(** The effect that saves the order: what a later load reads back. *)
Definition saved_order (transformations : list Transformation) : SavedOrder :=
  Keys (map key transformations).

Definition effect (k : string) : Transformation :=
  {| key := k; prompt := "Turn the photo into " ++ k; videoPrompt := None;
     stepTwoPrompt := None; maxImages := None; isVideo := false;
     isMultiImage := false; isSecondaryOptional := false; isTwoStep := false;
     isMultiStepVideo := false |}.

End AppState.

(** The [GeneratedContent] of [types], with all the properties [App.tsx]
    and [ResultDisplay.tsx] read. *)

Module Types.

Record GeneratedContent : Type :=
  { imageUrl : option string;
    text : option string;
    videoUrl : option string;
    secondaryImageUrl : option string }.

End Types.

(** ** App.tsx: [handleGenerateImage] and the Generate button *)

Module Generation.

Import AppState DataUrls.

Inductive MobileView : Type := InputView | OutputView.

(** The state variables of [App] that generating an image reads or sets. *)
Record State : Type :=
  { selectedTransformation : option Transformation;
    primaryImageUrl : option string;
    secondaryImageUrl : option string;
    multiImageUrls : list string;
    generatedContent : option Types.GeneratedContent;
    isLoading : bool;
    loadingMessage : string;
    error : option string;
    maskDataUrl : option string;
    customPrompt : string;
    imageAspectRatio : string;
    history : list Types.GeneratedContent;
    imageOptions : option (list string);
    selectedOption : option string;
    mobileView : MobileView }.

Definition setIsLoading (v : bool) (st : State) : State :=
  {| selectedTransformation := selectedTransformation st;
     primaryImageUrl := primaryImageUrl st;
     secondaryImageUrl := secondaryImageUrl st;
     multiImageUrls := multiImageUrls st;
     generatedContent := generatedContent st;
     isLoading := v;
     loadingMessage := loadingMessage st;
     error := error st;
     maskDataUrl := maskDataUrl st;
     customPrompt := customPrompt st;
     imageAspectRatio := imageAspectRatio st;
     history := history st;
     imageOptions := imageOptions st;
     selectedOption := selectedOption st;
     mobileView := mobileView st |}.

Definition setLoadingMessage (v : string) (st : State) : State :=
  {| selectedTransformation := selectedTransformation st;
     primaryImageUrl := primaryImageUrl st;
     secondaryImageUrl := secondaryImageUrl st;
     multiImageUrls := multiImageUrls st;
     generatedContent := generatedContent st;
     isLoading := isLoading st;
     loadingMessage := v;
     error := error st;
     maskDataUrl := maskDataUrl st;
     customPrompt := customPrompt st;
     imageAspectRatio := imageAspectRatio st;
     history := history st;
     imageOptions := imageOptions st;
     selectedOption := selectedOption st;
     mobileView := mobileView st |}.

Definition setError (v : option string) (st : State) : State :=
  {| selectedTransformation := selectedTransformation st;
     primaryImageUrl := primaryImageUrl st;
     secondaryImageUrl := secondaryImageUrl st;
     multiImageUrls := multiImageUrls st;
     generatedContent := generatedContent st;
     isLoading := isLoading st;
     loadingMessage := loadingMessage st;
     error := v;
     maskDataUrl := maskDataUrl st;
     customPrompt := customPrompt st;
     imageAspectRatio := imageAspectRatio st;
     history := history st;
     imageOptions := imageOptions st;
     selectedOption := selectedOption st;
     mobileView := mobileView st |}.

Definition setGeneratedContent (v : option Types.GeneratedContent) (st : State) : State :=
  {| selectedTransformation := selectedTransformation st;
     primaryImageUrl := primaryImageUrl st;
     secondaryImageUrl := secondaryImageUrl st;
     multiImageUrls := multiImageUrls st;
     generatedContent := v;
     isLoading := isLoading st;
     loadingMessage := loadingMessage st;
     error := error st;
     maskDataUrl := maskDataUrl st;
     customPrompt := customPrompt st;
     imageAspectRatio := imageAspectRatio st;
     history := history st;
     imageOptions := imageOptions st;
     selectedOption := selectedOption st;
     mobileView := mobileView st |}.

(** [setHistory(prev => [result, ...prev])] *)
Definition pushHistory (result : Types.GeneratedContent) (st : State) : State :=
  {| selectedTransformation := selectedTransformation st;
     primaryImageUrl := primaryImageUrl st;
     secondaryImageUrl := secondaryImageUrl st;
     multiImageUrls := multiImageUrls st;
     generatedContent := generatedContent st;
     isLoading := isLoading st;
     loadingMessage := loadingMessage st;
     error := error st;
     maskDataUrl := maskDataUrl st;
     customPrompt := customPrompt st;
     imageAspectRatio := imageAspectRatio st;
     history := result :: history st;
     imageOptions := imageOptions st;
     selectedOption := selectedOption st;
     mobileView := mobileView st |}.

Definition setImageOptions (v : option (list string)) (st : State) : State :=
  {| selectedTransformation := selectedTransformation st;
     primaryImageUrl := primaryImageUrl st;
     secondaryImageUrl := secondaryImageUrl st;
     multiImageUrls := multiImageUrls st;
     generatedContent := generatedContent st;
     isLoading := isLoading st;
     loadingMessage := loadingMessage st;
     error := error st;
     maskDataUrl := maskDataUrl st;
     customPrompt := customPrompt st;
     imageAspectRatio := imageAspectRatio st;
     history := history st;
     imageOptions := v;
     selectedOption := selectedOption st;
     mobileView := mobileView st |}.

Definition setSelectedOption (v : option string) (st : State) : State :=
  {| selectedTransformation := selectedTransformation st;
     primaryImageUrl := primaryImageUrl st;
     secondaryImageUrl := secondaryImageUrl st;
     multiImageUrls := multiImageUrls st;
     generatedContent := generatedContent st;
     isLoading := isLoading st;
     loadingMessage := loadingMessage st;
     error := error st;
     maskDataUrl := maskDataUrl st;
     customPrompt := customPrompt st;
     imageAspectRatio := imageAspectRatio st;
     history := history st;
     imageOptions := imageOptions st;
     selectedOption := v;
     mobileView := mobileView st |}.

Definition setMobileView (v : MobileView) (st : State) : State :=
  {| selectedTransformation := selectedTransformation st;
     primaryImageUrl := primaryImageUrl st;
     secondaryImageUrl := secondaryImageUrl st;
     multiImageUrls := multiImageUrls st;
     generatedContent := generatedContent st;
     isLoading := isLoading st;
     loadingMessage := loadingMessage st;
     error := error st;
     maskDataUrl := maskDataUrl st;
     customPrompt := customPrompt st;
     imageAspectRatio := imageAspectRatio st;
     history := history st;
     imageOptions := imageOptions st;
     selectedOption := selectedOption st;
     mobileView := v |}.

(** The [return] or [throw] by which a run of [handleGenerateImage] ended. *)
Inductive exit : Type :=
| InvalidSelection
| NeedOneImage
| NeedBothImages
| NeedPrimaryImage
| Failed (err : thrown)
| ShowedOptions
| ShowedResult.

Definition succeeded (x : exit) : bool :=
  match x with ShowedOptions | ShowedResult => true | _ => false end.

Definition needs_input (x : exit) : bool :=
  match x with
  | InvalidSelection | NeedOneImage | NeedBothImages | NeedPrimaryImage => true
  | _ => false
  end.

(** Sequencing of awaited calls inside a [try] body. *)
Definition await {A B} (p : outcome A) (k : A -> outcome B) : outcome B :=
  match p with
  | Resolved a => k a
  | Rejected e => Rejected e
  end.

Definition step_one_failed : string := "Step 1 (line art) failed to generate an image.".

(** [result.imageUrl = ...] on a result object. *)
Definition with_imageUrl (result : Types.GeneratedContent) (url : option string)
  : Types.GeneratedContent :=
  {| Types.imageUrl := url;
     Types.text := Types.text result;
     Types.videoUrl := Types.videoUrl result;
     Types.secondaryImageUrl := Types.secondaryImageUrl result |}.

(** [watermarkedResults.filter(url => !!url)] *)
Definition truthy_urls (urls : list (option string)) : list string :=
  flat_map (fun url => match url with
                       | Some u => if truthy url then [u] else []
                       | None => []
                       end)
           urls.

Section Handler.

(** The translation function, [String.prototype.trim], and the type of
    loaded images. *)
Variable t : string -> string.
Variable trim : string -> string.
Variable HTMLImageElement : Type.

(** The services: the [n]-th call of a run to [editImage] with the prompt,
    parts and mask it is given, the batch and text-to-image calls, and
    the helpers of [utils/fileUtils]. *)
Variable editImage :
  nat -> option string -> list UrlPart -> option string -> outcome Types.GeneratedContent.
Variable generateImageEditsBatch : string -> list UrlPart -> outcome (list string).
Variable generateImageFromText : string -> string -> outcome Types.GeneratedContent.
Variables embedWatermark addVisibleWatermark : string -> string -> outcome string.
Variable loadImage : string -> outcome HTMLImageElement.
Variable resizeImageToMatch : string -> HTMLImageElement -> outcome string.

(** The order in which the watermarking promises of the batch settle, and
    the [TypeError] of reading a property of [null]. *)
Variable settle : list nat.
Variable type_error : thrown.

Definition watermarks (imageUrl : option string) : outcome (option string) :=
  fst (App.applyWatermarks embedWatermark addVisibleWatermark imageUrl).

(** [selectedTransformation?.prompt === 'CUSTOM' ? customPrompt
    : selectedTransformation?.prompt] *)
Definition promptToUse (st : State) : option string :=
  match selectedTransformation st with
  | Some tr => if String.eqb (prompt tr) "CUSTOM" then Some (customPrompt st)
               else Some (prompt tr)
  | None => None
  end.

Definition blank (s : option string) : bool :=
  match s with
  | Some v => negb (truthy (Some (trim v)))
  | None => true
  end.

(** The tail shared by the single-result flows. *)
Definition show_result (st : State) (result : Types.GeneratedContent)
  : outcome (State * exit) :=
  await (watermarks (Types.imageUrl result)) (fun watermarked =>
    let shown := with_imageUrl result watermarked in
    Resolved (pushHistory shown (setGeneratedContent (Some shown) st), ShowedResult)).

Definition need (st : State) (message : string) (x : exit) : outcome (State * exit) :=
  Resolved (setIsLoading false (setError (Some (t message)) st), x).

(** The [try] body, from the state in which the handler was created. *)
Definition generate_try (tr : Transformation) (usedPrompt : string) (st : State)
  : outcome (State * exit) :=
  if isMultiStepVideo tr then
    if (List.length (multiImageUrls st) =? 0)%nat
    then need st "app.error.uploadOne" NeedOneImage
    else
      let st1 := setLoadingMessage (t "app.loading.generatingOptions") st in
      await (generateImageEditsBatch usedPrompt (map url_part (multiImageUrls st)))
        (fun results =>
      await (Promise_all settle (map (fun url => watermarks (Some url)) results))
        (fun watermarkedResults =>
      Resolved (setSelectedOption None
                  (setImageOptions (Some (truthy_urls watermarkedResults)) st1),
                ShowedOptions)))
  else if String.eqb (key tr) "customPrompt" && negb (truthy (primaryImageUrl st)) then
    await (generateImageFromText usedPrompt (imageAspectRatio st)) (show_result st)
  else
    let maskBase64 :=
      if truthy (maskDataUrl st) then url_base64 (interpolate (maskDataUrl st))
      else None in
    if has_maxImages tr then
      if (List.length (multiImageUrls st) =? 0)%nat
      then need st "app.error.uploadOne" NeedOneImage
      else
        await (editImage 0 (Some usedPrompt) (map url_part (multiImageUrls st)) None)
              (show_result st)
    else if isTwoStep tr then
      if negb (truthy (primaryImageUrl st)) || negb (truthy (secondaryImageUrl st))
      then need st "app.error.uploadBoth" NeedBothImages
      else
        let st1 := setLoadingMessage (t "app.loading.step1") st in
        await (editImage 0 (Some usedPrompt)
                 [url_part (interpolate (primaryImageUrl st))] None)
          (fun stepOneResult =>
        if negb (truthy (Types.imageUrl stepOneResult))
        then Rejected (ErrorObj step_one_failed)
        else
          await (watermarks (Types.imageUrl stepOneResult)) (fun stepOneUrl =>
          let st2 := setLoadingMessage (t "app.loading.step2") st1 in
          match stepOneUrl with
          | None => Rejected type_error
          | Some lineArt =>
              await (loadImage (interpolate (primaryImageUrl st))) (fun primaryImage =>
              await (resizeImageToMatch (interpolate (secondaryImageUrl st)) primaryImage)
                (fun resizedSecondaryImageUrl =>
              await (editImage 1 (stepTwoPrompt tr)
                       [url_part lineArt; url_part resizedSecondaryImageUrl] None)
                (fun stepTwoResult =>
              await (watermarks (Types.imageUrl stepTwoResult)) (fun watermarked =>
              let finalResult :=
                {| Types.imageUrl := watermarked;
                   Types.text := Types.text stepTwoResult;
                   Types.videoUrl := Types.videoUrl stepTwoResult;
                   Types.secondaryImageUrl := Some lineArt |} in
              Resolved (pushHistory finalResult
                          (setGeneratedContent (Some finalResult) st2),
                        ShowedResult)))))
          end))
    else
      if negb (truthy (primaryImageUrl st))
      then need st "app.error.uploadAndSelect" NeedPrimaryImage
      else if isMultiImage tr && negb (isSecondaryOptional tr)
              && negb (truthy (secondaryImageUrl st))
      then need st "app.error.uploadBoth" NeedBothImages
      else
        let imageParts :=
          url_part (interpolate (primaryImageUrl st))
            :: (if isMultiImage tr && truthy (secondaryImageUrl st)
                then [url_part (interpolate (secondaryImageUrl st))] else []) in
        let st1 := setLoadingMessage (t "app.loading.default") st in
        await (editImage 0 (Some usedPrompt) imageParts maskBase64) (show_result st1).

(** What a run does not touch. *)
Definition same_inputs (a b : State) : Prop :=
  selectedTransformation b = selectedTransformation a
  /\ primaryImageUrl b = primaryImageUrl a
  /\ secondaryImageUrl b = secondaryImageUrl a
  /\ multiImageUrls b = multiImageUrls a
  /\ maskDataUrl b = maskDataUrl a
  /\ customPrompt b = customPrompt a
  /\ imageAspectRatio b = imageAspectRatio a.

(** The state a [try] body returns in, against the state it started in. *)
Definition try_post (st0 st1 : State) (x : exit) : Prop :=
  same_inputs st0 st1
  /\ match x with
     | NeedOneImage | NeedBothImages | NeedPrimaryImage =>
         (exists message, error st1 = Some (t message))
         /\ generatedContent st1 = generatedContent st0
         /\ history st1 = history st0
         /\ imageOptions st1 = imageOptions st0
     | ShowedOptions =>
         error st1 = error st0
         /\ generatedContent st1 = generatedContent st0
         /\ history st1 = history st0
         /\ (exists options, imageOptions st1 = Some options)
         /\ selectedOption st1 = None
     | ShowedResult =>
         error st1 = error st0
         /\ (exists shown, generatedContent st1 = Some shown
                           /\ history st1 = shown :: history st0)
         /\ imageOptions st1 = imageOptions st0
     | InvalidSelection | Failed _ => False
     end.

(** [err instanceof Error ? err.message : t('app.error.unknown')] *)
Definition failure_message (err : thrown) : string :=
  match err with
  | ErrorObj message => message
  | NonError _ => t "app.error.unknown"
  end.

(** The [finally] block. *)
Definition generate_finally (st : State) : State :=
  setLoadingMessage EmptyString (setIsLoading false st).

(** [handleGenerateImage]: the state once the handler has run to its end,
    and the way it ended. *)
Definition handleGenerateImage (st : State) : State * exit :=
  match selectedTransformation st, promptToUse st with
  | Some tr, Some usedPrompt =>
      if blank (Some usedPrompt)
      then (setError (Some (t "app.error.uploadAndSelect")) st, InvalidSelection)
      else
        let st0 :=
          setMobileView OutputView
            (setLoadingMessage EmptyString
               (setGeneratedContent None
                  (setError None (setIsLoading true st)))) in
        match generate_try tr usedPrompt st0 with
        | Resolved (st1, x) => (generate_finally st1, x)
        | Rejected err =>
            (generate_finally (setError (Some (failure_message err)) st0), Failed err)
        end
  | _, _ => (setError (Some (t "app.error.uploadAndSelect")) st, InvalidSelection)
  end.

(** [isCustomPromptEmpty] and [isGenerateDisabled] of the render. *)
Definition isCustomPromptEmpty (st : State) : bool :=
  match selectedTransformation st with
  | Some tr => String.eqb (prompt tr) "CUSTOM" && blank (Some (customPrompt st))
  | None => false
  end.

Definition isGenerateDisabled (st : State) : bool :=
  match selectedTransformation st with
  | None => true
  | Some tr =>
      if String.eqb (key tr) "customPrompt" then isLoading st || isCustomPromptEmpty st
      else if isVideo tr then isLoading st || blank (Some (customPrompt st))
      else if has_maxImages tr
      then isLoading st || (List.length (multiImageUrls st) =? 0)%nat
      else
        let imagesReady :=
          if isMultiImage tr then
            if isSecondaryOptional tr then truthy (primaryImageUrl st)
            else truthy (primaryImageUrl st) && truthy (secondaryImageUrl st)
          else truthy (primaryImageUrl st) in
        isLoading st || isCustomPromptEmpty st || negb imagesReady
  end.

End Handler.

End Generation.

(** Sample states and services for the properties of [handleGenerateImage]. *)

Module GenerationSamples.

Import AppState DataUrls Generation.

Definition sample_image : string := "data:image/png;base64,iVBORw0KGgo=".

Definition ready (tr : Transformation) : State :=
  {| selectedTransformation := Some tr;
     primaryImageUrl := Some sample_image;
     secondaryImageUrl := None;
     multiImageUrls := [sample_image];
     generatedContent := None;
     isLoading := false;
     loadingMessage := EmptyString;
     error := None;
     maskDataUrl := None;
     customPrompt := EmptyString;
     imageAspectRatio := "1:1";
     history := [];
     imageOptions := None;
     selectedOption := None;
     mobileView := InputView |}.

Definition edited : Types.GeneratedContent :=
  {| Types.imageUrl := Some "data:image/png;base64,AAAA";
     Types.text := None; Types.videoUrl := None; Types.secondaryImageUrl := None |}.

Definition edits (n : nat) (p : option string) (parts : list UrlPart)
    (mask : option string) : outcome Types.GeneratedContent :=
  Resolved edited.

Definition four_edits (p : string) (parts : list UrlPart) : outcome (list string) :=
  Resolved [sample_image; sample_image; sample_image; sample_image].

Definition painted (p ratio : string) : outcome Types.GeneratedContent :=
  Resolved edited.

Definition no_canvas (url txt : string) : outcome string :=
  Rejected (ErrorObj "Could not get canvas context").

Definition loads (url : string) : outcome unit := Resolved tt.

Definition resizes (url : string) (img : unit) : outcome string := Resolved url.

Definition identity_trim (s : string) : string := s.

Definition no_translation (k : string) : string := k.

Definition multi_effect : Transformation :=
  {| key := "pose"; prompt := "Put the person in this pose"; videoPrompt := None;
     stepTwoPrompt := None; maxImages := Some 4%Z; isVideo := false;
     isMultiImage := false; isSecondaryOptional := false; isTwoStep := false;
     isMultiStepVideo := false |}.

Definition options_effect : Transformation :=
  {| key := "dynamic"; prompt := "Four shots of the scene";
     videoPrompt := Some "Animate the shot";
     stepTwoPrompt := None; maxImages := Some 4%Z; isVideo := false;
     isMultiImage := false; isSecondaryOptional := false; isTwoStep := false;
     isMultiStepVideo := true |}.

End GenerationSamples.

(** ** components/ResultDisplay.tsx *)

Module ResultDisplay.

Import QArith.QArith_base.

Inductive ViewMode : Type := ResultMode | SideBySideMode | SliderMode.

Inductive TwoStepViewMode : Type := TwoStepResultMode | GridMode | TwoStepSliderMode.

(** The two mode variables of the component. *)
Record Modes : Type := { viewMode : ViewMode; twoStepViewMode : TwoStepViewMode }.

(** The effect that runs when [content] or [originalImageUrl] changes. *)
Definition on_content (content : Types.GeneratedContent)
    (originalImageUrl : option string) (m : Modes) : Modes :=
  if truthy (Types.imageUrl content) && truthy originalImageUrl then
    if truthy (Types.secondaryImageUrl content)
    then {| viewMode := viewMode m; twoStepViewMode := TwoStepSliderMode |}
    else {| viewMode := SliderMode; twoStepViewMode := twoStepViewMode m |}
  else
    if truthy (Types.secondaryImageUrl content)
    then {| viewMode := viewMode m; twoStepViewMode := TwoStepResultMode |}
    else {| viewMode := ResultMode; twoStepViewMode := twoStepViewMode m |}.

(** Which of its views the component returns. *)
Inductive View : Type :=
| VideoView
| TwoStepView (mode : TwoStepViewMode)
| ComparisonView (mode : ViewMode)
| SingleView
| Nothing.

Definition render (content : Types.GeneratedContent)
    (originalImageUrl : option string) (m : Modes) : View :=
  if truthy (Types.videoUrl content) then VideoView
  else if truthy (Types.secondaryImageUrl content) && truthy (Types.imageUrl content)
          && truthy originalImageUrl
  then TwoStepView (twoStepViewMode m)
  else if truthy (Types.imageUrl content) && truthy originalImageUrl
  then ComparisonView (viewMode m)
  else if truthy (Types.imageUrl content) then SingleView
  else Nothing.

(** The size of a loaded image. *)
Record Picture : Type := { pic_width : nat; pic_height : nat }.

(** One [ctx.drawImage(img, x, y)]. *)
Record Draw : Type := { drawn : Picture; at_x : nat; at_y : Q }.

Record Canvas : Type :=
  { canvas_width : nat; canvas_height : nat; draws : list Draw }.

(** The loop that draws the images side by side. *)
Fixpoint place (maxHeight currentX : nat) (pics : list Picture) : list Draw :=
  match pics with
  | [] => []
  | p :: rest =>
      {| drawn := p; at_x := currentX;
         at_y := (inject_Z (Z.of_nat maxHeight - Z.of_nat (pic_height p)) / 2)%Q |}
        :: place maxHeight (currentX + pic_width p) rest
  end.

Definition imagesToLoad (content : Types.GeneratedContent)
    (originalImageUrl : option string) : list (option string) :=
  originalImageUrl
    :: (if truthy (Types.secondaryImageUrl content) && truthy (Types.imageUrl content)
        then [Types.secondaryImageUrl content; Types.imageUrl content]
        else if truthy (Types.imageUrl content) then [Types.imageUrl content]
        else []).

(** [imagesToLoad.filter(item => item.url)] *)
Definition validImages (content : Types.GeneratedContent)
    (originalImageUrl : option string) : list string :=
  flat_map (fun url => match url with
                       | Some u => if truthy url then [u] else []
                       | None => []
                       end)
           (imagesToLoad content originalImageUrl).

Section Comparison.

(** The image each URL loads to, and whether the canvas yields a 2D
    context. *)
Variable loaded : string -> Picture.
Variable has_context : bool.

(** [handleDownloadComparison]: the canvas whose picture is downloaded, or
    [None] when it returns without downloading. *)
Definition handleDownloadComparison (content : Types.GeneratedContent)
    (originalImageUrl : option string) : option Canvas :=
  let valid := validImages content originalImageUrl in
  if (List.length valid <? 2)%nat then None
  else if negb has_context then None
  else
    let pics := map loaded valid in
    let totalWidth := fold_left (fun sum p => (sum + pic_width p)%nat) pics 0%nat in
    let maxHeight := fold_right Nat.max 0%nat (map pic_height pics) in
    Some {| canvas_width := totalWidth; canvas_height := maxHeight;
            draws := place maxHeight 0 pics |}.

End Comparison.

(** Draws that tile the stretch from [from] to [upto] from left to right,
    without gap or overlap. *)
Fixpoint tiles (from : nat) (ds : list Draw) (upto : nat) : Prop :=
  match ds with
  | [] => from = upto
  | d :: rest => at_x d = from /\ tiles (from + pic_width (drawn d)) rest upto
  end.

(** A draw that lies within the height [h]. *)
Definition fits_height (h : nat) (d : Draw) : Prop :=
  (0 <= at_y d)%Q
  /\ (at_y d + inject_Z (Z.of_nat (pic_height (drawn d))) <= inject_Z (Z.of_nat h))%Q.

Definition two_step_content : Types.GeneratedContent :=
  {| Types.imageUrl := Some "data:image/png;base64,FINAL";
     Types.text := None; Types.videoUrl := None;
     Types.secondaryImageUrl := Some "data:image/png;base64,LINES" |}.

Definition sizes (url : string) : Picture :=
  if String.eqb url "data:image/png;base64,LINES"
  then {| pic_width := 300; pic_height := 200 |}
  else {| pic_width := 640; pic_height := 480 |}.

End ResultDisplay.

(** * Properties *)

(** ** Promises *)

Module PromiseFacts.

Lemma first_rejection_none {A} (ps : list (outcome A)) (settle : list nat) :
  first_rejection ps settle = None ->
  forall i e, In i settle -> nth_error ps i <> Some (Rejected e).
Proof.
  induction settle as [|j rest IH]; intros Hnone i e Hin; [destruct Hin|].
  simpl in Hnone.
  destruct (nth_error ps j) as [[a|e']|] eqn:Hj; try discriminate;
    destruct Hin as [->|Hin]; try (now apply IH);
    rewrite Hj; discriminate.
Qed.

Lemma first_rejection_some {A} (ps : list (outcome A)) (settle : list nat) e :
  first_rejection ps settle = Some e ->
  exists i, In i settle /\ nth_error ps i = Some (Rejected e).
Proof.
  induction settle as [|j rest IH]; intros Hsome; [discriminate|].
  simpl in Hsome.
  destruct (nth_error ps j) as [[a|e']|] eqn:Hj.
  - destruct (IH Hsome) as (i & Hi & Hn). exists i. split; [now right|exact Hn].
  - injection Hsome as ->. exists j. split; [now left|exact Hj].
  - destruct (IH Hsome) as (i & Hi & Hn). exists i. split; [now right|exact Hn].
Qed.

Lemma resolved_values_all {A} (ps : list (outcome A)) :
  (forall i e, nth_error ps i <> Some (Rejected e)) ->
  map Resolved (resolved_values ps) = ps.
Proof.
  induction ps as [|p ps IH]; intros Hall; [reflexivity|].
  destruct p as [a|e].
  - change (resolved_values (Resolved a :: ps)) with (a :: resolved_values ps).
    simpl. f_equal. apply IH. intros i e. exact (Hall (S i) e).
  - exfalso. exact (Hall 0%nat e eq_refl).
Qed.

(** [Promise.all] resolves exactly when no promise rejects, and then with
    one value per promise, in index order. *)
Lemma Promise_all_resolved {A} settle (ps : list (outcome A)) vs :
  Promise_all settle ps = Resolved vs -> map Resolved vs = ps.
Proof.
  unfold Promise_all.
  destruct (first_rejection ps (settle ++ seq 0 (List.length ps))) eqn:Hfr;
    [discriminate|].
  intros Heq. injection Heq as <-.
  apply resolved_values_all. intros i e Hi.
  apply (@first_rejection_none _ _ _ Hfr i e); [|exact Hi].
  apply in_or_app. right. apply in_seq.
  assert (i < List.length ps)%nat by (apply nth_error_Some; rewrite Hi; discriminate).
  lia.
Qed.

Lemma Promise_all_rejected {A} settle (ps : list (outcome A)) e :
  Promise_all settle ps = Rejected e -> In (Rejected e) ps.
Proof.
  unfold Promise_all.
  destruct (first_rejection ps (settle ++ seq 0 (List.length ps))) eqn:Hfr;
    [|discriminate].
  intros Heq. injection Heq as ->.
  destruct (@first_rejection_some _ _ _ _ Hfr) as (i & _ & Hi).
  eapply nth_error_In. exact Hi.
Qed.

Lemma Promise_all_child_rejects {A} settle (ps : list (outcome A)) e :
  In (Rejected e) ps -> exists e', Promise_all settle ps = Rejected e'.
Proof.
  intros Hin. unfold Promise_all.
  destruct (first_rejection ps (settle ++ seq 0 (List.length ps))) eqn:Hfr.
  - eexists. reflexivity.
  - exfalso. apply In_nth_error in Hin. destruct Hin as (i & Hi).
    apply (@first_rejection_none _ _ _ Hfr i e); [|exact Hi].
    apply in_or_app. right. apply in_seq.
    assert (i < List.length ps)%nat by (apply nth_error_Some; rewrite Hi; discriminate).
    lia.
Qed.

End PromiseFacts.

(** ** services/geminiService: [editImage] and [generateImageEditsBatch] *)

Module GeminiServiceFacts.

Import GeminiService PromiseFacts.

Lemma data_uri_truthy d : truthy (Some (data_uri d)) = true.
Proof. reflexivity. Qed.

Lemma data_uri_is_data_uri d : is_data_uri (data_uri d).
Proof. reflexivity. Qed.

Lemma absorb_part_shape r p : image_shape r -> image_shape (absorb_part r p).
Proof.
  intros Hr. unfold absorb_part.
  destruct (truthy (part_text p)); [exact Hr|].
  destruct (part_inlineData p) as [d|]; [|exact Hr].
  right. exists d. reflexivity.
Qed.

Lemma fold_absorb_shape ps : forall r,
  image_shape r -> image_shape (fold_left absorb_part ps r).
Proof.
  induction ps as [|p ps IH]; intros r Hr; [exact Hr|].
  simpl. apply IH. now apply absorb_part_shape.
Qed.

Lemma collect_parts_shape response : image_shape (collect_parts response).
Proof.
  unfold collect_parts.
  destruct (response_parts response) as [ps|].
  - apply fold_absorb_shape. now left.
  - now left.
Qed.

(** After the call, the body either returns the collected result, whose
    image is a data URI, or throws the no-image error. *)
Lemma editImage_after_cases response :
  (exists d, editImage_after response = Resolved (collect_parts response)
             /\ imageUrl (collect_parts response) = Some (data_uri d))
  \/ (editImage_after response
      = Rejected (ErrorObj (no_image_message response (collect_parts response)))
      /\ truthy (imageUrl (collect_parts response)) = false).
Proof.
  unfold editImage_after.
  destruct (collect_parts_shape response) as [Hnone|(d & Hd)].
  - right. rewrite Hnone. split; reflexivity.
  - left. exists d. rewrite Hd. split; reflexivity.
Qed.

Lemma no_image_message_plain response result :
  json_opening (no_image_message response result) = false.
Proof.
  unfold no_image_message.
  destruct (truthy (text result)); [reflexivity|].
  destruct (is_safety response); reflexivity.
Qed.

Lemma refine_message_plain oracle m :
  json_opening m = false -> refine_message oracle m = m.
Proof.
  intros Hm. unfold refine_message, JSON_parse. now rewrite Hm.
Qed.

Lemma editImage_catch_error oracle e :
  exists msg, editImage_catch oracle e = ErrorObj msg.
Proof. destruct e; eexists; reflexivity. Qed.

(** [editImage] settles in one of two ways. *)
Lemma editImage_cases oracle generateContent prompt imageParts maskBase64 :
  (exists msg, editImage oracle generateContent prompt imageParts maskBase64
               = Rejected (ErrorObj msg))
  \/ (exists r d, editImage oracle generateContent prompt imageParts maskBase64
                  = Resolved r
                  /\ imageUrl r = Some (data_uri d)).
Proof.
  unfold editImage.
  destruct (generateContent (edit_request prompt imageParts maskBase64))
    as [response|e].
  - destruct (editImage_after_cases response) as [(d & -> & Hd)|(-> & _)].
    + right. eauto.
    + left. destruct (editImage_catch_error oracle
                        (ErrorObj (no_image_message response (collect_parts response))))
        as (msg & ->).
      now exists msg.
  - left. destruct (editImage_catch_error oracle e) as (msg & ->). now exists msg.
Qed.

(** C9, as stated, fails: with finish reason SAFETY and no image, a reply
    that carries text is reported with the quoted text, not with the
    safety message. *)
Lemma editImage_safety_text_counterexample :
  is_safety refusal_with_text = true
  /\ imageUrl (collect_parts refusal_with_text) = None
  /\ exists msg,
      editImage (fun _ => None) (fun _ => Resolved refusal_with_text)
                "make it night" [] None
      = Rejected (ErrorObj msg)
      /\ msg = responded_message "I cannot edit this image."
      /\ ~ is_safety_message msg.
Proof.
  split; [reflexivity|]. split; [reflexivity|].
  eexists. split; [reflexivity|]. split; [reflexivity|].
  unfold is_safety_message. simpl. discriminate.
Qed.

(** C9 (amended): [editImage] either throws an [Error] or resolves with a
    result whose [imageUrl] is a non-null data URI; it never resolves with
    a null [imageUrl].  When the reply carries no image it throws the
    no-image error: the quoted text when the reply carried text, and
    otherwise the safety message when the finish reason is SAFETY. *)
Theorem editImage_image_or_error
    oracle generateContent prompt imageParts maskBase64 :
  let settled := editImage oracle generateContent prompt imageParts maskBase64 in
  ((exists msg, settled = Rejected (ErrorObj msg))
   \/ (exists r u, settled = Resolved r /\ imageUrl r = Some u
                   /\ is_data_uri u /\ truthy (imageUrl r) = true))
  /\ (forall r, settled = Resolved r -> imageUrl r <> None)
  /\ (forall response,
        generateContent (edit_request prompt imageParts maskBase64)
        = Resolved response ->
        truthy (imageUrl (collect_parts response)) = false ->
        settled
        = Rejected (ErrorObj (no_image_message response (collect_parts response)))
        /\ (truthy (text (collect_parts response)) = true ->
            settled
            = Rejected (ErrorObj (responded_message
                                    (interpolate (text (collect_parts response))))))
        /\ (truthy (text (collect_parts response)) = false ->
            is_safety response = true ->
            settled = Rejected (ErrorObj (safety_message response))
            /\ is_safety_message (safety_message response))).
Proof.
  intros settled.
  pose proof (editImage_cases oracle generateContent prompt imageParts maskBase64)
    as Hcases.
  fold settled in Hcases.
  split; [|split].
  - destruct Hcases as [Hrej|(r & d & Hres & Hd)]; [now left|].
    right. exists r, (data_uri d). rewrite Hd. repeat split; auto.
  - intros r Hr. destruct Hcases as [(msg & Hrej)|(r' & d & Hres & Hd)].
    + rewrite Hrej in Hr. discriminate.
    + rewrite Hres in Hr. injection Hr as <-. rewrite Hd. discriminate.
  - intros response Hcall Hnone.
    assert (Hsettled : settled
              = Rejected (ErrorObj (no_image_message response (collect_parts response)))).
    { subst settled. unfold editImage. rewrite Hcall.
      destruct (editImage_after_cases response) as [(d & _ & Hd)|(-> & _)].
      - rewrite Hd in Hnone. discriminate.
      - simpl. now rewrite refine_message_plain by apply no_image_message_plain. }
    split; [exact Hsettled|]. split.
    + intros Htext. rewrite Hsettled. unfold no_image_message. now rewrite Htext.
    + intros Htext Hsafety. split; [|reflexivity].
      rewrite Hsettled. unfold no_image_message. now rewrite Htext, Hsafety.
Qed.

Lemma editImage_image_or_error_witness :
  editImage (fun _ => Some WithoutError) (fun _ => Resolved blocked_reply)
            "make it night" [] None
  = Rejected (ErrorObj (safety_message blocked_reply))
  /\ safety_message blocked_reply
     = "The request was blocked for safety reasons. Categories: HARM_CATEGORY_DANGEROUS_CONTENT. Please modify your prompt or image.".
Proof.
  split; [|reflexivity].
  apply (editImage_image_or_error (fun _ => Some WithoutError)
           (fun _ => Resolved blocked_reply) "make it night" [] None);
    reflexivity.
Defined.

(** *** The batch *)

Lemma batch_promises_nth oracle generateContent prompt imageParts i :
  (i < 4)%nat ->
  nth_error (batch_promises oracle generateContent prompt imageParts) i
  = Some (editImage oracle (generateContent i) prompt imageParts None).
Proof.
  intros Hi. unfold batch_promises.
  do 4 (destruct i as [|i]; [reflexivity|]). lia.
Qed.

Lemma batch_promises_in oracle generateContent prompt imageParts p :
  In p (batch_promises oracle generateContent prompt imageParts) <->
  exists i, (i < 4)%nat
            /\ p = editImage oracle (generateContent i) prompt imageParts None.
Proof.
  unfold batch_promises. rewrite in_map_iff. split.
  - intros (i & <- & Hi). apply in_seq in Hi. exists i. split; [lia|reflexivity].
  - intros (i & Hi & ->). exists i. split; [reflexivity|]. apply in_seq. lia.
Qed.

(** Results that all carry a data URI pass the [!!url] filter whole. *)
Lemma image_urls_keep results :
  Forall (fun r => exists d, imageUrl r = Some (data_uri d)) results ->
  List.length (image_urls results) = List.length results
  /\ Forall is_data_uri (image_urls results).
Proof.
  induction 1 as [|r results (d & Hd) _ (IHlen & IHuri)]; [split; constructor|].
  unfold image_urls in *. simpl. rewrite Hd.
  change (truthy (Some (data_uri d))) with true. simpl. split.
  - now rewrite IHlen.
  - constructor; [reflexivity|exact IHuri].
Qed.

(** What [Promise.all] hands back when the four children resolve. *)
Lemma batch_results_shape oracle settle generateContent prompt imageParts results :
  Promise_all settle (batch_promises oracle generateContent prompt imageParts)
  = Resolved results ->
  List.length results = 4%nat
  /\ Forall (fun r => exists d, imageUrl r = Some (data_uri d)) results.
Proof.
  intros Hall. apply Promise_all_resolved in Hall. split.
  - rewrite <- (length_map (@Resolved GeneratedContent) results), Hall. reflexivity.
  - apply Forall_forall. intros r Hr.
    assert (Hin : In (Resolved r)
                    (batch_promises oracle generateContent prompt imageParts)).
    { rewrite <- Hall. now apply in_map. }
    apply batch_promises_in in Hin. destruct Hin as (i & _ & Hi).
    destruct (editImage_cases oracle (generateContent i) prompt imageParts None)
      as [(msg & Hrej)|(r' & d & Hres & Hd)].
    + rewrite Hrej in Hi. discriminate.
    + rewrite Hres in Hi. injection Hi as ->. now exists d.
Qed.

(** C8: [generateImageEditsBatch] starts exactly four [editImage] calls,
    the [i]-th answered by the [i]-th reply of the service; when it
    resolves, its result holds exactly four image URLs; it rejects exactly
    when at least one of the four calls rejects; and whenever
    [Promise.all] resolves, the filtered list has four entries, so the
    branch guarded by an empty list is never taken. *)
Theorem generateImageEditsBatch_four
    oracle settle generateContent prompt imageParts :
  let children := batch_promises oracle generateContent prompt imageParts in
  let settled :=
    generateImageEditsBatch oracle settle generateContent prompt imageParts in
  (List.length children = 4%nat
   /\ forall i, (i < 4)%nat ->
        nth_error children i
        = Some (editImage oracle (generateContent i) prompt imageParts None))
  /\ (forall imageUrls, settled = Resolved imageUrls ->
        List.length imageUrls = 4%nat /\ Forall is_data_uri imageUrls)
  /\ ((exists e, settled = Rejected e) <->
      (exists i e, (i < 4)%nat
                   /\ editImage oracle (generateContent i) prompt imageParts None
                      = Rejected e))
  /\ (forall results, Promise_all settle children = Resolved results ->
        List.length (image_urls results) = 4%nat
        /\ (List.length (image_urls results) =? 0)%nat = false).
Proof.
  intros children settled.
  assert (Hguard : forall results,
             Promise_all settle children = Resolved results ->
             List.length (image_urls results) = 4%nat
             /\ Forall is_data_uri (image_urls results)).
  { intros results Hall.
    destruct (batch_results_shape _ _ _ _ _ Hall) as (Hlen & Hshape).
    destruct (image_urls_keep Hshape) as (Hkeep & Huri).
    split; [congruence|exact Huri]. }
  split; [split|split; [|split]].
  - reflexivity.
  - intros i Hi. now apply batch_promises_nth.
  - intros imageUrls Hsettled. subst settled.
    unfold generateImageEditsBatch, batch_try in Hsettled. fold children in Hsettled.
    destruct (Promise_all settle children) as [results|e] eqn:Hall; [|discriminate].
    destruct (Hguard results eq_refl) as (Hlen & Huri).
    cbv zeta in Hsettled. rewrite Hlen in Hsettled. simpl in Hsettled.
    injection Hsettled as <-. now split.
  - split.
    + intros (e & Hsettled). subst settled.
      unfold generateImageEditsBatch, batch_try in Hsettled. fold children in Hsettled.
      destruct (Promise_all settle children) as [results|e'] eqn:Hall.
      * destruct (Hguard results eq_refl) as (Hlen & _).
        cbv zeta in Hsettled. rewrite Hlen in Hsettled. discriminate.
      * apply Promise_all_rejected in Hall. apply batch_promises_in in Hall.
        destruct Hall as (i & Hi & Heq). exists i, e'. now split.
    + intros (i & e & Hi & Hrej).
      assert (Hin : In (Rejected e) children).
      { apply batch_promises_in. exists i. now split. }
      destruct (Promise_all_child_rejects settle _ _ Hin) as (e' & Hall).
      subst settled. unfold generateImageEditsBatch, batch_try. fold children.
      rewrite Hall. eexists. reflexivity.
  - intros results Hall. destruct (Hguard results Hall) as (Hlen & _).
    split; [exact Hlen|]. now rewrite Hlen.
Qed.

Lemma generateImageEditsBatch_four_witness :
  exists imageUrls,
    generateImageEditsBatch (fun _ => None) [2; 0; 3; 1]%nat
      (fun _ _ => Resolved image_reply) "make it night" []
    = Resolved imageUrls
    /\ List.length imageUrls = 4%nat /\ Forall is_data_uri imageUrls.
Proof.
  eexists. split; [reflexivity|].
  apply (generateImageEditsBatch_four (fun _ => None) [2; 0; 3; 1]%nat
           (fun _ _ => Resolved image_reply) "make it night" []).
  reflexivity.
Defined.

End GeminiServiceFacts.

(** ** App.tsx: [applyWatermarks] *)

Module AppFacts.

Import App.

Lemma watermark_try_log embedWatermark addVisibleWatermark url :
  match watermark_try embedWatermark addVisibleWatermark url with
  | (Resolved _, log) => log = []
  | (Rejected err, log) => exists s, log = [StepThrew s err]
  end.
Proof.
  unfold watermark_try.
  destruct (embedWatermark url watermark_text) as [inv|err].
  - destruct (addVisibleWatermark inv watermark_text) as [vis|err].
    + reflexivity.
    + now exists VisibleStep.
  - now exists EmbedStep.
Qed.

Lemma applyWatermarks_settles embedWatermark addVisibleWatermark imageUrl :
  exists v, fst (applyWatermarks embedWatermark addVisibleWatermark imageUrl)
            = Resolved v.
Proof.
  unfold applyWatermarks. destruct imageUrl as [url|]; [|now exists None].
  destruct (negb (truthy (Some url))); [now exists None|].
  destruct (watermark_try embedWatermark addVisibleWatermark url) as [[vis|err] log];
    eexists; reflexivity.
Qed.

(** C1: whenever a watermarking step throws during [applyWatermarks], be it
    the invisible embed or the visible stamp, the call resolves with the
    original image URL; in terms of the two steps, for a non-empty URL on
    which the embed rejects, or on whose embedded image the stamp rejects,
    the result is the original URL.  The call never rejects, and
    [applyWatermarks(null)] resolves with [null]. *)
Theorem applyWatermarks_non_fatal embedWatermark addVisibleWatermark :
  (forall url,
      step_threw (snd (applyWatermarks embedWatermark addVisibleWatermark (Some url))) ->
      fst (applyWatermarks embedWatermark addVisibleWatermark (Some url))
      = Resolved (Some url))
  /\ (forall url err,
        truthy (Some url) = true ->
        embedWatermark url watermark_text = Rejected err
        \/ (exists inv, embedWatermark url watermark_text = Resolved inv
                        /\ addVisibleWatermark inv watermark_text = Rejected err) ->
        fst (applyWatermarks embedWatermark addVisibleWatermark (Some url))
        = Resolved (Some url)
        /\ step_threw
             (snd (applyWatermarks embedWatermark addVisibleWatermark (Some url))))
  /\ (forall imageUrl err,
        fst (applyWatermarks embedWatermark addVisibleWatermark imageUrl)
        <> Rejected err)
  /\ applyWatermarks embedWatermark addVisibleWatermark None = (Resolved None, []).
Proof.
  split; [|split; [|split]].
  - intros url (s & err & Hin). revert Hin. unfold applyWatermarks.
    destruct (negb (truthy (Some url))); [intros []|].
    pose proof (watermark_try_log embedWatermark addVisibleWatermark url) as Hlog.
    destruct (watermark_try embedWatermark addVisibleWatermark url) as [[vis|e] log].
    + subst log. intros [].
    + reflexivity.
  - intros url err Htruthy Hthrows. unfold applyWatermarks, watermark_try.
    rewrite Htruthy. simpl.
    destruct Hthrows as [Hembed|(inv & Hembed & Hvisible)].
    + rewrite Hembed. split; [reflexivity|].
      exists EmbedStep, err. now left.
    + rewrite Hembed, Hvisible. split; [reflexivity|].
      exists VisibleStep, err. now left.
  - intros imageUrl err Hrej.
    destruct (applyWatermarks_settles embedWatermark addVisibleWatermark imageUrl)
      as (v & Hv).
    rewrite Hv in Hrej. discriminate.
  - reflexivity.
Qed.

Lemma applyWatermarks_non_fatal_witness :
  step_threw (snd (applyWatermarks (fun url _ => Resolved url)
                     (fun _ _ => Rejected canvas_unavailable) (Some sample_url)))
  /\ fst (applyWatermarks (fun url _ => Resolved url)
            (fun _ _ => Rejected canvas_unavailable) (Some sample_url))
     = Resolved (Some sample_url).
Proof.
  split.
  - exists VisibleStep, canvas_unavailable. now left.
  - apply (applyWatermarks_non_fatal (fun url _ => Resolved url)
             (fun _ _ => Rejected canvas_unavailable)).
    exists VisibleStep, canvas_unavailable. now left.
Defined.

End AppFacts.

(** ** components/MultiImageGridUploader.tsx: [handleFiles] *)

Module MultiImageGridUploaderFacts.

Import MultiImageGridUploader.

Lemma readable_in files i f u :
  nth_error files i = Some f -> read f = Some u -> In u (readable files).
Proof.
  intros Hi Hu. unfold readable. apply in_flat_map. exists f. split.
  - eapply nth_error_In. exact Hi.
  - rewrite Hu. now left.
Qed.

Lemma complete_ok imageUrls filesToProcess st i :
  progress_ok imageUrls filesToProcess st ->
  progress_ok imageUrls filesToProcess (complete imageUrls filesToProcess st i).
Proof.
  intros (Hcount & Hnew & Hchanges). unfold complete.
  destruct (nth_error filesToProcess i) as [f|] eqn:Hi; [|now repeat split].
  destruct (read f) as [u|] eqn:Hu; [|now repeat split].
  assert (Hnew' : incl (newUrls st ++ [u]) (readable filesToProcess)).
  { apply incl_app; [exact Hnew|]. intros x [<-|[]]. eapply readable_in; eauto. }
  unfold onload, progress_ok. cbn [newUrls processedCount changes]. split; [|split].
  - rewrite length_app. simpl. lia.
  - exact Hnew'.
  - destruct (Nat.eqb_spec (S (processedCount st)) (List.length filesToProcess))
      as [Htotal|_]; [|exact Hchanges].
    apply Forall_app. split; [exact Hchanges|].
    constructor; [|constructor].
    exists (newUrls st ++ [u]). split; [reflexivity|]. split; [|exact Hnew'].
    rewrite length_app. simpl. lia.
Qed.

Lemma fold_complete_ok imageUrls filesToProcess completions : forall st,
  progress_ok imageUrls filesToProcess st ->
  progress_ok imageUrls filesToProcess
    (fold_left (complete imageUrls filesToProcess) completions st).
Proof.
  induction completions as [|i rest IH]; intros st Hst; [exact Hst|].
  simpl. apply IH. now apply complete_ok.
Qed.

Lemma slice0_room {A} (xs : list A) (n : Z) :
  (0 <= n)%Z -> JS.slice0 xs n = firstn (Z.to_nat n) xs.
Proof.
  intros Hn. unfold JS.slice0.
  destruct (Z.ltb_spec n 0); [lia|reflexivity].
Qed.

(** C10: when the current list is within the limit, every list handed to
    [onImagesChange] is the current list followed by at most
    [maxImages - imageUrls.length] new URLs, all read from the first that
    many offered files; its length is at most [maxImages]. *)
Theorem handleFiles_within_limit imageUrls maxImages files completions :
  (Z.of_nat (List.length imageUrls) <= maxImages)%Z ->
  forall allUrls,
    In allUrls (handleFiles imageUrls maxImages files completions) ->
    exists added,
      allUrls = imageUrls ++ added
      /\ (Z.of_nat (List.length added)
          <= maxImages - Z.of_nat (List.length imageUrls))%Z
      /\ (List.length added <= List.length files)%nat
      /\ incl added
           (readable (firstn (Z.to_nat (maxImages - Z.of_nat (List.length imageUrls)))
                             files))
      /\ (Z.of_nat (List.length allUrls) <= maxImages)%Z.
Proof.
  intros Hroom allUrls Hin. unfold handleFiles in Hin.
  rewrite slice0_room in Hin by lia.
  set (room := Z.to_nat (maxImages - Z.of_nat (List.length imageUrls))) in *.
  set (filesToProcess := firstn room files) in *.
  destruct (List.length filesToProcess =? 0)%nat; [destruct Hin|].
  assert (Hok : progress_ok imageUrls filesToProcess
                  (fold_left (complete imageUrls filesToProcess) completions
                     {| newUrls := []; processedCount := 0; changes := [] |})).
  { apply fold_complete_ok. repeat split; simpl; auto using incl_nil_l. }
  destruct Hok as (_ & _ & Hchanges).
  rewrite Forall_forall in Hchanges.
  destruct (Hchanges allUrls Hin) as (added & -> & Hlen & Hincl).
  assert (Htake : (List.length filesToProcess <= room)%nat
                  /\ (List.length filesToProcess <= List.length files)%nat).
  { unfold filesToProcess. rewrite length_firstn. lia. }
  exists added. rewrite length_app. repeat split; try exact Hincl; lia.
Qed.

Lemma handleFiles_within_limit_witness :
  handleFiles ["a"] 3
    [photo "1.png" "b"; photo "2.png" "c"; photo "3.png" "d"] [1; 0]%nat
  = [["a"; "c"; "b"]]
  /\ exists added,
      ["a"; "c"; "b"] = ["a"] ++ added
      /\ (Z.of_nat (List.length added) <= 3 - 1)%Z
      /\ (List.length added <= 3)%nat
      /\ incl added (readable (firstn 2 [photo "1.png" "b"; photo "2.png" "c";
                                         photo "3.png" "d"]))
      /\ (Z.of_nat (List.length ["a"; "c"; "b"]) <= 3)%Z.
Proof.
  split; [reflexivity|].
  apply (@handleFiles_within_limit ["a"] 3
           [photo "1.png" "b"; photo "2.png" "c"; photo "3.png" "d"] [1; 0]%nat).
  - simpl. lia.
  - now left.
Defined.

End MultiImageGridUploaderFacts.

(** ** utils/fileUtils: the watermark codec *)

Module WatermarkCodecFacts.

Import WatermarkCodec.

Local Open Scope Z_scope.

(** *** Bits and bytes *)

Lemma Z_to_bits_length n v : List.length (Z_to_bits n v) = n.
Proof. induction n as [|n IH]; simpl; [reflexivity|now rewrite IH]. Qed.

Lemma fold_bits_to_bits n v : forall acc,
  fold_left (fun a b => 2 * a + Z.b2z b) (Z_to_bits n v) acc
  = acc * 2 ^ Z.of_nat n + v mod 2 ^ Z.of_nat n.
Proof.
  induction n as [|n IH]; intros acc.
  - simpl. rewrite Z.mod_1_r. lia.
  - cbn [Z_to_bits fold_left]. rewrite IH.
    rewrite Z.testbit_spec' by lia.
    rewrite Nat2Z.inj_succ, Z.pow_succ_r by lia.
    rewrite (Z.mul_comm 2 (2 ^ Z.of_nat n)).
    rewrite (Z.rem_mul_r v (2 ^ Z.of_nat n) 2) by lia.
    lia.
Qed.

Lemma bits_to_Z_to_bits n v :
  0 <= v < 2 ^ Z.of_nat n -> bits_to_Z (Z_to_bits n v) = v.
Proof.
  intros Hv. unfold bits_to_Z. rewrite fold_bits_to_bits.
  rewrite Z.mod_small by exact Hv. lia.
Qed.


Lemma bits_of_bytes_length bytes :
  List.length (bits_of_bytes bytes) = (8 * List.length bytes)%nat.
Proof.
  induction bytes as [|b bytes IH]; [reflexivity|].
  unfold bits_of_bytes in *. cbn [flat_map]. rewrite length_app, IH, Z_to_bits_length.
  simpl List.length. lia.
Qed.

Lemma bytes_of_bits_of_bytes bytes rest :
  Forall channel_ok bytes ->
  bytes_of_bits (List.length bytes) (bits_of_bytes bytes ++ rest) = bytes.
Proof.
  induction 1 as [|b bytes Hb _ IH]; [reflexivity|].
  unfold bits_of_bytes in *. cbn [flat_map List.length bytes_of_bits].
  rewrite <- app_assoc.
  rewrite firstn_app, skipn_app, Z_to_bits_length.
  change (8 - 8)%nat with 0%nat.
  rewrite firstn_all2 by (rewrite Z_to_bits_length; lia).
  rewrite skipn_all2 by (rewrite Z_to_bits_length; lia).
  cbn [firstn skipn app]. rewrite app_nil_r, IH.
  rewrite bits_to_Z_to_bits by exact Hb. reflexivity.
Qed.

Lemma bitstream_length payload :
  Z.of_nat (List.length (bitstream payload)) = encoded_bits payload.
Proof.
  unfold bitstream, encoded_bits, payload_bytes, length_prefix, prefix_bits.
  rewrite length_app, Z_to_bits_length, bits_of_bytes_length. lia.
Qed.

(** *** UTF-8 *)

Lemma utf8_encode_char_ok c :
  scalar_value c = true -> Forall channel_ok (utf8_encode_char c).
Proof.
  unfold scalar_value, utf8_encode_char, channel_ok. intros Hc.
  assert (Hrange : 0 <= c < 1114112) by lia.
  destruct (Z.ltb_spec c 128); [|destruct (Z.ltb_spec c 2048);
                                  [|destruct (Z.ltb_spec c 65536)]];
    repeat constructor;
    try (apply Z.div_le_lower_bound; lia);
    try (apply Z.div_lt_upper_bound; lia);
    try (pose proof (Z.mod_pos_bound c 64); lia);
    try (pose proof (Z.mod_pos_bound (c / 64) 64); lia);
    try (pose proof (Z.mod_pos_bound (c / 4096) 64); lia);
    try (assert (0 <= c / 64) by (apply Z.div_pos; lia); lia);
    try (assert (0 <= c / 4096) by (apply Z.div_pos; lia); lia);
    try (assert (0 <= c / 262144) by (apply Z.div_pos; lia); lia);
    try (assert (c / 64 < 32) by (apply Z.div_lt_upper_bound; lia); lia);
    try (assert (c / 4096 < 16) by (apply Z.div_lt_upper_bound; lia); lia);
    try (assert (c / 262144 < 5) by (apply Z.div_lt_upper_bound; lia); lia).
Qed.

Lemma utf8_encode_ok payload :
  valid_text payload -> Forall channel_ok (utf8_encode payload).
Proof.
  unfold valid_text, utf8_encode.
  induction payload as [|c payload IH]; intros Hvalid; [constructor|].
  simpl in Hvalid. apply andb_true_iff in Hvalid. destruct Hvalid as (Hc & Hrest).
  cbn [flat_map]. apply Forall_app. split.
  - now apply utf8_encode_char_ok.
  - now apply IH.
Qed.

Ltac euclid := Z.div_mod_to_equations; lia.

(** Settles every comparison of the goal that arithmetic decides. *)
Ltac settle_comparisons :=
  repeat match goal with
         | |- context [?a <=? ?b] =>
             first [ rewrite (proj2 (Z.leb_le a b)) by euclid
                   | rewrite (proj2 (Z.leb_gt a b)) by euclid ]
         | |- context [?a <? ?b] =>
             first [ rewrite (proj2 (Z.ltb_lt a b)) by euclid
                   | rewrite (proj2 (Z.ltb_ge a b)) by euclid ]
         end.

Lemma utf8_decode_encode_char c rest :
  scalar_value c = true ->
  utf8_decode (utf8_encode_char c ++ rest) = cons_char c (utf8_decode rest).
Proof.
  unfold scalar_value, utf8_encode_char. intros Hc.
  assert (Hscalar : 0 <= c < 55296 \/ 57344 <= c < 1114112) by lia. clear Hc.
  destruct (Z.ltb_spec c 128); [|destruct (Z.ltb_spec c 2048);
                                  [|destruct (Z.ltb_spec c 65536)]];
    destruct Hscalar; try lia;
    cbn [app utf8_decode]; unfold continuation, scalar_value; cbv zeta;
    settle_comparisons; cbn [andb orb];
    try match goal with
        | |- context [cons_char ?e (utf8_decode rest)] =>
            lazymatch e with
            | c => fail
            | _ => replace e with c by euclid
            end
        end;
    settle_comparisons; reflexivity.
Qed.

Lemma utf8_decode_encode payload :
  valid_text payload -> utf8_decode (utf8_encode payload) = Some payload.
Proof.
  unfold valid_text, utf8_encode.
  induction payload as [|c payload IH]; intros Hvalid; [reflexivity|].
  simpl in Hvalid. apply andb_true_iff in Hvalid. destruct Hvalid as (Hc & Hrest).
  cbn [flat_map]. rewrite utf8_decode_encode_char by exact Hc.
  now rewrite IH.
Qed.

(** *** Bit slots *)

Lemma lsb_set_lsb v b : lsb (set_lsb v b) = b.
Proof.
  unfold lsb, set_lsb. rewrite Z.lor_spec, Z.land_spec.
  change (Z.testbit 254 0) with false. rewrite andb_false_r.
  destruct b; reflexivity.
Qed.

Lemma channel_enumerated v :
  channel_ok v -> In v (map Z.of_nat (seq 0 256)).
Proof.
  unfold channel_ok. intros Hv. apply in_map_iff.
  exists (Z.to_nat v). split; [lia|]. apply in_seq. lia.
Qed.

(** On an 8-bit channel, [set_lsb] keeps the upper seven bits and puts the
    given bit below them. *)
Lemma set_lsb_arith v b :
  channel_ok v -> set_lsb v b = 2 * (v / 2) + Z.b2z b.
Proof.
  intros Hv.
  assert (Hall : forallb (fun w => (set_lsb w true =? 2 * (w / 2) + 1)
                                   && (set_lsb w false =? 2 * (w / 2)))
                         (map Z.of_nat (seq 0 256)) = true)
    by (vm_compute; reflexivity).
  rewrite forallb_forall in Hall.
  specialize (Hall v (channel_enumerated Hv)).
  apply andb_true_iff in Hall. destruct Hall as (Ht & Hf).
  apply Z.eqb_eq in Ht, Hf. destruct b; cbn [Z.b2z]; lia.
Qed.

Lemma lsb_only_refl v : channel_ok v -> lsb_only v v.
Proof. intros Hv. unfold lsb_only. repeat split; try apply Hv. lia. Qed.

Lemma set_lsb_lsb_only v b : channel_ok v -> lsb_only v (set_lsb v b).
Proof.
  intros Hv. unfold lsb_only. rewrite (set_lsb_arith b Hv).
  rewrite !Z.shiftr_div_pow2 by lia. change (2 ^ 1) with 2.
  unfold channel_ok in *.
  destruct b; cbn [Z.b2z]; repeat split; euclid.
Qed.

Lemma pixel_close_refl p : pixel_ok p -> pixel_close p p.
Proof.
  intros (Hr & Hg & Hb & _). unfold pixel_close.
  auto using lsb_only_refl.
Qed.

Lemma write_bits_length bs : forall ps,
  List.length (write_bits bs ps) = List.length ps.
Proof.
  intros ps. revert bs.
  induction ps as [|p ps IH]; intros bs; [reflexivity|].
  destruct bs as [|r [|g [|b bs]]]; simpl; try reflexivity.
  now rewrite IH.
Qed.

Lemma write_bits_close ps : forall bs,
  Forall pixel_ok ps -> Forall2 pixel_close ps (write_bits bs ps).
Proof.
  induction ps as [|p ps IH]; intros bs Hok; [constructor|].
  inversion Hok as [|p' ps' Hp Hps]; subst.
  assert (Hsame : Forall2 pixel_close ps ps).
  { clear -Hps. induction Hps; constructor; auto using pixel_close_refl. }
  destruct Hp as (Hr & Hg & Hb & Ha).
  destruct bs as [|r [|g [|b bs]]]; cbn [write_bits]; constructor;
    try exact Hsame; try (apply IH; exact Hps);
    unfold pixel_close; cbn [red green blue alpha];
    auto using lsb_only_refl, set_lsb_lsb_only.
Qed.

(** Pixels past the last written slot are left as they were. *)
Lemma write_bits_beyond ps : forall bs i,
  (List.length bs <= 3 * i)%nat ->
  nth_error (write_bits bs ps) i = nth_error ps i.
Proof.
  induction ps as [|p ps IH]; intros bs i Hi; [reflexivity|].
  destruct bs as [|r [|g [|b bs]]]; cbn [write_bits]; try reflexivity;
    (destruct i as [|i]; [simpl in Hi; lia|]); cbn [nth_error]; try reflexivity.
  apply IH. simpl in Hi. lia.
Qed.

Lemma lsb_stream_length ps :
  List.length (lsb_stream ps) = (3 * List.length ps)%nat.
Proof.
  induction ps as [|p ps IH]; [reflexivity|].
  unfold lsb_stream in *. cbn [flat_map]. rewrite length_app, IH. simpl. lia.
Qed.

(** After writing, the slot stream starts with the written bits. *)
Lemma lsb_stream_write_bits ps : forall bs,
  (List.length bs <= 3 * List.length ps)%nat ->
  lsb_stream (write_bits bs ps) = bs ++ skipn (List.length bs) (lsb_stream ps).
Proof.
  induction ps as [|p ps IH]; intros bs Hlen.
  - destruct bs; [reflexivity|simpl in Hlen; lia].
  - destruct bs as [|r [|g [|b bs]]]; cbn [write_bits]; try reflexivity.
    + unfold lsb_stream. cbn [flat_map red green blue app List.length skipn].
      now rewrite lsb_set_lsb.
    + unfold lsb_stream. cbn [flat_map red green blue app List.length skipn].
      now rewrite !lsb_set_lsb.
    + change (lsb_stream (?q :: ?qs))
        with ([lsb (red q); lsb (green q); lsb (blue q)] ++ lsb_stream qs).
      cbn [red green blue app List.length skipn].
      rewrite !lsb_set_lsb, IH by (simpl in Hlen; lia). reflexivity.
Qed.

Lemma read_bits_some from count ps :
  (from + count <= 3 * List.length ps)%nat ->
  read_bits from count ps = Some (firstn count (skipn from (lsb_stream ps))).
Proof.
  intros Hroom. unfold read_bits.
  rewrite length_firstn, length_skipn, lsb_stream_length.
  replace (Nat.min count (3 * List.length ps - from)) with count by lia.
  now rewrite Nat.eqb_refl.
Qed.

(** *** Sample buffers *)

Lemma solid_well_formed w h p : pixel_ok p -> well_formed (solid w h p).
Proof.
  intros Hp. split; cbn [solid pixels width height].
  - apply repeat_length.
  - apply Forall_forall. intros q Hq. apply repeat_spec in Hq. now subst q.
Qed.

Lemma black_ok : pixel_ok black.
Proof. unfold pixel_ok, channel_ok, black; cbn; lia. Qed.

Lemma white_ok : pixel_ok white.
Proof. unfold pixel_ok, channel_ok, white; cbn; lia. Qed.

Lemma Forall2_nth_error {A B} (R : A -> B -> Prop) xs ys :
  Forall2 R xs ys ->
  forall i x y, nth_error xs i = Some x -> nth_error ys i = Some y -> R x y.
Proof.
  induction 1 as [|x0 y0 xs ys Hxy _ IH]; intros i x y Hx Hy.
  - destruct i; discriminate.
  - destruct i as [|i]; cbn [nth_error] in Hx, Hy.
    + injection Hx as <-. injection Hy as <-. exact Hxy.
    + eapply IH; eassumption.
Qed.

Lemma capacity_slots img :
  well_formed img -> capacity img = Z.of_nat (3 * List.length (pixels img)).
Proof.
  intros (Hlen & _). unfold capacity, pixel_count. rewrite Hlen. lia.
Qed.

(** *** Embedding *)

Lemma embedInvisible_cases img payload :
  (capacity img < encoded_bits payload
   /\ embedInvisible img payload = CapacityExceeded)
  \/ (encoded_bits payload <= capacity img
      /\ embedInvisible img payload
         = Embedded {| width := width img; height := height img;
                       pixels := write_bits (bitstream payload) (pixels img) |}).
Proof.
  unfold embedInvisible.
  destruct (Z.ltb_spec (capacity img) (encoded_bits payload)); [left|right];
    now split.
Qed.

Lemma written_stream img payload :
  well_formed img -> encoded_bits payload <= capacity img ->
  lsb_stream (write_bits (bitstream payload) (pixels img))
  = bitstream payload
      ++ skipn (List.length (bitstream payload)) (lsb_stream (pixels img)).
Proof.
  intros Hwf Hfits. apply lsb_stream_write_bits.
  rewrite (capacity_slots Hwf), <- bitstream_length in Hfits. lia.
Qed.

Lemma payload_bytes_nonneg payload : 0 <= payload_bytes payload.
Proof. unfold payload_bytes. lia. Qed.

(** C2: for a well-formed image and a non-empty payload of valid text whose
    encoded bit length (the 32-bit prefix plus the UTF-8 bits) is at most
    the image's capacity, embedding succeeds and decoding the result gives
    the payload back. *)
Theorem decodeInvisible_embedInvisible img payload :
  well_formed img -> valid_payload payload -> payload <> [] ->
  encoded_bits payload <= capacity img ->
  exists out,
    embedInvisible img payload = Embedded out
    /\ decodeInvisible out = Found payload.
Proof.
  intros Hwf (Hvalid & Hbound) _ Hfits.
  destruct (embedInvisible_cases img payload) as [(Hover & _)|(_ & Hout)]; [lia|].
  eexists. split; [exact Hout|].
  pose proof (payload_bytes_nonneg payload) as Hnonneg.
  pose proof (written_stream payload Hwf Hfits) as Hstream.
  pose proof (capacity_slots Hwf) as Hslots.
  pose proof (bitstream_length payload) as Hbits.
  assert (Hroom : (List.length (bitstream payload)
                   <= 3 * List.length (write_bits (bitstream payload) (pixels img)))%nat)
    by (rewrite write_bits_length; lia).
  assert (Hpb : prefix_bits = 32%nat) by reflexivity.
  unfold decodeInvisible, declared_length. cbn [pixels].
  change (capacity {| width := width img; height := height img;
                      pixels := write_bits (bitstream payload) (pixels img) |})
    with (capacity img).
  unfold encoded_bits in Hfits, Hbits.
  destruct (Z.ltb_spec (capacity img) 32) as [Hsmall|_]; [lia|].
  assert (Hprefix : List.length (length_prefix (payload_bytes payload)) = prefix_bits)
    by apply Z_to_bits_length.
  assert (Hbody : List.length (bits_of_bytes (utf8_encode payload))
                  = Z.to_nat (8 * payload_bytes payload)).
  { rewrite bits_of_bytes_length. unfold payload_bytes. lia. }
  rewrite read_bits_some by lia.
  rewrite Hstream, skipn_O. unfold bitstream at 1.
  rewrite <- app_assoc, firstn_app, Hprefix, Nat.sub_diag, firstn_O, app_nil_r.
  rewrite firstn_all2 by lia.
  assert (Hdeclared : bits_to_Z (length_prefix (payload_bytes payload))
                      = payload_bytes payload).
  { unfold length_prefix. apply bits_to_Z_to_bits. rewrite Hpb. lia. }
  cbn [option_map]. rewrite !Hdeclared.
  destruct (Z.ltb_spec (capacity img) (32 + 8 * payload_bytes payload)); [lia|].
  rewrite read_bits_some by lia.
  rewrite Hstream. unfold bitstream at 1.
  rewrite <- app_assoc, skipn_app, Hprefix, Nat.sub_diag, skipn_O.
  rewrite skipn_all2 by lia. rewrite app_nil_l.
  rewrite firstn_app, <- Hbody, Nat.sub_diag, firstn_O, app_nil_r.
  rewrite firstn_all2 by lia.
  replace (Z.to_nat (payload_bytes payload))
    with (List.length (utf8_encode payload)) by (unfold payload_bytes; lia).
  rewrite <- (app_nil_r (bits_of_bytes (utf8_encode payload))).
  rewrite bytes_of_bits_of_bytes by (now apply utf8_encode_ok).
  now rewrite utf8_decode_encode.
Qed.

Lemma decodeInvisible_embedInvisible_witness :
  exists out,
    embedInvisible (solid 6 4 black) (text_of_string "hello") = Embedded out
    /\ decodeInvisible out = Found (text_of_string "hello").
Proof.
  apply decodeInvisible_embedInvisible.
  - apply solid_well_formed, black_ok.
  - split; [reflexivity|]. vm_compute. reflexivity.
  - discriminate.
  - vm_compute. discriminate.
Defined.

(** C3: embedding fails with Capacity Exceeded exactly when the prefix bits
    plus the payload bits exceed three times the pixel count; otherwise it
    succeeds and the whole bitstream is in the output, nothing truncated.
    A payload whose bit length equals the capacity succeeds, one bit over
    fails; and on a 2x2 image (capacity 12) the payload hello (32 + 40
    bits) fails with Capacity Exceeded. *)
Theorem embedInvisible_capacity img payload :
  well_formed img ->
  (embedInvisible img payload = CapacityExceeded
   <-> 3 * pixel_count img < 32 + 8 * payload_bytes payload)
  /\ (encoded_bits payload <= capacity img ->
      exists out,
        embedInvisible img payload = Embedded out
        /\ firstn (List.length (bitstream payload)) (lsb_stream (pixels out))
           = bitstream payload
        /\ Z.of_nat (List.length (bitstream payload)) = encoded_bits payload)
  /\ (encoded_bits payload = capacity img ->
      exists out, embedInvisible img payload = Embedded out)
  /\ (encoded_bits payload = capacity img + 1 ->
      embedInvisible img payload = CapacityExceeded)
  /\ (forall ps,
        capacity {| width := 2; height := 2; pixels := ps |} = 12
        /\ encoded_bits (text_of_string "hello") = 32 + 40
        /\ embedInvisible {| width := 2; height := 2; pixels := ps |}
                          (text_of_string "hello")
           = CapacityExceeded).
Proof.
  intros Hwf.
  fold (capacity img). fold (encoded_bits payload).
  destruct (embedInvisible_cases img payload) as [(Hover & Hres)|(Hfits & Hres)];
    rewrite Hres.
  - split; [split; [intros _; exact Hover|reflexivity]|].
    split; [intros; lia|]. split; [intros; lia|]. split; [reflexivity|].
    intros ps. repeat split.
  - split; [split; [discriminate|intros; lia]|].
    split; [|split; [|split]].
    + intros _. eexists. split; [reflexivity|]. cbn [pixels]. split.
      * rewrite (written_stream payload Hwf Hfits).
        rewrite firstn_app, Nat.sub_diag, firstn_O, app_nil_r.
        apply firstn_all2. lia.
      * apply bitstream_length.
    + intros _. eexists. reflexivity.
    + intros; lia.
    + intros ps. repeat split.
Qed.

Lemma embedInvisible_capacity_witness :
  (exists out, embedInvisible (solid 4 4 black) (text_of_string "hi") = Embedded out)
  /\ embedInvisible (solid 13 1 black) (text_of_string "h") = CapacityExceeded.
Proof.
  split.
  - apply (embedInvisible_capacity (text_of_string "hi")
             (solid_well_formed 4 4 black_ok)).
    reflexivity.
  - apply (embedInvisible_capacity (text_of_string "h")
             (solid_well_formed 13 1 black_ok)).
    reflexivity.
Defined.

(** *** Decoding *)





















(** *** The frame of embedding *)

(** C5: when embedding succeeds on a well-formed image, the output has the
    same dimensions, and every pixel differs from the input pixel at most
    in the lowest bit of its red, green and blue channels: each of them
    changes by at most 1 and keeps its upper bits, and alpha is unchanged.
    Pixels past the last written slot are untouched. *)
Theorem embedInvisible_frame img payload out :
  well_formed img ->
  embedInvisible img payload = Embedded out ->
  width out = width img /\ height out = height img
  /\ List.length (pixels out) = List.length (pixels img)
  /\ (forall i p q,
        nth_error (pixels img) i = Some p ->
        nth_error (pixels out) i = Some q ->
        alpha q = alpha p
        /\ Z.abs (red q - red p) <= 1 /\ Z.shiftr (red q) 1 = Z.shiftr (red p) 1
        /\ Z.abs (green q - green p) <= 1
        /\ Z.shiftr (green q) 1 = Z.shiftr (green p) 1
        /\ Z.abs (blue q - blue p) <= 1
        /\ Z.shiftr (blue q) 1 = Z.shiftr (blue p) 1
        /\ pixel_ok q)
  /\ (forall i, encoded_bits payload <= 3 * Z.of_nat i ->
                nth_error (pixels out) i = nth_error (pixels img) i).
Proof.
  intros Hwf Hout.
  destruct (embedInvisible_cases img payload) as [(_ & Hres)|(_ & Hres)];
    rewrite Hres in Hout; [discriminate|].
  injection Hout as <-. cbn [width height pixels].
  split; [reflexivity|]. split; [reflexivity|].
  split; [apply write_bits_length|]. split.
  - intros i p q Hp Hq.
    pose proof (write_bits_close (bitstream payload) (proj2 Hwf)) as Hclose.
    destruct (Forall2_nth_error Hclose i Hp Hq)
      as (Ha & (Hr1 & Hr2 & Hr3) & (Hg1 & Hg2 & Hg3) & (Hb1 & Hb2 & Hb3)).
    assert (Hpok : pixel_ok p).
    { pose proof (proj2 Hwf) as Hall. rewrite Forall_forall in Hall.
      apply Hall. eapply nth_error_In. exact Hp. }
    repeat split; try assumption; try apply Hr3; try apply Hg3; try apply Hb3;
      rewrite Ha; apply Hpok.
  - intros i Hi. apply write_bits_beyond.
    rewrite <- bitstream_length in Hi. lia.
Qed.

Lemma embedInvisible_frame_witness :
  exists out,
    embedInvisible (solid 6 4 white) (text_of_string "hello") = Embedded out
    /\ width out = 6%nat /\ height out = 4%nat
    /\ nth_error (pixels out) 0
       = Some {| red := 254; green := 254; blue := 254; alpha := 255 |}
    /\ Z.abs (254 - red white) <= 1.
Proof.
  eexists. split; [reflexivity|].
  pose proof (@embedInvisible_frame (solid 6 4 white) (text_of_string "hello") _
                (solid_well_formed 6 4 white_ok) eq_refl)
    as (Hw & Hh & _ & Hclose & _).
  split; [exact Hw|]. split; [exact Hh|]. split; [reflexivity|].
  exact (proj1 (proj2 (Hclose 0%nat white _ eq_refl eq_refl))).
Defined.

(** *** The visible stamp *)

















End WatermarkCodecFacts.

(** ** services/geminiService: requests, replies and errors *)

Module GeminiRequestFacts.

Import GeminiService ReplyNotions GeminiServiceFacts PromiseFacts.

(** X1: without a usable mask the request is every image in order followed
    by the prompt as given; with a non-empty mask the mask part comes right
    after the primary image (first when there is no image) and the prompt is
    replaced by the masked instruction. *)
Theorem request_parts_shape prompt imageParts maskBase64 :
  (truthy maskBase64 = false ->
   request_parts prompt imageParts maskBase64
   = map inline_of imageParts ++ [TextPart prompt])
  /\ (forall m, maskBase64 = Some m -> truthy maskBase64 = true ->
        request_parts prompt imageParts maskBase64
        = map inline_of (firstn 1 imageParts)
            ++ [InlinePart m "image/png"]
            ++ map inline_of (skipn 1 imageParts)
            ++ [TextPart (masked_prompt prompt)]).
Proof.
  unfold request_parts. split.
  - intros Hmask. rewrite Hmask.
    destruct maskBase64 as [m|]; destruct imageParts as [|p [|q rest]]; reflexivity.
  - intros m -> Hmask. rewrite Hmask.
    destruct imageParts as [|p [|q rest]]; reflexivity.
Qed.

Lemma request_parts_shape_witness :
  request_parts "make it night"
    [ {| base64 := "AAAA"; mimeType := "image/png" |};
      {| base64 := "BBBB"; mimeType := "image/jpeg" |} ] (Some "MASK")
  = [ InlinePart "AAAA" "image/png"; InlinePart "MASK" "image/png";
      InlinePart "BBBB" "image/jpeg"; TextPart (masked_prompt "make it night") ]
  /\ request_parts "make it night"
       [ {| base64 := "AAAA"; mimeType := "image/png" |} ] (Some EmptyString)
     = [ InlinePart "AAAA" "image/png"; TextPart "make it night" ].
Proof.
  split.
  - apply (proj2 (request_parts_shape "make it night"
                    [ {| base64 := "AAAA"; mimeType := "image/png" |};
                      {| base64 := "BBBB"; mimeType := "image/jpeg" |} ]
                    (Some "MASK")) "MASK" eq_refl eq_refl).
  - apply (proj1 (request_parts_shape "make it night"
                    [ {| base64 := "AAAA"; mimeType := "image/png" |} ]
                    (Some EmptyString)) eq_refl).
Defined.

Lemma string_app_assoc (a b c : string) :
  ((a ++ b) ++ c = a ++ (b ++ c))%string.
Proof. induction a as [|x a IH]; [reflexivity|]. simpl. now rewrite IH. Qed.

Lemma append_nonempty a b : a <> EmptyString -> (a ++ b)%string <> EmptyString.
Proof. destruct a; [congruence|discriminate]. Qed.

Lemma truthy_nonempty s : truthy (Some s) = true <-> s <> EmptyString.
Proof.
  unfold truthy. destruct (String.eqb_spec s EmptyString); simpl; split;
    congruence.
Qed.

Lemma concat_snoc texts t :
  texts <> [] ->
  String.concat newline (texts ++ [t])
  = (String.concat newline texts ++ newline ++ t)%string.
Proof.
  induction texts as [|a rest IH]; [congruence|]. intros _.
  destruct rest as [|b rest]; [reflexivity|].
  change ((a :: b :: rest) ++ [t]) with (a :: (b :: rest) ++ [t]).
  change (String.concat newline (a :: (b :: rest) ++ [t]))
    with (a ++ newline ++ String.concat newline ((b :: rest) ++ [t]))%string.
  rewrite IH by discriminate.
  change (String.concat newline (a :: b :: rest))
    with (a ++ newline ++ String.concat newline (b :: rest))%string.
  now rewrite !string_app_assoc.
Qed.

Lemma joined_truthy texts :
  Forall (fun t => t <> EmptyString) texts ->
  truthy (joined texts) = negb (match texts with [] => true | _ => false end).
Proof.
  intros Hall. destruct texts as [|a rest]; [reflexivity|].
  inversion Hall as [|a' rest' Ha _]; subst.
  unfold joined. apply truthy_nonempty.
  destruct rest; [exact Ha|]. now apply append_nonempty.
Qed.

Lemma last_of_snoc {A} (xs : list A) x : last_of (xs ++ [x]) = Some x.
Proof. unfold last_of. now rewrite rev_app_distr. Qed.

(** The state of the loop after a prefix of the parts. *)
Lemma fold_absorb_result ps : forall seen,
  fold_left absorb_part ps
    {| imageUrl := option_map data_uri (last_of (shown seen));
       text := joined (said seen) |}
  = {| imageUrl := option_map data_uri (last_of (shown (seen ++ ps)));
       text := joined (said (seen ++ ps)) |}.
Proof.
  induction ps as [|p ps IH]; intros seen; [now rewrite app_nil_r|].
  replace (seen ++ p :: ps) with ((seen ++ [p]) ++ ps)
    by now rewrite <- app_assoc.
  rewrite <- IH. cbn [fold_left]. f_equal.
  assert (Hsaid : Forall (fun t => t <> EmptyString) (said seen)).
  { unfold said. apply Forall_forall. intros t Ht.
    apply in_flat_map in Ht. destruct Ht as (q & _ & Hq).
    destruct (truthy (part_text q)) eqn:Htq; [|destruct Hq].
    destruct Hq as [<-|[]]. destruct (part_text q) as [s|]; [|discriminate].
    now apply truthy_nonempty. }
  unfold absorb_part, said, shown. rewrite !flat_map_app. cbn [flat_map].
  fold (said seen). fold (shown seen). cbn [imageUrl text].
  destruct (truthy (part_text p)) eqn:Hp.
  - rewrite !app_nil_r. f_equal. rewrite (joined_truthy Hsaid).
    destruct (said seen) as [|a rest] eqn:Hseen; [reflexivity|].
    cbn [negb]. unfold joined at 2.
    destruct ((a :: rest) ++ [interpolate (part_text p)]) eqn:Happ;
      [destruct rest; discriminate|].
    rewrite <- Happ, concat_snoc by discriminate.
    unfold joined, interpolate at 1. now rewrite string_app_assoc.
  - rewrite !app_nil_r. destruct (part_inlineData p) as [d|].
    + now rewrite last_of_snoc.
    + now rewrite !app_nil_r.
Qed.

(** X2: of the parts of a reply, [editImage] keeps the texts of all text
    parts, in order and joined by line feeds, and the image of the last
    inline part; a part that has both text and inline data counts as
    text. *)
Theorem collect_parts_result response ps :
  response_parts response = Some ps ->
  text (collect_parts response) = joined (said ps)
  /\ imageUrl (collect_parts response)
     = option_map data_uri (last_of (shown ps)).
Proof.
  intros Hps. unfold collect_parts. rewrite Hps.
  pose proof (fold_absorb_result ps []) as Hfold.
  cbn [app said shown flat_map joined last_of rev option_map] in Hfold.
  rewrite Hfold. split; reflexivity.
Qed.

Lemma collect_parts_result_witness :
  text (collect_parts two_texts_one_image)
  = Some ("Here you go." ++ newline ++ "Enjoy!")%string
  /\ imageUrl (collect_parts two_texts_one_image)
     = Some "data:image/jpeg;base64,BBBB".
Proof.
  apply (@collect_parts_result two_texts_one_image _ eq_refl).
Defined.

(** X3: whatever the service call throws, [editImage] rejects with an
    [Error].  For a thrown [Error] the message is passed on unchanged when
    [JSON.parse] throws on it (in particular when it does not open like
    JSON) or yields a value without [error.message]; a parsed API error
    gives the rate-limit text for status RESOURCE_EXHAUSTED (also when its
    code is 500), else the server-error text for code 500 or status
    UNKNOWN, else its own message.  A thrown value that is not an [Error]
    gives the unknown-error text. *)
Theorem editImage_api_errors oracle generateContent prompt imageParts maskBase64 :
  let call := generateContent (edit_request prompt imageParts maskBase64) in
  let settled := editImage oracle generateContent prompt imageParts maskBase64 in
  (forall e, call = Rejected e -> exists msg, settled = Rejected (ErrorObj msg))
  /\ (forall m,
        call = Rejected (ErrorObj m) ->
        (json_opening m = false -> settled = Rejected (ErrorObj m))
        /\ (JSON_parse oracle m = None -> settled = Rejected (ErrorObj m))
        /\ (JSON_parse oracle m = Some WithoutError ->
            settled = Rejected (ErrorObj m))
        /\ (forall body,
              JSON_parse oracle m = Some (WithError body) ->
              (truthy (err_message body) = false ->
               settled = Rejected (ErrorObj m))
              /\ (truthy (err_message body) = true ->
                  (err_status body = Some "RESOURCE_EXHAUSTED" ->
                   settled = Rejected (ErrorObj rate_limit_message))
                  /\ (err_status body <> Some "RESOURCE_EXHAUSTED" ->
                      err_code body = Some 500%Z
                      \/ err_status body = Some "UNKNOWN" ->
                      settled = Rejected (ErrorObj server_error_message))
                  /\ (err_status body <> Some "RESOURCE_EXHAUSTED" ->
                      err_code body <> Some 500%Z ->
                      err_status body <> Some "UNKNOWN" ->
                      exists own,
                        err_message body = Some own
                        /\ settled = Rejected (ErrorObj own)))))
  /\ (forall v,
        call = Rejected (NonError v) ->
        settled = Rejected (ErrorObj unknown_api_message)).
Proof.
  cbv zeta. split; [|split].
  - intros e Hcall. unfold editImage. rewrite Hcall.
    destruct e as [m|v]; cbn [editImage_catch]; eexists; reflexivity.
  - intros m Hcall.
    assert (Hsettled : editImage oracle generateContent prompt imageParts maskBase64
                       = Rejected (ErrorObj (refine_message oracle m)))
      by (unfold editImage; now rewrite Hcall).
    rewrite Hsettled. unfold refine_message.
    split; [|split; [|split]].
    + intros Hplain. unfold JSON_parse. now rewrite Hplain.
    + now intros ->.
    + now intros ->.
    + intros body ->. split; [now intros ->|]. intros Hmsg. rewrite Hmsg.
      split; [|split].
      * now intros ->.
      * intros Hstatus Hserver.
        destruct (err_status body) as [status|].
        -- destruct (String.eqb_spec status "RESOURCE_EXHAUSTED") as [->|_];
             [now elim Hstatus|].
           destruct Hserver as [->|Hunknown]; [reflexivity|].
           injection Hunknown as ->. now rewrite orb_true_r.
        -- destruct Hserver as [->|Hunknown]; [reflexivity|discriminate].
      * intros Hstatus Hcode Hunknown.
        destruct (err_message body) as [own|]; [|discriminate].
        exists own. split; [reflexivity|].
        assert (Hs : match err_status body with
                     | Some s => String.eqb s "RESOURCE_EXHAUSTED"
                     | None => false
                     end = false).
        { destruct (err_status body) as [status|]; [|reflexivity].
          destruct (String.eqb_spec status "RESOURCE_EXHAUSTED") as [->|_];
            [now elim Hstatus|reflexivity]. }
        assert (Hc : match err_code body with
                     | Some c => (c =? 500)%Z
                     | None => false
                     end = false).
        { destruct (err_code body) as [c|]; [|reflexivity].
          destruct (Z.eqb_spec c 500) as [->|_];
            [now elim Hcode|reflexivity]. }
        assert (Hu : match err_status body with
                     | Some s => String.eqb s "UNKNOWN"
                     | None => false
                     end = false).
        { destruct (err_status body) as [status|]; [|reflexivity].
          destruct (String.eqb_spec status "UNKNOWN") as [->|_];
            [now elim Hunknown|reflexivity]. }
        now rewrite Hs, Hc, Hu.
  - intros v Hcall. unfold editImage. now rewrite Hcall.
Qed.

Lemma editImage_api_errors_witness :
  editImage quota_parser (fun _ => Rejected (ErrorObj quota_json))
            "make it night" [] None
  = Rejected (ErrorObj rate_limit_message)
  /\ editImage quota_parser (fun _ => Rejected (ErrorObj "Failed to fetch"))
               "make it night" [] None
     = Rejected (ErrorObj "Failed to fetch")
  /\ editImage quota_parser (fun _ => Rejected (ErrorObj "503 Service Unavailable"))
               "make it night" [] None
     = Rejected (ErrorObj "503 Service Unavailable").
Proof.
  split; [|split].
  - destruct (editImage_api_errors quota_parser
                (fun _ => Rejected (ErrorObj quota_json))
                "make it night" [] None) as (_ & Herror & _).
    destruct (Herror quota_json eq_refl) as (_ & _ & _ & Hparsed).
    destruct (Hparsed quota_error eq_refl) as (_ & Hmessage).
    destruct (Hmessage eq_refl) as (Hquota & _).
    exact (Hquota eq_refl).
  - destruct (editImage_api_errors quota_parser
                (fun _ => Rejected (ErrorObj "Failed to fetch"))
                "make it night" [] None) as (_ & Herror & _).
    destruct (Herror "Failed to fetch" eq_refl) as (Hplain & _).
    exact (Hplain eq_refl).
  - destruct (editImage_api_errors quota_parser
                (fun _ => Rejected (ErrorObj "503 Service Unavailable"))
                "make it night" [] None) as (_ & Herror & _).
    destruct (Herror "503 Service Unavailable" eq_refl) as (_ & Hthrows & _).
    exact (Hthrows eq_refl).
Defined.

End GeminiRequestFacts.

(** ** services/geminiService: the batch, text-to-image and video *)

Module GeminiBatchFacts.

Import GeminiService GeminiServiceFacts PromiseFacts ServiceSamples.

Lemma image_urls_map results :
  Forall (fun r => exists d, imageUrl r = Some (data_uri d)) results ->
  map Some (image_urls results) = map imageUrl results.
Proof.
  induction 1 as [|r results (d & Hd) _ IH]; [reflexivity|].
  unfold image_urls in *. cbn [map flat_map]. rewrite Hd.
  change (truthy (Some (data_uri d))) with true. cbn [app map].
  now rewrite IH.
Qed.

(** X4: when the batch resolves, its [i]-th URL is the image of the [i]-th
    [editImage] call, in whatever order the four calls settled. *)
Theorem generateImageEditsBatch_call_order
    oracle settle generateContent prompt imageParts imageUrls :
  generateImageEditsBatch oracle settle generateContent prompt imageParts
  = Resolved imageUrls ->
  forall i, (i < 4)%nat ->
    exists r u,
      editImage oracle (generateContent i) prompt imageParts None = Resolved r
      /\ imageUrl r = Some u
      /\ nth_error imageUrls i = Some u.
Proof.
  intros Hbatch i Hi.
  unfold generateImageEditsBatch, batch_try in Hbatch.
  destruct (Promise_all settle (batch_promises oracle generateContent prompt imageParts))
    as [results|e] eqn:Hall; [|discriminate].
  destruct (batch_results_shape _ _ _ _ _ Hall) as (Hlen & Hshape).
  destruct (image_urls_keep Hshape) as (Hkeep & _).
  cbv zeta in Hbatch. rewrite Hkeep, Hlen in Hbatch. cbn [Nat.eqb] in Hbatch.
  injection Hbatch as <-.
  pose proof (Promise_all_resolved _ _ Hall) as Hmap.
  pose proof (batch_promises_nth oracle generateContent prompt imageParts Hi) as Hnth.
  rewrite <- Hmap, nth_error_map in Hnth.
  destruct (nth_error results i) as [r|] eqn:Hr; [|discriminate].
  injection Hnth as Hchild.
  pose proof (image_urls_map Hshape) as Hurls.
  assert (Hu : nth_error (map Some (image_urls results)) i = Some (imageUrl r))
    by (rewrite Hurls, nth_error_map, Hr; reflexivity).
  rewrite nth_error_map in Hu.
  destruct (nth_error (image_urls results) i) as [u|]; [|discriminate].
  injection Hu as Hu. exists r, u. now repeat split.
Qed.

Lemma generateImageEditsBatch_call_order_witness :
  exists r u,
    editImage (fun _ => None) (fun _ => Resolved image_reply) "make it night" [] None
    = Resolved r
    /\ imageUrl r = Some u
    /\ nth_error [ "data:image/png;base64,iVBORw0KGgo=";
                   "data:image/png;base64,iVBORw0KGgo=";
                   "data:image/png;base64,iVBORw0KGgo=";
                   "data:image/png;base64,iVBORw0KGgo=" ] 2 = Some u.
Proof.
  apply (@generateImageEditsBatch_call_order (fun _ => None) [3; 1; 0; 2]%nat
           (fun _ _ => Resolved image_reply) "make it night" [] _ eq_refl 2%nat).
  lia.
Defined.

Lemma first_rejection_skip {A} (ps : list (outcome A)) pre rest :
  (forall j, In j pre -> forall e, nth_error ps j <> Some (Rejected e)) ->
  first_rejection ps (pre ++ rest) = first_rejection ps rest.
Proof.
  induction pre as [|j pre IH]; intros Hpre; [reflexivity|].
  cbn [app first_rejection].
  destruct (nth_error ps j) as [[a|e]|] eqn:Hj.
  - apply IH. intros k Hk. apply Hpre. now right.
  - exfalso. apply (Hpre j (or_introl eq_refl) e). exact Hj.
  - apply IH. intros k Hk. apply Hpre. now right.
Qed.

(** X5: when the batch rejects, it rejects with the very error of one of
    its failed [editImage] calls, namely of the failed call that settled
    first: a call that rejects after only successful calls have settled
    decides the error of the batch. *)
Theorem generateImageEditsBatch_child_error
    oracle settle generateContent prompt imageParts :
  (forall e,
      generateImageEditsBatch oracle settle generateContent prompt imageParts
      = Rejected e ->
      exists i, (i < 4)%nat
                /\ editImage oracle (generateContent i) prompt imageParts None
                   = Rejected e)
  /\ (forall earlier i later e,
        settle = earlier ++ i :: later ->
        (i < 4)%nat ->
        (forall j, In j earlier ->
                   forall e', editImage oracle (generateContent j) prompt imageParts None
                              <> Rejected e') ->
        editImage oracle (generateContent i) prompt imageParts None = Rejected e ->
        generateImageEditsBatch oracle settle generateContent prompt imageParts
        = Rejected e).
Proof.
  split.
  - intros e Hbatch. unfold generateImageEditsBatch, batch_try in Hbatch.
    destruct (Promise_all settle (batch_promises oracle generateContent prompt imageParts))
      as [results|e'] eqn:Hall.
    + destruct (batch_results_shape _ _ _ _ _ Hall) as (Hlen & Hshape).
      destruct (image_urls_keep Hshape) as (Hkeep & _).
      cbv zeta in Hbatch. rewrite Hkeep, Hlen in Hbatch. discriminate.
    + apply Promise_all_rejected in Hall. apply batch_promises_in in Hall.
      destruct Hall as (i & Hi & Hchild). exists i. split; [exact Hi|].
      destruct (editImage_cases oracle (generateContent i) prompt imageParts None)
        as [(msg & Hrej)|(r & d & Hres & _)].
      * rewrite Hrej in Hchild. injection Hchild as ->.
        injection Hbatch as <-. exact Hrej.
      * rewrite Hres in Hchild. discriminate.
  - intros earlier i later e -> Hi Hearlier Hchild.
    assert (Hfirst : first_rejection
                       (batch_promises oracle generateContent prompt imageParts)
                       ((earlier ++ i :: later)
                          ++ seq 0 (List.length
                                      (batch_promises oracle generateContent
                                         prompt imageParts)))
                     = Some e).
    { rewrite <- app_assoc. rewrite first_rejection_skip.
      - cbn [app first_rejection]. rewrite batch_promises_nth by exact Hi.
        now rewrite Hchild.
      - intros j Hj e' Hnth.
        assert (Hin : In (Rejected e')
                        (batch_promises oracle generateContent prompt imageParts))
          by (eapply nth_error_In; exact Hnth).
        apply batch_promises_in in Hin. destruct Hin as (k & Hk & Heq).
        assert (j < 4)%nat.
        { assert (Hlt : (j < List.length
                                (batch_promises oracle generateContent
                                   prompt imageParts))%nat)
            by (apply nth_error_Some; rewrite Hnth; discriminate).
          exact Hlt. }
        rewrite batch_promises_nth in Hnth by assumption.
        injection Hnth as Hnth. exact (Hearlier j Hj e' Hnth). }
    unfold generateImageEditsBatch, batch_try, Promise_all. rewrite Hfirst.
    destruct (editImage_cases oracle (generateContent i) prompt imageParts None)
      as [(msg & Hrej)|(r & d & Hres & _)].
    + rewrite Hrej in Hchild. injection Hchild as <-. reflexivity.
    + rewrite Hres in Hchild. discriminate.
Qed.

Lemma generateImageEditsBatch_child_error_witness :
  generateImageEditsBatch (fun _ => None) [0; 1; 2; 3]%nat second_fails
    "make it night" []
  = Rejected quota_reached.
Proof.
  apply (proj2 (generateImageEditsBatch_child_error (fun _ => None) [0; 1; 2; 3]%nat
                  second_fails "make it night" [])
           [0]%nat 1%nat [2; 3]%nat quota_reached eq_refl).
  - lia.
  - intros j [<-|[]] e'. discriminate.
  - reflexivity.
Defined.

End GeminiBatchFacts.

Module GenerationFacts.

Import GeminiService GeminiServiceFacts TextToImage VideoGeneration ServiceSamples.

Lemma no_image_returned_plain : json_opening no_image_returned = false.
Proof. reflexivity. Qed.

(** X6: [generateImageFromText] either rejects with an [Error] or resolves
    with a null text and an image URL that is a PNG data URI, never a null
    image; a reply whose list of generated images is missing or empty is
    rejected with the did-not-return-an-image message. *)
Theorem generateImageFromText_image_or_error
    oracle type_error generateImages prompt ratio :
  let settled :=
    generateImageFromText oracle type_error generateImages prompt ratio in
  ((exists msg, settled = Rejected (ErrorObj msg))
   \/ (exists u, settled = Resolved {| imageUrl := Some u; text := None |}
                 /\ is_png_data_uri u))
  /\ (forall response,
        generateImages (images_request prompt ratio) = Resolved response ->
        generatedImages response = None \/ generatedImages response = Some [] ->
        settled = Rejected (ErrorObj no_image_returned)).
Proof.
  intros settled. subst settled. unfold generateImageFromText. split.
  - destruct (generateImages (images_request prompt ratio)) as [response|e].
    + unfold generateImageFromText_after.
      destruct (generatedImages response) as [[|first rest]|].
      * left. eexists. reflexivity.
      * destruct (image first) as [img|].
        -- right. eexists. split; reflexivity.
        -- left. eexists. reflexivity.
      * left. eexists. reflexivity.
    + left. destruct (editImage_catch_error oracle e) as (msg & ->). now exists msg.
  - intros response -> Hnone. unfold generateImageFromText_after.
    destruct Hnone as [-> | ->]; cbn [editImage_catch];
      now rewrite refine_message_plain by apply no_image_returned_plain.
Qed.

Lemma generateImageFromText_image_or_error_witness :
  generateImageFromText (fun _ => Some WithoutError) "TypeError"
    (fun _ => Resolved {| generatedImages := Some [] |}) "a red skateboard" Ratio_16_9
  = Rejected (ErrorObj no_image_returned).
Proof.
  apply (proj2 (generateImageFromText_image_or_error (fun _ => Some WithoutError)
                  "TypeError" (fun _ => Resolved {| generatedImages := Some [] |})
                  "a red skateboard" Ratio_16_9)
           {| generatedImages := Some [] |} eq_refl).
  now right.
Defined.

Lemma poll_stops operation replies : forall final calls,
  poll operation replies = Some (Resolved final, calls) ->
  nth_error (Resolved operation :: replies) calls = Some (Resolved final)
  /\ done final = true
  /\ forall i, (i < calls)%nat ->
       exists pending,
         nth_error (Resolved operation :: replies) i = Some (Resolved pending)
         /\ done pending = false.
Proof.
  revert operation.
  induction replies as [|reply replies IH]; intros operation final calls Hpoll.
  - cbn [poll] in Hpoll. destruct (done operation) eqn:Hdone; [|discriminate].
    injection Hpoll as <- <-. repeat split; [exact Hdone|]. intros i Hi. lia.
  - cbn [poll] in Hpoll. destruct (done operation) eqn:Hdone.
    + injection Hpoll as <- <-. repeat split; [exact Hdone|]. intros i Hi. lia.
    + destruct reply as [next|e]; [|discriminate].
      destruct (poll next replies) as [[final' calls']|] eqn:Hnext; [|discriminate].
      injection Hpoll as -> <-.
      destruct (IH next final calls' Hnext) as (Hnth & Hfinal & Hpending).
      split; [exact Hnth|]. split; [exact Hfinal|].
      intros i Hi. destruct i as [|i].
      * exists operation. now split.
      * apply Hpending. lia.
Qed.

(** X7: [generateVideo] resolves only with the download link of a finished
    operation followed by [&key=] and the API key, and only when that
    operation carries no error and a non-empty link.  An error on the
    finished operation is reported even when a link is present, with the
    fallback text when its message is empty or not a string; a finished
    operation with neither error nor link is reported as lacking a download
    link. *)
Theorem generateVideo_result
    oracle API_KEY generateVideos replies prompt image ratio :
  let run := generateVideo oracle API_KEY generateVideos replies prompt image ratio in
  (forall url,
      settled run = Some (Resolved url) ->
      exists first final link,
        generateVideos (video_request prompt image ratio) = Resolved first
        /\ nth_error (Resolved first :: replies) (polls run) = Some (Resolved final)
        /\ done final = true /\ error final = None
        /\ download_link final = Some link /\ link <> EmptyString
        /\ url = (link ++ "&key=" ++ API_KEY)%string)
  /\ (forall first final calls,
        generateVideos (video_request prompt image ratio) = Resolved first ->
        poll first replies = Some (Resolved final, calls) ->
        (forall e,
            error final = Some e ->
            settled run
            = Some (Rejected (ErrorObj (refine_message oracle
                                          (operation_error_message e))))
            /\ (truthy (error_message e) = false ->
                settled run = Some (Rejected (ErrorObj operation_failed))))
        /\ (error final = None ->
            truthy (download_link final) = false ->
            settled run = Some (Rejected (ErrorObj no_download_link)))).
Proof.
  intros run. subst run. unfold generateVideo. split.
  - intros url Hsettled.
    destruct (generateVideos (video_request prompt image ratio)) as [first|e];
      [|discriminate].
    destruct (poll first replies) as [[[final|e] calls]|] eqn:Hpoll;
      cbn [settled polls] in *; try discriminate.
    destruct (poll_stops _ _ Hpoll) as (Hnth & Hdone & _).
    unfold generateVideo_after in Hsettled.
    destruct (error final) as [e|] eqn:Herr; [discriminate|].
    destruct (download_link final) as [link|] eqn:Hlink; [|discriminate].
    destruct (truthy (Some link)) eqn:Htruthy; [|discriminate].
    cbn [negb interpolate] in Hsettled. injection Hsettled as <-.
    exists first, final, link. repeat split; try assumption.
    intros ->. discriminate.
  - intros first final calls -> Hpoll. rewrite Hpoll. cbn [settled].
    unfold generateVideo_after. split.
    + intros e Herr. rewrite Herr. cbn [generateVideo_catch].
      split; [reflexivity|].
      intros Hfalsy. unfold operation_error_message.
      destruct (error_message e) as [m|]; [rewrite Hfalsy|]; reflexivity.
    + intros Herr Hlink. rewrite Herr, Hlink. reflexivity.
Qed.

Lemma generateVideo_result_witness :
  settled (generateVideo (fun _ => None) "KEY" (fun _ => Resolved running)
             [Resolved running; Resolved (failed_with_link "https://v/1?alt=media")]
             "a cat surfing" None "16:9")
  = Some (Rejected (ErrorObj operation_failed)).
Proof.
  apply (proj2 (generateVideo_result (fun _ => None) "KEY" (fun _ => Resolved running)
                  [Resolved running; Resolved (failed_with_link "https://v/1?alt=media")]
                  "a cat surfing" None "16:9")
           running (failed_with_link "https://v/1?alt=media") 2%nat eq_refl eq_refl)
    with {| error_message := Some EmptyString |}; reflexivity.
Defined.

Lemma poll_first_done : forall calls operation replies final,
  (forall i, (i < calls)%nat ->
     exists pending,
       nth_error (Resolved operation :: replies) i = Some (Resolved pending)
       /\ done pending = false) ->
  nth_error (Resolved operation :: replies) calls = Some (Resolved final) ->
  done final = true ->
  poll operation replies = Some (Resolved final, calls).
Proof.
  induction calls as [|calls IH]; intros operation replies final Hpending Hnth Hdone.
  - cbn [nth_error] in Hnth. injection Hnth as <-.
    destruct replies; cbn [poll]; now rewrite Hdone.
  - destruct (Hpending 0%nat) as (p & Hp & Hpdone); [lia|].
    cbn [nth_error] in Hp. injection Hp as <-.
    cbn [nth_error] in Hnth.
    destruct replies as [|reply replies]; [destruct calls; discriminate|].
    cbn [poll]. rewrite Hpdone.
    destruct reply as [next|e].
    + rewrite (IH next replies final); [reflexivity| |exact Hnth|exact Hdone].
      intros i Hi. apply (Hpending (S i)). lia.
    + destruct calls as [|calls].
      * cbn [nth_error] in Hnth. discriminate.
      * destruct (Hpending 1%nat) as (q & Hq & _); [lia|].
        cbn [nth_error] in Hq. discriminate.
Qed.

Lemma poll_waiting operation replies :
  poll operation replies = None ->
  Forall (fun reply => exists pending, reply = Resolved pending /\ done pending = false)
         (Resolved operation :: replies).
Proof.
  revert operation. induction replies as [|reply replies IH]; intros operation Hpoll.
  - cbn [poll] in Hpoll. destruct (done operation) eqn:Hdone; [discriminate|].
    constructor; [|constructor]. now exists operation.
  - cbn [poll] in Hpoll. destruct (done operation) eqn:Hdone; [discriminate|].
    destruct reply as [next|e]; [|discriminate].
    destruct (poll next replies) as [[final calls]|] eqn:Hnext; [discriminate|].
    constructor; [now exists operation|]. now apply IH.
Qed.

(** X8: once [generateVideos] has returned an operation, [generateVideo]
    asks for its status once per unfinished operation and stops at the
    first finished one: if the operations seen are unfinished up to
    position [n] and the one at position [n] is finished, it makes exactly
    [n] status calls (none when the first operation is already finished)
    and settles; and it is still waiting only if every operation seen so
    far is unfinished.  [onProgress] has then received the initialising and
    the polling message, in this order. *)
Theorem generateVideo_polling
    oracle API_KEY generateVideos replies prompt image ratio first :
  generateVideos (video_request prompt image ratio) = Resolved first ->
  let run := generateVideo oracle API_KEY generateVideos replies prompt image ratio in
  (forall n final,
      (forall i, (i < n)%nat ->
         exists pending,
           nth_error (Resolved first :: replies) i = Some (Resolved pending)
           /\ done pending = false) ->
      nth_error (Resolved first :: replies) n = Some (Resolved final) ->
      done final = true ->
      polls run = n /\ settled run <> None)
  /\ (settled run = None ->
      polls run = List.length replies
      /\ Forall (fun reply => exists pending,
                     reply = Resolved pending /\ done pending = false)
                (Resolved first :: replies))
  /\ progress run = [initializing; polling].
Proof.
  intros Hfirst run. subst run. unfold generateVideo. rewrite Hfirst.
  split; [|split].
  - intros n final Hpending Hnth Hdone.
    rewrite (poll_first_done _ _ Hpending Hnth Hdone). cbn [polls settled].
    split; [reflexivity|discriminate].
  - destruct (poll first replies) as [[[final|e] calls]|] eqn:Hpoll;
      cbn [settled polls]; try discriminate.
    intros _. split; [reflexivity|]. now apply poll_waiting.
  - destruct (poll first replies) as [[[final|e] calls]|]; reflexivity.
Qed.

Lemma generateVideo_polling_witness :
  polls (generateVideo (fun _ => None) "KEY" (fun _ => Resolved running)
           [Resolved running; Resolved (finished "https://v/1?alt=media");
            Resolved running]
           "a cat surfing" None "16:9") = 2%nat
  /\ settled (generateVideo (fun _ => None) "KEY" (fun _ => Resolved running)
                [Resolved running; Resolved (finished "https://v/1?alt=media");
                 Resolved running]
                "a cat surfing" None "16:9")
     = Some (Resolved "https://v/1?alt=media&key=KEY").
Proof.
  split; [|reflexivity].
  apply (proj1 (@generateVideo_polling (fun _ => None) "KEY" (fun _ => Resolved running)
                  [Resolved running; Resolved (finished "https://v/1?alt=media");
                   Resolved running]
                  "a cat surfing" None "16:9" running eq_refl)
           2%nat (finished "https://v/1?alt=media")).
  - intros i Hi. exists running.
    destruct i as [|[|i]]; [split; reflexivity|split; reflexivity|lia].
  - reflexivity.
  - reflexivity.
Defined.

End GenerationFacts.

(** ** components/MultiImageGridUploader.tsx: removal, reads and limits *)

Module GridUploaderFacts.

Import MultiImageGridUploader GridUploaderRest MultiImageGridUploaderFacts.

Lemma filter_index_before {A} (xs : list A) : forall from target,
  (target < from)%nat ->
  filter_index (fun index => negb (index =? target)%nat) from xs = xs.
Proof.
  induction xs as [|x xs IH]; intros from target Hlt; [reflexivity|].
  cbn [filter_index].
  destruct (Nat.eqb_spec from target); [lia|]. cbn [negb].
  now rewrite IH by lia.
Qed.

Lemma filter_index_remove {A} (xs : list A) : forall from i,
  filter_index (fun index => negb (index =? from + i)%nat) from xs
  = firstn i xs ++ skipn (S i) xs.
Proof.
  induction xs as [|x xs IH]; intros from i; [now destruct i|].
  cbn [filter_index]. destruct i as [|i].
  - rewrite Nat.add_0_r, Nat.eqb_refl. cbn [negb firstn skipn app].
    apply filter_index_before. lia.
  - destruct (Nat.eqb_spec from (from + S i)); [lia|]. cbn [negb firstn skipn app].
    f_equal. replace (from + S i)%nat with (S from + i)%nat by lia. apply IH.
Qed.

(** X9: [removeImage] hands [onImagesChange] the list without the image at
    the given index, the others in their order; an index past the end
    leaves the list as it is. *)
Theorem removeImage_removes imageUrls indexToRemove :
  removeImage imageUrls indexToRemove
  = firstn indexToRemove imageUrls ++ skipn (S indexToRemove) imageUrls
  /\ ((indexToRemove < List.length imageUrls)%nat ->
      S (List.length (removeImage imageUrls indexToRemove)) = List.length imageUrls)
  /\ ((List.length imageUrls <= indexToRemove)%nat ->
      removeImage imageUrls indexToRemove = imageUrls).
Proof.
  assert (Heq : removeImage imageUrls indexToRemove
                = firstn indexToRemove imageUrls ++ skipn (S indexToRemove) imageUrls)
    by apply (filter_index_remove imageUrls 0 indexToRemove).
  split; [exact Heq|]. rewrite Heq. split.
  - intros Hin. rewrite length_app, length_firstn, length_skipn. lia.
  - intros Hout. rewrite firstn_all2 by lia. rewrite skipn_all2 by lia.
    apply app_nil_r.
Qed.

Lemma removeImage_removes_witness :
  removeImage ["a"; "b"; "c"] 1 = ["a"; "c"]
  /\ S (List.length (removeImage ["a"; "b"; "c"] 1)) = 3%nat.
Proof.
  split; [reflexivity|].
  apply (proj1 (proj2 (removeImage_removes ["a"; "b"; "c"] 1))).
  simpl. lia.
Defined.

(** The state of the readers after some completions that all deliver. *)
Lemma fold_complete_delivered imageUrls filesToProcess completions : forall st,
  changes st = [] ->
  (forall i, In i completions -> read_at filesToProcess i <> None) ->
  (processedCount st + List.length completions <= List.length filesToProcess)%nat ->
  let final := fold_left (complete imageUrls filesToProcess) completions st in
  newUrls final = newUrls st ++ delivered filesToProcess completions
  /\ processedCount final = (processedCount st + List.length completions)%nat
  /\ changes final
     = if ((0 <? List.length completions)
           && (processedCount st + List.length completions
               =? List.length filesToProcess))%nat
       then [imageUrls ++ newUrls st ++ delivered filesToProcess completions]
       else [].
Proof.
  induction completions as [|i rest IH]; intros st Hchanges Hall Hroom.
  - cbn [fold_left delivered flat_map List.length Nat.ltb Nat.leb andb].
    rewrite app_nil_r, Nat.add_0_r. now repeat split.
  - cbn [List.length] in Hroom.
    assert (Hi : read_at filesToProcess i <> None) by (apply Hall; now left).
    unfold read_at in Hi.
    destruct (nth_error filesToProcess i) as [f|] eqn:Hf; [|congruence].
    destruct (read f) as [u|] eqn:Hu; [|congruence].
    assert (Hcomp : complete imageUrls filesToProcess st i
                    = onload imageUrls (List.length filesToProcess) st u).
    { unfold complete. now rewrite Hf, Hu. }
    assert (Hhead : delivered filesToProcess (i :: rest)
                    = u :: delivered filesToProcess rest).
    { unfold delivered. cbn [flat_map]. unfold read_at at 1. now rewrite Hf, Hu. }
    cbn [fold_left]. rewrite Hcomp, Hhead.
    destruct rest as [|j rest].
    + cbn [fold_left]. cbv zeta. unfold onload.
      cbn [newUrls processedCount changes delivered flat_map List.length].
      rewrite Hchanges. cbn [app Nat.ltb Nat.leb andb].
      replace (processedCount st + 1)%nat with (S (processedCount st)) by lia.
      now repeat split.
    + destruct (IH (onload imageUrls (List.length filesToProcess) st u))
        as (Hnew & Hcount & Hch).
      * unfold onload. cbn [changes]. rewrite Hchanges.
        destruct (Nat.eqb_spec (S (processedCount st)) (List.length filesToProcess));
          [cbn [List.length] in Hroom; lia|reflexivity].
      * intros k Hk. apply Hall. now right.
      * unfold onload. cbn [processedCount List.length] in *. lia.
      * cbv zeta in Hnew, Hcount, Hch. cbv zeta. rewrite Hnew, Hcount, Hch.
        unfold onload. cbn [newUrls processedCount].
        cbn [List.length Nat.ltb Nat.leb andb].
        rewrite <- !app_assoc. cbn [app].
        replace (S (processedCount st) + S (List.length rest))%nat
          with (processedCount st + S (S (List.length rest)))%nat by lia.
        now repeat split.
Qed.

Lemma handleFiles_completion_order_general imageUrls maxImages files completions :
  let filesToProcess :=
    JS.slice0 files (maxImages - Z.of_nat (List.length imageUrls)) in
  (0 < List.length filesToProcess)%nat ->
  List.length completions = List.length filesToProcess ->
  (forall i, In i completions -> read_at filesToProcess i <> None) ->
  handleFiles imageUrls maxImages files completions
  = [imageUrls ++ delivered filesToProcess completions].
Proof.
  intros filesToProcess Hsome Hlen Hall. unfold handleFiles.
  fold filesToProcess.
  destruct (Nat.eqb_spec (List.length filesToProcess) 0) as [Hzero|_]; [lia|].
  destruct (@fold_complete_delivered imageUrls filesToProcess completions
              {| newUrls := []; processedCount := 0; changes := [] |}
              eq_refl Hall) as (_ & _ & Hch).
  - cbn [processedCount]. lia.
  - cbv zeta in Hch. rewrite Hch. cbn [processedCount newUrls app].
    rewrite Hlen. cbn [Nat.add]. rewrite Nat.eqb_refl.
    destruct (Nat.ltb_spec 0 (List.length filesToProcess)); [reflexivity|lia].
Qed.

(** X10: when every selected file is read and each reader completes once,
    [onImagesChange] is called exactly once, with the current list followed
    by the new URLs in the order in which the reads completed. *)
Theorem handleFiles_completion_order imageUrls maxImages files completions :
  let filesToProcess :=
    JS.slice0 files (maxImages - Z.of_nat (List.length imageUrls)) in
  (0 < List.length filesToProcess)%nat ->
  List.length completions = List.length filesToProcess ->
  (forall i, In i completions -> read_at filesToProcess i <> None) ->
  handleFiles imageUrls maxImages files completions
  = [imageUrls ++ delivered filesToProcess completions].
Proof.
  intros filesToProcess Hsome Hlen Hall. unfold handleFiles.
  fold filesToProcess.
  destruct (Nat.eqb_spec (List.length filesToProcess) 0) as [Hzero|_]; [lia|].
  destruct (@fold_complete_delivered imageUrls filesToProcess completions
              {| newUrls := []; processedCount := 0; changes := [] |}
              eq_refl Hall) as (_ & _ & Hch).
  - cbn [processedCount]. lia.
  - cbv zeta in Hch. rewrite Hch. cbn [processedCount newUrls app].
    rewrite Hlen. cbn [Nat.add]. rewrite Nat.eqb_refl.
    destruct (Nat.ltb_spec 0 (List.length filesToProcess)); [reflexivity|lia].
Qed.

Lemma handleFiles_completion_order_witness :
  handleFiles ["a"] 3
    [photo "1.png" "b"; photo "2.png" "c"; photo "3.png" "d"] [1; 0]%nat
  = [["a"; "c"; "b"]].
Proof.
  apply (@handleFiles_completion_order ["a"] 3
           [photo "1.png" "b"; photo "2.png" "c"; photo "3.png" "d"] [1; 0]%nat).
  - simpl. lia.
  - reflexivity.
  - intros i [<-|[<-|[]]]; discriminate.
Defined.

Lemma fold_complete_short imageUrls filesToProcess completions : forall st,
  changes st = [] ->
  (processedCount st + List.length (filter (delivers filesToProcess) completions)
   < List.length filesToProcess)%nat ->
  changes (fold_left (complete imageUrls filesToProcess) completions st) = [].
Proof.
  induction completions as [|i rest IH]; intros st Hchanges Hshort; [exact Hchanges|].
  cbn [fold_left]. cbn [filter] in Hshort. unfold delivers at 1, read_at in Hshort.
  unfold complete at 2.
  destruct (nth_error filesToProcess i) as [f|]; [|now apply IH].
  destruct (read f) as [u|]; [|now apply IH].
  cbn [List.length] in Hshort. apply IH.
  - unfold onload. cbn [changes]. rewrite Hchanges.
    destruct (Nat.eqb_spec (S (processedCount st)) (List.length filesToProcess));
      [lia|reflexivity].
  - unfold onload. cbn [processedCount]. lia.
Qed.

Lemma delivering_indices_short files completions bad :
  NoDup completions ->
  (bad < List.length files)%nat -> read_at files bad = None ->
  (List.length (filter (delivers files) completions) < List.length files)%nat.
Proof.
  intros Hnodup Hbad Hnone.
  assert (Hin : forall i, In i (filter (delivers files) completions) ->
                          (i < List.length files)%nat /\ i <> bad).
  { intros i Hi. apply filter_In in Hi. destruct Hi as (_ & Hi).
    unfold delivers, read_at in Hi. split.
    - apply nth_error_Some. destruct (nth_error files i); [discriminate|discriminate].
    - intros ->. unfold read_at in Hnone. now rewrite Hnone in Hi. }
  assert (Hlen : (List.length (bad :: filter (delivers files) completions)
                  <= List.length (seq 0 (List.length files)))%nat).
  { apply NoDup_incl_length.
    - constructor.
      + intros Hmem. now destruct (Hin bad Hmem).
      + now apply NoDup_filter.
    - intros i [<-|Hi]; apply in_seq; [lia|]. destruct (Hin i Hi). lia. }
  rewrite length_seq in Hlen. cbn [List.length] in Hlen. lia.
Qed.

(** X11: a batch is all or nothing: when one of the selected files cannot
    be read (its reader never fires [onload]) and each reader completes at
    most once, [onImagesChange] is never called, so the files that were
    read are dropped as well. *)
Theorem handleFiles_unreadable_file imageUrls maxImages files completions bad :
  let filesToProcess :=
    JS.slice0 files (maxImages - Z.of_nat (List.length imageUrls)) in
  NoDup completions ->
  (bad < List.length filesToProcess)%nat ->
  read_at filesToProcess bad = None ->
  handleFiles imageUrls maxImages files completions = [].
Proof.
  intros filesToProcess Hnodup Hbad Hnone. unfold handleFiles. fold filesToProcess.
  destruct (List.length filesToProcess =? 0)%nat; [reflexivity|].
  apply fold_complete_short; [reflexivity|]. cbn [processedCount Nat.add].
  now apply delivering_indices_short with bad.
Qed.

Lemma handleFiles_unreadable_file_witness :
  handleFiles ["a"] 4
    [photo "1.png" "b"; unreadable "2.heic"; photo "3.png" "d"] [2; 0; 1]%nat
  = [].
Proof.
  apply (@handleFiles_unreadable_file ["a"] 4
           [photo "1.png" "b"; unreadable "2.heic"; photo "3.png" "d"]
           [2; 0; 1]%nat 1%nat).
  - repeat constructor; simpl; intuition lia.
  - simpl. lia.
  - reflexivity.
Defined.

(** X12: [handleFiles] guards the limit only up to the limit.  On a list
    that is exactly full it never calls [onImagesChange]; the upload tile,
    which alone calls it, is rendered exactly when the list is below the
    limit.  On a list that already exceeds the limit by [k] it takes all
    but the last [k] offered files, and once these are read the list grows
    further. *)
Theorem handleFiles_at_and_over_limit imageUrls maxImages files completions :
  (Z.of_nat (List.length imageUrls) = maxImages ->
   handleFiles imageUrls maxImages files completions = [])
  /\ (upload_tile_shown imageUrls maxImages = true
      <-> (Z.of_nat (List.length imageUrls) < maxImages)%Z)
  /\ (forall k,
        (0 < k < List.length files)%nat ->
        Z.of_nat (List.length imageUrls) = (maxImages + Z.of_nat k)%Z ->
        let taken := firstn (List.length files - k) files in
        List.length completions = List.length taken ->
        (forall i, In i completions -> read_at taken i <> None) ->
        handleFiles imageUrls maxImages files completions
        = [imageUrls ++ delivered taken completions]).
Proof.
  split; [|split].
  - intros Hfull. unfold handleFiles. rewrite Hfull, Z.sub_diag.
    unfold JS.slice0. cbn [Z.ltb Z.compare Z.to_nat firstn List.length Nat.eqb].
    reflexivity.
  - unfold upload_tile_shown. apply Z.ltb_lt.
  - intros k Hk Hover taken Hlen Hall.
    assert (Hslice : JS.slice0 files (maxImages - Z.of_nat (List.length imageUrls))
                     = taken).
    { unfold JS.slice0, taken.
      destruct (Z.ltb_spec (maxImages - Z.of_nat (List.length imageUrls)) 0); [|lia].
      f_equal. lia. }
    pose proof (@handleFiles_completion_order_general imageUrls maxImages files
                  completions) as Hgen.
    cbv zeta in Hgen. rewrite Hslice in Hgen. apply Hgen; try assumption.
    unfold taken. rewrite length_firstn. lia.
Qed.

Lemma handleFiles_at_and_over_limit_witness :
  handleFiles ["a"; "b"; "c"] 2
    [photo "1.png" "d"; photo "2.png" "e"; photo "3.png" "f"] [0; 1]%nat
  = [["a"; "b"; "c"; "d"; "e"]]
  /\ handleFiles ["a"; "b"] 2 [photo "1.png" "d"] [0]%nat = [].
Proof.
  split.
  - apply (proj2 (proj2 (handleFiles_at_and_over_limit ["a"; "b"; "c"] 2
                           [photo "1.png" "d"; photo "2.png" "e"; photo "3.png" "f"]
                           [0; 1]%nat)) 1%nat).
    + simpl. lia.
    + reflexivity.
    + reflexivity.
    + intros i [<-|[<-|[]]]; discriminate.
  - apply (proj1 (handleFiles_at_and_over_limit ["a"; "b"] 2 [photo "1.png" "d"]
                    [0]%nat)).
    reflexivity.
Defined.

End GridUploaderFacts.

(** ** App.tsx and ResultDisplay.tsx: data URLs *)

Module DataUrlFacts.

Import GeminiService DataUrls GeminiRequestFacts.

Lemma split_on_nonempty sep s : split_on sep s <> [].
Proof.
  destruct s as [|c rest]; cbn [split_on]; [discriminate|].
  destruct (Ascii.eqb c sep); [discriminate|].
  destruct (split_on sep rest); discriminate.
Qed.

Lemma split_on_free sep s : free_of sep s = true -> split_on sep s = [s].
Proof.
  induction s as [|c rest IH]; [reflexivity|].
  cbn [free_of split_on]. intros Hfree. apply andb_true_iff in Hfree.
  destruct Hfree as (Hc & Hrest). apply negb_true_iff in Hc.
  now rewrite Hc, IH.
Qed.

(** Splitting at the first separator. *)
Lemma split_on_first sep a b :
  free_of sep a = true ->
  split_on sep (a ++ String sep b) = a :: split_on sep b.
Proof.
  induction a as [|c rest IH]; intros Hfree.
  - cbn [append split_on]. now rewrite Ascii.eqb_refl.
  - cbn [free_of] in Hfree. apply andb_true_iff in Hfree.
    destruct Hfree as (Hc & Hrest). apply negb_true_iff in Hc.
    cbn [append split_on]. now rewrite Hc, IH.
Qed.

Lemma free_of_app c a b :
  free_of c (a ++ b) = free_of c a && free_of c b.
Proof.
  induction a as [|x rest IH]; [reflexivity|].
  cbn [append free_of]. now rewrite IH, andb_assoc.
Qed.

Lemma data_uri_text m b :
  data_uri {| inline_data := Some b; inline_mimeType := Some m |}
  = ("data:" ++ m ++ ";base64," ++ b)%string.
Proof. reflexivity. Qed.

(** X13: the image part that [App.tsx] builds from a data URI produced by
    [editImage] carries exactly the MIME type and the base64 data of the
    inline part the model returned, provided the MIME type holds no comma,
    colon or semicolon and the data no comma (true of MIME types and
    base64).  A URL without a comma gives an undefined [base64], and one
    with no colon before its first semicolon the type image/png. *)
Theorem url_part_of_data_uri m b :
  free_of comma m = true -> free_of colon m = true ->
  free_of semicolon m = true -> free_of comma b = true ->
  url_part (data_uri {| inline_data := Some b; inline_mimeType := Some m |})
  = {| part_base64 := Some b; part_mimeType := m |}
  /\ (forall url, free_of comma url = true -> url_base64 url = None)
  /\ (forall url, free_of colon (before_semicolon url) = true ->
                  url_mimeType url = "image/png").
Proof.
  intros Hcomma Hcolon Hsemi Hb. split; [|split].
  - rewrite data_uri_text.
    unfold url_part, url_base64, url_mimeType, before_semicolon. f_equal.
    + replace ("data:" ++ m ++ ";base64," ++ b)%string
        with (("data:" ++ m ++ ";base64") ++ String comma b)%string
        by (rewrite !string_app_assoc; reflexivity).
      rewrite split_on_first.
      * rewrite (split_on_free _ _ Hb). reflexivity.
      * rewrite !free_of_app, Hcomma. reflexivity.
    + replace ("data:" ++ m ++ ";base64," ++ b)%string
        with (("data:" ++ m) ++ String semicolon ("base64," ++ b))%string
        by (rewrite !string_app_assoc; reflexivity).
      rewrite split_on_first.
      * change ("data:" ++ m)%string with ("data" ++ String colon m)%string.
        rewrite split_on_first by reflexivity.
        rewrite (split_on_free _ _ Hcolon). reflexivity.
      * rewrite free_of_app, Hsemi. reflexivity.
  - intros url Hfree. unfold url_base64. now rewrite (split_on_free _ _ Hfree).
  - intros url Hfree. unfold url_mimeType. now rewrite (split_on_free _ _ Hfree).
Qed.

Lemma url_part_of_data_uri_witness :
  url_part "data:image/png;base64,iVBORw0KGgo="
  = {| part_base64 := Some "iVBORw0KGgo="; part_mimeType := "image/png" |}.
Proof.
  apply (@url_part_of_data_uri "image/png" "iVBORw0KGgo="); reflexivity.
Defined.

(** X14: the file extension offered for a download is the subtype of the
    data URI's MIME type: for a URI whose type is [ty/sub], with a
    non-empty subtype and no slash or semicolon in either, it is [sub].
    When the text before the first semicolon holds no slash it is png, and
    a history entry whose type mentions video gets mp4 whatever its URL. *)
Theorem url_extension_subtype ty sub rest :
  free_of slash ty = true -> free_of semicolon ty = true ->
  free_of slash sub = true -> free_of semicolon sub = true ->
  sub <> EmptyString ->
  url_extension ("data:" ++ ty ++ String slash sub ++ String semicolon rest)
  = sub
  /\ (forall url, free_of slash (before_semicolon url) = true ->
                  url_extension url = "png")
  /\ (forall url type now,
        includes "video" type = true ->
        history_download_name url type now = (type ++ "-" ++ now ++ ".mp4")%string).
Proof.
  intros Hty1 Hty2 Hsub1 Hsub2 Hsub. split; [|split].
  - unfold url_extension, before_semicolon.
    replace ("data:" ++ ty ++ String slash sub ++ String semicolon rest)%string
      with ((("data:" ++ ty) ++ String slash sub) ++ String semicolon rest)%string
      by (rewrite !string_app_assoc; reflexivity).
    rewrite split_on_first.
    + rewrite split_on_first by (rewrite free_of_app, Hty1; reflexivity).
      rewrite (split_on_free _ _ Hsub1). cbn [nth_error interpolate].
      destruct sub; [congruence|reflexivity].
    + rewrite !free_of_app, Hty2. cbn [free_of]. now rewrite Hsub2.
  - intros url Hfree. unfold url_extension.
    now rewrite (split_on_free _ _ Hfree).
  - intros url type now Hvideo. unfold history_download_name. now rewrite Hvideo.
Qed.

Lemma url_extension_subtype_witness :
  url_extension "data:image/jpeg;base64,AAAA" = "jpeg".
Proof.
  apply (@url_extension_subtype "image" "jpeg" "base64,AAAA"); try reflexivity.
  discriminate.
Defined.

End DataUrlFacts.

(** ** App.tsx: the saved order of the transformations *)

Module TransformationOrderFacts.

Import AppState.

Lemma find_unique_key (ts : list Transformation) tr :
  NoDup (map key ts) -> In tr ts ->
  find (fun x => String.eqb (key x) (key tr)) ts = Some tr.
Proof.
  induction ts as [|x ts IH]; intros Hnodup Hin; [destruct Hin|].
  cbn [map] in Hnodup. inversion Hnodup as [|k ks Hfresh Hrest]; subst.
  cbn [find]. destruct Hin as [->|Hin].
  - now rewrite String.eqb_refl.
  - destruct (String.eqb_spec (key x) (key tr)) as [Heq|_]; [|now apply IH].
    exfalso. apply Hfresh. rewrite Heq. now apply in_map.
Qed.

Lemma map_get_member TRANSFORMATIONS k tr :
  transformationMap_get TRANSFORMATIONS k = Some tr ->
  In tr TRANSFORMATIONS /\ key tr = k.
Proof.
  unfold transformationMap_get. intros Hfind. apply find_some in Hfind.
  destruct Hfind as (Hin & Hkey). split.
  - now apply in_rev.
  - now apply String.eqb_eq.
Qed.

Lemma map_get_unique TRANSFORMATIONS tr :
  NoDup (map key TRANSFORMATIONS) -> In tr TRANSFORMATIONS ->
  transformationMap_get TRANSFORMATIONS (key tr) = Some tr.
Proof.
  intros Hnodup Hin. unfold transformationMap_get. apply find_unique_key.
  - rewrite map_rev. now apply NoDup_rev.
  - now apply in_rev in Hin.
Qed.

Lemma existsb_key k keys : existsb (String.eqb k) keys = true <-> In k keys.
Proof.
  rewrite existsb_exists. split.
  - intros (x & Hx & Heq). apply String.eqb_eq in Heq. now subst.
  - intros Hin. exists k. split; [exact Hin|apply String.eqb_refl].
Qed.

Lemma filter_none {A} (f : A -> bool) (xs : list A) :
  (forall x, In x xs -> f x = false) -> filter f xs = [].
Proof.
  induction xs as [|x xs IH]; intros Hall; [reflexivity|].
  cbn [filter]. rewrite (Hall x (or_introl eq_refl)).
  apply IH. intros y Hy. apply Hall. now right.
Qed.

Lemma ordered_of_own_keys TRANSFORMATIONS ts :
  NoDup (map key TRANSFORMATIONS) -> incl ts TRANSFORMATIONS ->
  flat_map (fun k => match transformationMap_get TRANSFORMATIONS k with
                     | Some tr => [tr]
                     | None => []
                     end)
           (map key ts)
  = ts.
Proof.
  intros Hnodup. induction ts as [|tr ts IH]; intros Hincl; [reflexivity|].
  cbn [map flat_map].
  rewrite map_get_unique by (assumption || apply Hincl; now left).
  cbn [app]. f_equal. apply IH. intros x Hx. apply Hincl. now right.
Qed.

(** X15: loading a saved order loses and invents nothing: every entry of
    the initial list is a built-in transformation, and every built-in key
    is present; when the built-in keys and the saved keys are free of
    duplicates the initial list is a permutation of the built-in list, the
    saved keys first in their saved order and the unsaved ones after.  With
    nothing saved, or a saved text that does not parse, it is the built-in
    list itself. *)
Theorem initial_transformations_complete TRANSFORMATIONS savedOrder :
  incl (initial_transformations TRANSFORMATIONS savedOrder) TRANSFORMATIONS
  /\ incl (map key TRANSFORMATIONS)
          (map key (initial_transformations TRANSFORMATIONS savedOrder))
  /\ (forall orderedKeys,
        savedOrder = Keys orderedKeys ->
        NoDup (map key TRANSFORMATIONS) -> NoDup orderedKeys ->
        Permutation (initial_transformations TRANSFORMATIONS savedOrder)
                    TRANSFORMATIONS)
  /\ (savedOrder = NoItem \/ savedOrder = Unparsable ->
      initial_transformations TRANSFORMATIONS savedOrder = TRANSFORMATIONS).
Proof.
  assert (Hsound : forall orderedKeys tr,
             In tr (initial_transformations TRANSFORMATIONS (Keys orderedKeys)) ->
             In tr TRANSFORMATIONS
             /\ (In (key tr) orderedKeys
                 -> transformationMap_get TRANSFORMATIONS (key tr) = Some tr)).
  { intros orderedKeys tr Hin. cbn [initial_transformations] in Hin.
    apply in_app_or in Hin. destruct Hin as [Hin|Hin].
    - apply in_flat_map in Hin. destruct Hin as (k & Hk & Htr).
      destruct (transformationMap_get TRANSFORMATIONS k) as [tr'|] eqn:Hget;
        [|destruct Htr].
      destruct Htr as [<-|[]]. destruct (map_get_member _ _ Hget) as (Hmem & Hkey).
      split; [exact Hmem|]. intros _. now rewrite Hkey.
    - apply filter_In in Hin. destruct Hin as (Hmem & Hnew).
      split; [exact Hmem|]. intros Hsaved. apply existsb_key in Hsaved.
      rewrite Hsaved in Hnew. discriminate. }
  split; [|split; [|split]].
  - destruct savedOrder as [| |orderedKeys]; try apply incl_refl.
    intros tr Hin. now apply Hsound in Hin.
  - destruct savedOrder as [| |orderedKeys]; try apply incl_refl.
    intros k Hk. apply in_map_iff in Hk. destruct Hk as (tr & <- & Hin).
    cbn [initial_transformations]. rewrite map_app. apply in_or_app.
    destruct (existsb (String.eqb (key tr)) orderedKeys) eqn:Hsaved.
    + left. apply existsb_key in Hsaved.
      assert (Hfound : exists tr', transformationMap_get TRANSFORMATIONS (key tr)
                                   = Some tr').
      { unfold transformationMap_get.
        destruct (find (fun x => String.eqb (key x) (key tr)) (rev TRANSFORMATIONS))
          as [tr'|] eqn:Hfind; [now exists tr'|].
        exfalso. apply in_rev in Hin.
        pose proof (find_none _ _ Hfind tr Hin) as Hno. cbv beta in Hno.
        now rewrite String.eqb_refl in Hno. }
      destruct Hfound as (tr' & Hget).
      destruct (map_get_member _ _ Hget) as (_ & Hkey).
      apply in_map_iff. exists tr'. split; [exact Hkey|].
      apply in_flat_map. exists (key tr). split; [exact Hsaved|].
      rewrite Hget. now left.
    + right. apply in_map. apply filter_In. split; [exact Hin|].
      now rewrite Hsaved.
  - intros orderedKeys -> Hkeys Hsaved.
    assert (Hts : NoDup TRANSFORMATIONS) by (eapply NoDup_map_inv; exact Hkeys).
    apply NoDup_Permutation; [|exact Hts|].
    + cbn [initial_transformations]. apply NoDup_app.
      * clear -Hsaved Hkeys.
        induction Hsaved as [|k ks Hfresh _ IH]; [constructor|].
        cbn [flat_map].
        destruct (transformationMap_get TRANSFORMATIONS k) as [tr|] eqn:Hget;
          [|exact IH].
        cbn [app]. constructor; [|exact IH].
        intros Hin. apply in_flat_map in Hin. destruct Hin as (k' & Hk' & Htr).
        destruct (transformationMap_get TRANSFORMATIONS k') as [tr'|] eqn:Hget';
          [|destruct Htr].
        destruct Htr as [->|[]].
        destruct (map_get_member _ _ Hget) as (_ & <-).
        destruct (map_get_member _ _ Hget') as (_ & <-).
        contradiction.
      * now apply NoDup_filter.
      * intros tr Hordered Hnew.
        apply in_flat_map in Hordered. destruct Hordered as (k & Hk & Htr).
        destruct (transformationMap_get TRANSFORMATIONS k) as [tr'|] eqn:Hget;
          [|destruct Htr].
        destruct Htr as [->|[]]. destruct (map_get_member _ _ Hget) as (_ & <-).
        apply filter_In in Hnew. destruct Hnew as (_ & Hnew).
        apply existsb_key in Hk. rewrite Hk in Hnew. discriminate.
    + intros tr. split.
      * intros Hin. now apply Hsound in Hin.
      * intros Hin. cbn [initial_transformations]. apply in_or_app.
        destruct (existsb (String.eqb (key tr)) orderedKeys) eqn:Hk.
        -- left. apply in_flat_map. exists (key tr). split.
           ++ now apply existsb_key.
           ++ rewrite map_get_unique by assumption. now left.
        -- right. apply filter_In. split; [exact Hin|]. now rewrite Hk.
  - intros [-> | ->]; reflexivity.
Qed.

Lemma initial_transformations_complete_witness :
  initial_transformations [effect "figurine"; effect "lineArt"; effect "pose"]
    (Keys ["pose"; "retired"; "figurine"])
  = [effect "pose"; effect "figurine"; effect "lineArt"]
  /\ Permutation
       (initial_transformations [effect "figurine"; effect "lineArt"; effect "pose"]
          (Keys ["pose"; "retired"; "figurine"]))
       [effect "figurine"; effect "lineArt"; effect "pose"].
Proof.
  split; [reflexivity|].
  apply (proj1 (proj2 (proj2 (initial_transformations_complete
                                [effect "figurine"; effect "lineArt"; effect "pose"]
                                (Keys ["pose"; "retired"; "figurine"]))))
           ["pose"; "retired"; "figurine"] eq_refl).
  - repeat constructor; simpl; intuition discriminate.
  - repeat constructor; simpl; intuition discriminate.
Defined.

(** X16: saving and loading the order is a round trip: when the built-in
    keys are distinct, any rearrangement of the built-in list that is saved
    is read back as it was. *)
Theorem saved_order_roundtrip TRANSFORMATIONS transformations :
  NoDup (map key TRANSFORMATIONS) ->
  Permutation transformations TRANSFORMATIONS ->
  initial_transformations TRANSFORMATIONS (saved_order transformations)
  = transformations.
Proof.
  intros Hkeys Hperm. unfold saved_order. cbn [initial_transformations].
  rewrite ordered_of_own_keys.
  - rewrite filter_none; [apply app_nil_r|].
    intros tr Hin. apply negb_false_iff. apply existsb_key. apply in_map.
    apply Permutation_sym in Hperm. eapply Permutation_in; eassumption.
  - exact Hkeys.
  - intros tr Hin. eapply Permutation_in; eassumption.
Qed.

Lemma saved_order_roundtrip_witness :
  initial_transformations [effect "figurine"; effect "lineArt"; effect "pose"]
    (saved_order [effect "pose"; effect "figurine"; effect "lineArt"])
  = [effect "pose"; effect "figurine"; effect "lineArt"].
Proof.
  apply saved_order_roundtrip.
  - repeat constructor; simpl; intuition discriminate.
  - apply Permutation_sym.
    apply (@perm_trans _ _ [effect "pose"; effect "figurine"; effect "lineArt"]);
      [|apply Permutation_refl].
    change [effect "figurine"; effect "lineArt"; effect "pose"]
      with ([effect "figurine"; effect "lineArt"] ++ [effect "pose"]).
    apply Permutation_app_comm.
Defined.

End TransformationOrderFacts.

(** ** App.tsx: [handleGenerateImage] *)

Module GenerationFlowFacts.

Import AppState DataUrls Generation GenerationSamples PromiseFacts.

Section Flow.

Variable t : string -> string.
Variable trim : string -> string.
Variable HTMLImageElement : Type.
Variable editImage :
  nat -> option string -> list UrlPart -> option string -> outcome Types.GeneratedContent.
Variable generateImageEditsBatch : string -> list UrlPart -> outcome (list string).
Variable generateImageFromText : string -> string -> outcome Types.GeneratedContent.
Variables embedWatermark addVisibleWatermark : string -> string -> outcome string.
Variable loadImage : string -> outcome HTMLImageElement.
Variable resizeImageToMatch : string -> HTMLImageElement -> outcome string.
Variable settle : list nat.
Variable type_error : thrown.

Let run_try :=
  generate_try t editImage generateImageEditsBatch generateImageFromText
    embedWatermark addVisibleWatermark loadImage resizeImageToMatch settle type_error.

Let run :=
  handleGenerateImage t trim editImage generateImageEditsBatch generateImageFromText
    embedWatermark addVisibleWatermark loadImage resizeImageToMatch settle type_error.

Ltac open_try :=
  repeat match goal with
         | H : context [if ?b then _ else _] |- _ => destruct b eqn:?
         | H : context [await ?p _] |- _ =>
             destruct p eqn:?; cbn [await] in H
         | H : context [match ?o with Some _ => _ | None => _ end] |- _ =>
             destruct o eqn:?
         | H : Rejected _ = Resolved _ |- _ => discriminate H
         | H : Resolved _ = Resolved _ |- _ => injection H as <- <-
         end.

Lemma generate_try_post tr usedPrompt st0 st1 x :
  run_try tr usedPrompt st0 = Resolved (st1, x) -> try_post t st0 st1 x.
Proof.
  unfold run_try, generate_try, show_result, need. intros Htry.
  open_try; unfold try_post, same_inputs; cbn; repeat split; eauto.
Qed.

Lemma watermarks_settles imageUrl :
  exists v, watermarks embedWatermark addVisibleWatermark imageUrl = Resolved v.
Proof.
  unfold watermarks.
  apply (AppFacts.applyWatermarks_settles embedWatermark addVisibleWatermark imageUrl).
Qed.

Lemma watermarks_some url :
  truthy (Some url) = true ->
  exists v, watermarks embedWatermark addVisibleWatermark (Some url)
            = Resolved (Some v).
Proof.
  intros Hurl. unfold watermarks, App.applyWatermarks. rewrite Hurl. cbn [negb].
  destruct (App.watermark_try embedWatermark addVisibleWatermark url) as [[vis|err] log];
    eexists; reflexivity.
Qed.

Lemma watermarks_fallback url :
  truthy (Some url) = true ->
  (forall u txt, exists err, embedWatermark u txt = Rejected err) ->
  watermarks embedWatermark addVisibleWatermark (Some url) = Resolved (Some url).
Proof.
  intros Hurl Hfails. unfold watermarks, App.applyWatermarks, App.watermark_try.
  rewrite Hurl. cbn [negb].
  destruct (Hfails url App.watermark_text) as (err & ->). reflexivity.
Qed.

Lemma watermarked_batch_settles results :
  exists watermarkedResults,
    Promise_all settle
      (map (fun url => watermarks embedWatermark addVisibleWatermark (Some url)) results)
    = Resolved watermarkedResults.
Proof.
  destruct (Promise_all settle
              (map (fun url => watermarks embedWatermark addVisibleWatermark (Some url))
                   results)) as [vs|e] eqn:Hall; [now exists vs|].
  apply Promise_all_rejected in Hall. apply in_map_iff in Hall.
  destruct Hall as (url & Hurl & _).
  destruct (watermarks_settles (Some url)) as (v & Hv). congruence.
Qed.

(** X17: however a run of [handleGenerateImage] ends, it leaves the
    interface consistent: unless it stopped at the first validation it has
    switched the spinner off and cleared the loading message; the error is
    null exactly when it ended by showing options or a result; a run that
    showed a result has a result on display, one that failed has none; and
    it never changes the selection, the uploaded images, the mask or the
    prompt. *)
Theorem handleGenerateImage_consistent st :
  let st' := fst (run st) in
  let x := snd (run st) in
  (x <> InvalidSelection -> isLoading st' = false /\ loadingMessage st' = EmptyString)
  /\ (isLoading st = false -> isLoading st' = false)
  /\ (error st' = None <-> succeeded x = true)
  /\ (x = ShowedResult -> exists shown, generatedContent st' = Some shown)
  /\ (succeeded x = false -> x <> InvalidSelection -> generatedContent st' = None)
  /\ same_inputs st st'.
Proof.
  unfold run, handleGenerateImage.
  assert (Hinvalid :
            let st' := setError (Some (t "app.error.uploadAndSelect")) st in
            (InvalidSelection <> InvalidSelection ->
             isLoading st' = false /\ loadingMessage st' = EmptyString)
            /\ (isLoading st = false -> isLoading st' = false)
            /\ (error st' = None <-> succeeded InvalidSelection = true)
            /\ (InvalidSelection = ShowedResult ->
                exists shown, generatedContent st' = Some shown)
            /\ (succeeded InvalidSelection = false ->
                InvalidSelection <> InvalidSelection -> generatedContent st' = None)
            /\ same_inputs st st').
  { cbn. repeat split; try congruence; try discriminate; auto. }
  destruct (selectedTransformation st) as [tr|] eqn:Htr; [|exact Hinvalid].
  destruct (promptToUse st) as [usedPrompt|] eqn:Hprompt; [|exact Hinvalid].
  destruct (blank trim (Some usedPrompt)); [exact Hinvalid|]. clear Hinvalid.
  set (st0 := setMobileView OutputView _).
  fold (run_try tr usedPrompt st0).
  destruct (run_try tr usedPrompt st0) as [[st1 x]|err] eqn:Htry.
  - apply generate_try_post in Htry. destruct Htry as (Hsame & Hpost).
    cbn [fst snd]. unfold generate_finally.
    assert (Hin : same_inputs st (setLoadingMessage EmptyString (setIsLoading false st1))).
    { unfold same_inputs in *. cbn in *. intuition congruence. }
    assert (Hst0 : error st0 = None /\ generatedContent st0 = None)
      by (split; reflexivity).
    destruct Hst0 as (Herr0 & Hgc0).
    assert (Hoff : isLoading (setLoadingMessage EmptyString (setIsLoading false st1))
                   = false
                   /\ loadingMessage (setLoadingMessage EmptyString
                                        (setIsLoading false st1)) = EmptyString)
      by (split; reflexivity).
    assert (Herr : error (setLoadingMessage EmptyString (setIsLoading false st1))
                   = error st1) by reflexivity.
    assert (Hgc : generatedContent (setLoadingMessage EmptyString
                                      (setIsLoading false st1))
                  = generatedContent st1) by reflexivity.
    rewrite Herr, Hgc.
    destruct x; cbn [succeeded]; try (exfalso; exact Hpost).
    + destruct Hpost as ((message & Hmsg) & Hkept & _). rewrite Hmsg, Hkept, Hgc0.
      repeat split; try discriminate; try apply Hoff; try apply Hin; auto.
    + destruct Hpost as ((message & Hmsg) & Hkept & _). rewrite Hmsg, Hkept, Hgc0.
      repeat split; try discriminate; try apply Hoff; try apply Hin; auto.
    + destruct Hpost as ((message & Hmsg) & Hkept & _). rewrite Hmsg, Hkept, Hgc0.
      repeat split; try discriminate; try apply Hoff; try apply Hin; auto.
    + destruct Hpost as (Hkept & _). rewrite Hkept, Herr0.
      repeat split; try discriminate; try apply Hoff; try apply Hin; auto.
    + destruct Hpost as (Hkept & (shown & Hshown & _) & _). rewrite Hkept, Herr0, Hshown.
      repeat split; try discriminate; try apply Hoff; try apply Hin; eauto.
  - cbn [fst snd]. unfold generate_finally. cbn.
    repeat split; try congruence; try discriminate; auto.
Qed.

(** X18: a failing watermark never fails a generation.  When every service
    call resolves ([editImage] and text-to-image with an image, as they do
    whenever they resolve), a run ends by showing options or a result or by
    asking for input, and never through the catch block, whatever the two
    watermarking steps do. *)
Theorem handleGenerateImage_watermark_safe st :
  (forall n p parts mask, exists r,
      editImage n p parts mask = Resolved r /\ truthy (Types.imageUrl r) = true) ->
  (forall p parts, exists urls, generateImageEditsBatch p parts = Resolved urls) ->
  (forall p ratio, exists r, generateImageFromText p ratio = Resolved r) ->
  (forall url, exists img, loadImage url = Resolved img) ->
  (forall url img, exists resized, resizeImageToMatch url img = Resolved resized) ->
  succeeded (snd (run st)) = true \/ needs_input (snd (run st)) = true.
Proof.
  intros Hedit Hbatch Hpaint Hload Hresize.
  unfold run, handleGenerateImage.
  destruct (selectedTransformation st) as [tr|]; [|now right].
  destruct (promptToUse st) as [usedPrompt|]; [|now right].
  destruct (blank trim (Some usedPrompt)); [now right|].
  set (st0 := setMobileView OutputView _).
  assert (Hshow : forall s r, exists s',
             show_result embedWatermark addVisibleWatermark s r
             = Resolved (s', ShowedResult)).
  { intros s r. unfold show_result.
    destruct (watermarks_settles (Types.imageUrl r)) as (v & ->).
    eexists. reflexivity. }
  assert (Htry : exists st1 x,
             generate_try t editImage generateImageEditsBatch generateImageFromText
               embedWatermark addVisibleWatermark loadImage resizeImageToMatch
               settle type_error tr usedPrompt st0 = Resolved (st1, x)
             /\ (succeeded x = true \/ needs_input x = true)).
  { unfold generate_try, need.
    destruct (isMultiStepVideo tr).
    { destruct (List.length (multiImageUrls st0) =? 0)%nat;
        [do 2 eexists; split; [reflexivity|now right]|].
      destruct (Hbatch usedPrompt (map url_part (multiImageUrls st0))) as (urls & ->).
      cbn [await]. destruct (watermarked_batch_settles urls) as (ws & ->).
      cbn [await]. do 2 eexists. split; [reflexivity|now left]. }
    destruct (String.eqb (key tr) "customPrompt" && negb (truthy (primaryImageUrl st0))).
    { destruct (Hpaint usedPrompt (imageAspectRatio st0)) as (r & ->). cbn [await].
      destruct (Hshow st0 r) as (s' & ->). do 2 eexists. split; [reflexivity|now left]. }
    destruct (has_maxImages tr).
    { destruct (List.length (multiImageUrls st0) =? 0)%nat;
        [do 2 eexists; split; [reflexivity|now right]|].
      destruct (Hedit 0%nat (Some usedPrompt) (map url_part (multiImageUrls st0)) None)
        as (r & -> & _).
      cbn [await]. destruct (Hshow st0 r) as (s' & ->).
      do 2 eexists. split; [reflexivity|now left]. }
    destruct (isTwoStep tr).
    { destruct (negb (truthy (primaryImageUrl st0))
                || negb (truthy (secondaryImageUrl st0)));
        [do 2 eexists; split; [reflexivity|now right]|].
      destruct (Hedit 0%nat (Some usedPrompt)
                  [url_part (interpolate (primaryImageUrl st0))] None)
        as (r1 & -> & Himg).
      cbn [await]. rewrite Himg. cbn [negb].
      destruct (Types.imageUrl r1) as [u1|] eqn:Hu1; [|discriminate].
      destruct (watermarks_some u1 Himg) as (lineArt & ->). cbn [await].
      destruct (Hload (interpolate (primaryImageUrl st0))) as (img & ->). cbn [await].
      destruct (Hresize (interpolate (secondaryImageUrl st0)) img) as (resized & ->).
      cbn [await].
      destruct (Hedit 1%nat (stepTwoPrompt tr) [url_part lineArt; url_part resized] None)
        as (r2 & -> & _).
      cbn [await].
      destruct (watermarks_settles (Types.imageUrl r2)) as (v & ->). cbn [await].
      do 2 eexists. split; [reflexivity|now left]. }
    destruct (negb (truthy (primaryImageUrl st0)));
      [do 2 eexists; split; [reflexivity|now right]|].
    destruct (isMultiImage tr && negb (isSecondaryOptional tr)
              && negb (truthy (secondaryImageUrl st0)));
      [do 2 eexists; split; [reflexivity|now right]|].
    match goal with
    | |- context [editImage ?n ?p ?parts ?m] =>
        destruct (Hedit n p parts m) as (r & -> & _)
    end.
    cbn [await].
    match goal with
    | |- context [show_result _ _ ?s r] => destruct (Hshow s r) as (s' & ->)
    end.
    do 2 eexists. split; [reflexivity|now left]. }
  destruct Htry as (st1 & x & -> & Hx). exact Hx.
Qed.

Lemma truthy_urls_all urls :
  Forall (fun u => truthy (Some u) = true) urls ->
  truthy_urls (map Some urls) = urls.
Proof.
  induction 1 as [|u urls Hu _ IH]; [reflexivity|].
  unfold truthy_urls in *. cbn [map flat_map]. rewrite Hu. cbn [app].
  now rewrite IH.
Qed.

Lemma show_result_shown s r s' x :
  show_result embedWatermark addVisibleWatermark s r = Resolved (s', x) ->
  (forall u txt, exists err, embedWatermark u txt = Rejected err) ->
  truthy (Types.imageUrl r) = true ->
  x = ShowedResult
  /\ exists shown, generatedContent s' = Some shown
                   /\ Types.imageUrl shown = Types.imageUrl r.
Proof.
  intros Hshow Hfails Himg. unfold show_result in Hshow.
  destruct (Types.imageUrl r) as [u|] eqn:Hu; [|discriminate].
  rewrite (watermarks_fallback u Himg Hfails) in Hshow. cbn [await] in Hshow.
  injection Hshow as <- <-. split; [reflexivity|].
  eexists. split; reflexivity.
Qed.

(** X19: when the watermark cannot be applied at all, what the user gets is
    the service's own output: a run that shows a result shows the image of
    an [editImage] or text-to-image call unchanged, and a run that shows
    options shows exactly the URLs of the batch, in order. *)
Theorem handleGenerateImage_unwatermarked st :
  (forall u txt, exists err, embedWatermark u txt = Rejected err) ->
  (forall n p parts mask r,
      editImage n p parts mask = Resolved r -> truthy (Types.imageUrl r) = true) ->
  (forall p ratio r,
      generateImageFromText p ratio = Resolved r -> truthy (Types.imageUrl r) = true) ->
  (forall p parts urls,
      generateImageEditsBatch p parts = Resolved urls ->
      Forall (fun u => truthy (Some u) = true) urls) ->
  (snd (run st) = ShowedResult ->
   exists shown r,
     generatedContent (fst (run st)) = Some shown
     /\ Types.imageUrl shown = Types.imageUrl r
     /\ ((exists n p parts mask, editImage n p parts mask = Resolved r)
         \/ (exists p ratio, generateImageFromText p ratio = Resolved r)))
  /\ (snd (run st) = ShowedOptions ->
      exists p parts urls,
        generateImageEditsBatch p parts = Resolved urls
        /\ imageOptions (fst (run st)) = Some urls).
Proof.
  intros Hfails Hedit Hpaint Hbatch.
  unfold run, handleGenerateImage.
  destruct (selectedTransformation st) as [tr|]; [|split; discriminate].
  destruct (promptToUse st) as [usedPrompt|]; [|split; discriminate].
  destruct (blank trim (Some usedPrompt)); [split; discriminate|].
  set (st0 := setMobileView OutputView _).
  fold (run_try tr usedPrompt st0).
  destruct (run_try tr usedPrompt st0) as [[st1 x]|err] eqn:Htry;
    [|split; discriminate].
  cbn [fst snd]. unfold generate_finally.
  assert (Hgc : generatedContent (setLoadingMessage EmptyString (setIsLoading false st1))
                = generatedContent st1) by reflexivity.
  assert (Hopt : imageOptions (setLoadingMessage EmptyString (setIsLoading false st1))
                 = imageOptions st1) by reflexivity.
  rewrite Hgc, Hopt. clear Hgc Hopt.
  unfold run_try, generate_try, need in Htry.
  destruct (isMultiStepVideo tr).
  { destruct (List.length (multiImageUrls st0) =? 0)%nat.
    { injection Htry as <- <-. split; discriminate. }
    destruct (generateImageEditsBatch usedPrompt (map url_part (multiImageUrls st0)))
      as [urls|e] eqn:Hurls; [|discriminate].
    cbn [await] in Htry.
    destruct (Promise_all settle _) as [ws|e] eqn:Hall; [|discriminate].
    cbn [await] in Htry. injection Htry as <- <-.
    split; [discriminate|]. intros _.
    exists usedPrompt, (map url_part (multiImageUrls st0)), urls.
    split; [exact Hurls|]. cbn [imageOptions setSelectedOption setImageOptions].
    f_equal. pose proof (Hbatch _ _ _ Hurls) as Htruthy.
    apply Promise_all_resolved in Hall.
    assert (Hws : ws = map Some urls).
    { clear -Hall Htruthy Hfails. revert ws Hall.
      induction Htruthy as [|u urls Hu _ IH]; intros ws Hall.
      - destruct ws; [reflexivity|discriminate].
      - destruct ws as [|w ws]; [discriminate|].
        cbn [map] in Hall. injection Hall as Hw Hrest.
        rewrite (watermarks_fallback u Hu Hfails) in Hw. injection Hw as ->.
        cbn [map]. f_equal. now apply IH. }
    rewrite Hws. now apply truthy_urls_all. }
  assert (Hsingle : forall s r,
             show_result embedWatermark addVisibleWatermark s r = Resolved (st1, x) ->
             truthy (Types.imageUrl r) = true ->
             ((exists n p parts mask, editImage n p parts mask = Resolved r)
              \/ (exists p ratio, generateImageFromText p ratio = Resolved r)) ->
             (x = ShowedResult ->
              exists shown r0,
                generatedContent st1 = Some shown
                /\ Types.imageUrl shown = Types.imageUrl r0
                /\ ((exists n p parts mask, editImage n p parts mask = Resolved r0)
                    \/ (exists p ratio, generateImageFromText p ratio = Resolved r0)))
             /\ (x = ShowedOptions ->
                 exists p parts urls,
                   generateImageEditsBatch p parts = Resolved urls
                   /\ imageOptions st1 = Some urls)).
  { intros s r Hshow Himg Hfrom.
    destruct (show_result_shown _ _ Hshow Hfails Himg) as (-> & shown & Hshown & Hurl).
    split; [|discriminate]. intros _. exists shown, r. now repeat split. }
  destruct (String.eqb (key tr) "customPrompt" && negb (truthy (primaryImageUrl st0))).
  { destruct (generateImageFromText usedPrompt (imageAspectRatio st0))
      as [r|e] eqn:Hr; [|discriminate].
    cbn [await] in Htry. apply (Hsingle _ _ Htry (Hpaint _ _ _ Hr)).
    right. eauto. }
  destruct (has_maxImages tr).
  { destruct (List.length (multiImageUrls st0) =? 0)%nat.
    { injection Htry as <- <-. split; discriminate. }
    destruct (editImage 0%nat (Some usedPrompt) (map url_part (multiImageUrls st0)) None)
      as [r|e] eqn:Hr; [|discriminate].
    cbn [await] in Htry. apply (Hsingle _ _ Htry (Hedit _ _ _ _ _ Hr)).
    left. eauto. }
  destruct (isTwoStep tr).
  { destruct (negb (truthy (primaryImageUrl st0))
              || negb (truthy (secondaryImageUrl st0))).
    { injection Htry as <- <-. split; discriminate. }
    destruct (editImage 0%nat (Some usedPrompt)
                [url_part (interpolate (primaryImageUrl st0))] None)
      as [r1|e] eqn:Hr1; [|discriminate].
    cbn [await] in Htry.
    destruct (negb (truthy (Types.imageUrl r1))); [discriminate|].
    destruct (watermarks embedWatermark addVisibleWatermark (Types.imageUrl r1))
      as [w1|e]; [|discriminate].
    cbn [await] in Htry. destruct w1 as [lineArt|]; [|discriminate].
    destruct (loadImage (interpolate (primaryImageUrl st0))) as [img|e];
      [|discriminate].
    cbn [await] in Htry.
    destruct (resizeImageToMatch (interpolate (secondaryImageUrl st0)) img)
      as [resized|e]; [|discriminate].
    cbn [await] in Htry.
    destruct (editImage 1%nat (stepTwoPrompt tr) [url_part lineArt; url_part resized] None)
      as [r2|e] eqn:Hr2; [|discriminate].
    cbn [await] in Htry.
    pose proof (Hedit _ _ _ _ _ Hr2) as Himg2.
    destruct (Types.imageUrl r2) as [u2|] eqn:Hu2; [|discriminate].
    rewrite (watermarks_fallback u2 Himg2 Hfails) in Htry. cbn [await] in Htry.
    injection Htry as <- <-. split; [|discriminate]. intros _.
    eexists. exists r2. split; [reflexivity|]. split; [cbn; now rewrite Hu2|].
    left. eauto. }
  destruct (negb (truthy (primaryImageUrl st0))).
  { injection Htry as <- <-. split; discriminate. }
  destruct (isMultiImage tr && negb (isSecondaryOptional tr)
            && negb (truthy (secondaryImageUrl st0))).
  { injection Htry as <- <-. split; discriminate. }
  match type of Htry with
  | context [editImage ?n ?p ?parts ?m] =>
      destruct (editImage n p parts m) as [r|e] eqn:Hr; [|discriminate]
  end.
  cbn [await] in Htry. apply (Hsingle _ _ Htry (Hedit _ _ _ _ _ Hr)).
  left. eauto.
Qed.

(** X20: the history records exactly what was shown: a run that ends by
    showing a result puts that very result at the head of the history and
    leaves the options alone; every other run, whether it asked for input,
    failed or showed options, leaves the history as it was. *)
Theorem handleGenerateImage_history st :
  (snd (run st) = ShowedResult ->
   exists shown,
     generatedContent (fst (run st)) = Some shown
     /\ history (fst (run st)) = shown :: history st
     /\ imageOptions (fst (run st)) = imageOptions st)
  /\ (snd (run st) <> ShowedResult -> history (fst (run st)) = history st).
Proof.
  unfold run, handleGenerateImage.
  destruct (selectedTransformation st) as [tr|];
    [|split; [discriminate|reflexivity]].
  destruct (promptToUse st) as [usedPrompt|];
    [|split; [discriminate|reflexivity]].
  destruct (blank trim (Some usedPrompt)); [split; [discriminate|reflexivity]|].
  set (st0 := setMobileView OutputView _).
  fold (run_try tr usedPrompt st0).
  destruct (run_try tr usedPrompt st0) as [[st1 x]|err] eqn:Htry;
    [|split; [discriminate|reflexivity]].
  apply generate_try_post in Htry. destruct Htry as (_ & Hpost).
  cbn [fst snd]. unfold generate_finally.
  change (generatedContent (setLoadingMessage EmptyString (setIsLoading false st1)))
    with (generatedContent st1).
  change (history (setLoadingMessage EmptyString (setIsLoading false st1)))
    with (history st1).
  change (imageOptions (setLoadingMessage EmptyString (setIsLoading false st1)))
    with (imageOptions st1).
  change (history st) with (history st0).
  change (imageOptions st) with (imageOptions st0).
  destruct x; try (exfalso; exact Hpost).
  - destruct Hpost as (_ & _ & Hhist & _). split; [discriminate|now intros _].
  - destruct Hpost as (_ & _ & Hhist & _). split; [discriminate|now intros _].
  - destruct Hpost as (_ & _ & Hhist & _). split; [discriminate|now intros _].
  - destruct Hpost as (_ & _ & Hhist & _). split; [discriminate|now intros _].
  - destruct Hpost as (_ & (shown & Hshown & Hhist) & Hopts). split.
    + intros _. exists shown. now repeat split.
    + congruence.
Qed.

(** X21: the Generate button and the handler agree.  The button is never
    enabled while a generation is running or without a selected
    transformation; and for a transformation other than the custom-prompt,
    video and two-step ones (one that is a multi-step video only if it has
    an image limit), an enabled button with a non-blank prompt means that
    the handler finds all the input it asks for. *)
Theorem enabled_button_has_input st :
  (isGenerateDisabled trim st = false ->
   isLoading st = false /\ selectedTransformation st <> None)
  /\ (forall tr,
        selectedTransformation st = Some tr ->
        isGenerateDisabled trim st = false ->
        String.eqb (key tr) "customPrompt" = false ->
        isVideo tr = false -> isTwoStep tr = false ->
        has_maxImages tr = true \/ isMultiStepVideo tr = false ->
        blank trim (promptToUse st) = false ->
        needs_input (snd (run st)) = false).
Proof.
  split.
  - unfold isGenerateDisabled. destruct (selectedTransformation st) as [tr|];
      [|discriminate].
    intros Hen. split; [|discriminate].
    destruct (String.eqb (key tr) "customPrompt"), (isVideo tr), (has_maxImages tr);
      destruct (isLoading st); try reflexivity; discriminate.
  - intros tr Htr Hen Hkey Hvideo Htwo Hlimit Hprompt.
    unfold isGenerateDisabled in Hen. rewrite Htr, Hkey, Hvideo in Hen.
    unfold run, handleGenerateImage. rewrite Htr.
    destruct (promptToUse st) as [usedPrompt|]; [|discriminate].
    rewrite Hprompt.
    set (st0 := setMobileView OutputView _).
    assert (Htry : match generate_try t editImage generateImageEditsBatch
                           generateImageFromText embedWatermark addVisibleWatermark
                           loadImage resizeImageToMatch settle type_error
                           tr usedPrompt st0 with
                   | Resolved (_, x) => needs_input x = false
                   | Rejected _ => True
                   end).
    { unfold generate_try, need, show_result. rewrite Hkey, Htwo. cbn [andb].
      change (multiImageUrls st0) with (multiImageUrls st).
      change (primaryImageUrl st0) with (primaryImageUrl st).
      change (secondaryImageUrl st0) with (secondaryImageUrl st).
      destruct (has_maxImages tr) eqn:Hmax.
      - apply orb_false_iff in Hen. destruct Hen as (_ & Hmulti). rewrite Hmulti.
        destruct (isMultiStepVideo tr).
        + destruct (generateImageEditsBatch _ _); cbn [await]; [|exact I].
          destruct (Promise_all _ _); cbn [await]; [reflexivity|exact I].
        + destruct (editImage _ _ _ _); cbn [await]; [|exact I].
          destruct (watermarks _ _ _); cbn [await]; [reflexivity|exact I].
      - destruct Hlimit as [Hlimit|Hmsv]; [discriminate|]. rewrite Hmsv.
        apply orb_false_iff in Hen. destruct Hen as (_ & Hready).
        apply negb_false_iff in Hready.
        destruct (isMultiImage tr).
        + destruct (isSecondaryOptional tr).
          * rewrite Hready. cbn [negb andb].
            destruct (editImage _ _ _ _); cbn [await]; [|exact I].
            destruct (watermarks _ _ _); cbn [await]; [reflexivity|exact I].
          * apply andb_true_iff in Hready. destruct Hready as (Hp & Hs).
            rewrite Hp, Hs. cbn [negb andb].
            destruct (editImage _ _ _ _); cbn [await]; [|exact I].
            destruct (watermarks _ _ _); cbn [await]; [reflexivity|exact I].
        + rewrite Hready. cbn [negb andb].
          destruct (editImage _ _ _ _); cbn [await]; [|exact I].
          destruct (watermarks _ _ _); cbn [await]; [reflexivity|exact I]. }
    destruct (generate_try _ _ _ _ _ _ _ _ _ _ _ _ _) as [[st1 x]|err];
      [exact Htry|reflexivity].
Qed.

End Flow.

Lemma handleGenerateImage_watermark_safe_witness :
  snd (handleGenerateImage no_translation identity_trim edits four_edits painted
         no_canvas no_canvas loads resizes [] (NonError "TypeError")
         (ready multi_effect))
  = ShowedResult.
Proof.
  pose proof (@handleGenerateImage_watermark_safe no_translation identity_trim unit
                edits four_edits painted no_canvas no_canvas loads resizes []
                (NonError "TypeError") (ready multi_effect)) as Hsafe.
  destruct Hsafe as [Hok|Hinput].
  - intros n p parts mask. exists edited. split; reflexivity.
  - intros p parts. eexists. reflexivity.
  - intros p ratio. eexists. reflexivity.
  - intros url. exists tt. reflexivity.
  - intros url img. eexists. reflexivity.
  - reflexivity.
  - discriminate Hinput.
Defined.

Lemma handleGenerateImage_consistent_witness :
  error (fst (handleGenerateImage no_translation identity_trim edits four_edits painted
                no_canvas no_canvas loads resizes [] (NonError "TypeError")
                (ready options_effect)))
  = None
  /\ isLoading (fst (handleGenerateImage no_translation identity_trim edits four_edits
                       painted no_canvas no_canvas loads resizes []
                       (NonError "TypeError") (ready options_effect)))
     = false.
Proof.
  pose proof (@handleGenerateImage_consistent no_translation identity_trim unit
                edits four_edits painted no_canvas no_canvas loads resizes []
                (NonError "TypeError") (ready options_effect)) as Hrun.
  cbv zeta in Hrun. destruct Hrun as (Hoff & _ & Herr & _). split.
  - apply Herr. reflexivity.
  - apply Hoff. discriminate.
Defined.

Lemma handleGenerateImage_unwatermarked_witness :
  exists p parts urls,
    four_edits p parts = Resolved urls
    /\ imageOptions (fst (handleGenerateImage no_translation identity_trim edits
                            four_edits painted no_canvas no_canvas loads resizes []
                            (NonError "TypeError") (ready options_effect)))
       = Some urls.
Proof.
  apply (@handleGenerateImage_unwatermarked no_translation identity_trim unit
           edits four_edits painted no_canvas no_canvas loads resizes []
           (NonError "TypeError") (ready options_effect)).
  - intros u txt. eexists. reflexivity.
  - intros n p parts mask r Hr. injection Hr as <-. reflexivity.
  - intros p ratio r Hr. injection Hr as <-. reflexivity.
  - intros p parts urls Hurls. injection Hurls as <-. repeat constructor.
  - reflexivity.
Defined.

Lemma handleGenerateImage_history_witness :
  exists shown,
    generatedContent (fst (handleGenerateImage no_translation identity_trim edits
                             four_edits painted no_canvas no_canvas loads resizes []
                             (NonError "TypeError") (ready multi_effect)))
    = Some shown
    /\ history (fst (handleGenerateImage no_translation identity_trim edits
                       four_edits painted no_canvas no_canvas loads resizes []
                       (NonError "TypeError") (ready multi_effect)))
       = shown :: history (ready multi_effect)
    /\ imageOptions (fst (handleGenerateImage no_translation identity_trim edits
                            four_edits painted no_canvas no_canvas loads resizes []
                            (NonError "TypeError") (ready multi_effect)))
       = imageOptions (ready multi_effect).
Proof.
  apply (@handleGenerateImage_history no_translation identity_trim unit
           edits four_edits painted no_canvas no_canvas loads resizes []
           (NonError "TypeError") (ready multi_effect)).
  reflexivity.
Defined.

Lemma enabled_button_has_input_witness :
  needs_input (snd (handleGenerateImage no_translation identity_trim edits four_edits
                      painted no_canvas no_canvas loads resizes []
                      (NonError "TypeError") (ready multi_effect)))
  = false.
Proof.
  apply (proj2 (@enabled_button_has_input no_translation identity_trim unit
                  edits four_edits painted no_canvas no_canvas loads resizes []
                  (NonError "TypeError") (ready multi_effect)) multi_effect);
    try reflexivity.
  now left.
Defined.

End GenerationFlowFacts.

(** ** components/ResultDisplay.tsx *)

Module ResultDisplayFacts.

Import QArith.QArith_base ResultDisplay.

Local Close Scope Q_scope.

(** X22: new content opens in the slider wherever a comparison is drawn:
    after the effect has run for a content and an original, a two-step or
    one-step comparison view rendered for them is in slider mode, so the
    effect's fallback to the result mode is never seen in a comparison.  A
    video takes precedence over every image view, and nothing is rendered
    exactly when the content has neither a video nor an image. *)
Theorem render_after_new_content content originalImageUrl m :
  let m' := on_content content originalImageUrl m in
  (forall mode, render content originalImageUrl m' = TwoStepView mode ->
                mode = TwoStepSliderMode)
  /\ (forall mode, render content originalImageUrl m' = ComparisonView mode ->
                   mode = SliderMode)
  /\ (truthy (Types.videoUrl content) = true ->
      render content originalImageUrl m' = VideoView)
  /\ (render content originalImageUrl m' = Nothing <->
      truthy (Types.videoUrl content) = false
      /\ truthy (Types.imageUrl content) = false).
Proof.
  unfold render, on_content.
  destruct (truthy (Types.videoUrl content)),
           (truthy (Types.secondaryImageUrl content)),
           (truthy (Types.imageUrl content)),
           (truthy originalImageUrl);
    cbn; repeat split; intros; try discriminate; try congruence;
    try (destruct H; discriminate); auto.
Qed.

Lemma render_after_new_content_witness :
  twoStepViewMode
    (on_content two_step_content (Some "data:image/png;base64,ORIGINAL")
       {| viewMode := ResultMode; twoStepViewMode := GridMode |})
  = TwoStepSliderMode.
Proof.
  apply (proj1 (render_after_new_content two_step_content
                  (Some "data:image/png;base64,ORIGINAL")
                  {| viewMode := ResultMode; twoStepViewMode := GridMode |})).
  reflexivity.
Defined.

Lemma fold_widths pics : forall sum,
  fold_left (fun s p => (s + pic_width p)%nat) pics sum
  = (sum + fold_left (fun s p => (s + pic_width p)%nat) pics 0)%nat.
Proof.
  induction pics as [|p pics IH]; intros sum; cbn [fold_left]; [lia|].
  rewrite (IH (sum + pic_width p)%nat), (IH (0 + pic_width p)%nat). lia.
Qed.

Lemma place_tiles maxHeight pics : forall from,
  tiles from (place maxHeight from pics)
        (from + fold_left (fun s p => (s + pic_width p)%nat) pics 0).
Proof.
  induction pics as [|p pics IH]; intros from; cbn [place tiles fold_left].
  - lia.
  - split; [reflexivity|]. cbn [drawn].
    rewrite (fold_widths pics (0 + pic_width p)).
    replace (from + (0 + pic_width p
                     + fold_left (fun s q => s + pic_width q) pics 0))%nat
      with (from + pic_width p
            + fold_left (fun s q => s + pic_width q) pics 0)%nat by lia.
    apply IH.
Qed.

Lemma half_gap_fits (m h : nat) :
  (h <= m)%nat ->
  (0 <= inject_Z (Z.of_nat m - Z.of_nat h) / 2)%Q
  /\ (inject_Z (Z.of_nat m - Z.of_nat h) / 2 + inject_Z (Z.of_nat h)
      <= inject_Z (Z.of_nat m))%Q.
Proof.
  intros Hle. unfold Qle, Qdiv, Qmult, Qplus, Qinv, inject_Z. cbn. lia.
Qed.

Lemma place_fits maxHeight pics : forall from,
  Forall (fun p => (pic_height p <= maxHeight)%nat) pics ->
  Forall (fits_height maxHeight) (place maxHeight from pics).
Proof.
  induction pics as [|p pics IH]; intros from Hall; cbn [place]; [constructor|].
  inversion Hall as [|p' pics' Hp Hrest]; subst. constructor.
  - unfold fits_height. cbn [at_y drawn]. now apply half_gap_fits.
  - now apply IH.
Qed.

Lemma below_max pics :
  Forall (fun p => (pic_height p <= fold_right Nat.max 0 (map pic_height pics))%nat)
         pics.
Proof.
  induction pics as [|p pics IH]; [constructor|]. cbn [map fold_right].
  constructor; [lia|].
  eapply Forall_impl; [|exact IH]. cbn beta. intros q Hq. lia.
Qed.

Lemma place_length maxHeight pics : forall from,
  List.length (place maxHeight from pics) = List.length pics.
Proof.
  induction pics as [|p pics IH]; intros from; cbn [place List.length];
    [reflexivity|now rewrite IH].
Qed.

Lemma place_drawn maxHeight pics : forall from,
  map drawn (place maxHeight from pics) = pics.
Proof.
  induction pics as [|p pics IH]; intros from; cbn [place map drawn];
    [reflexivity|now rewrite IH].
Qed.

(** X23: the comparison picture is only made from at least two and at most
    three images, and then the images tile the canvas: they are drawn from
    left to right in the order original, line art, result, each starting
    where the previous one ends, the last one ending at the canvas width,
    and each lies within the canvas height.  Without a result image, or
    with a result that has neither an original nor a line art beside it,
    nothing is downloaded. *)
Theorem handleDownloadComparison_layout loaded has_context content originalImageUrl :
  (forall canvas,
      handleDownloadComparison loaded has_context content originalImageUrl
      = Some canvas ->
      map drawn (draws canvas) = map loaded (validImages content originalImageUrl)
      /\ (2 <= List.length (draws canvas) <= 3)%nat
      /\ tiles 0 (draws canvas) (canvas_width canvas)
      /\ Forall (fits_height (canvas_height canvas)) (draws canvas))
  /\ (truthy (Types.imageUrl content) = false
      \/ (truthy originalImageUrl = false
          /\ truthy (Types.secondaryImageUrl content) = false) ->
      handleDownloadComparison loaded has_context content originalImageUrl = None).
Proof.
  split.
  - intros canvas Hcanvas. unfold handleDownloadComparison in Hcanvas.
    destruct (Nat.ltb_spec (List.length (validImages content originalImageUrl)) 2)
      as [|Htwo]; [discriminate|].
    destruct (negb has_context); [discriminate|].
    injection Hcanvas as <-. cbn [draws canvas_width canvas_height].
    split; [|split; [|split]].
    + apply place_drawn.
    + rewrite place_length, length_map. split; [exact Htwo|].
      unfold validImages, imagesToLoad.
      destruct originalImageUrl as [o|], (Types.secondaryImageUrl content) as [s|],
               (Types.imageUrl content) as [i|]; cbn;
        repeat match goal with
               | |- context [if ?b then _ else _] => destruct b; cbn
               end; lia.
    + apply (place_tiles _ _ 0%nat).
    + apply place_fits. apply below_max.
  - intros Hmissing.
    assert (Hshort : (List.length (validImages content originalImageUrl) <? 2)%nat
                     = true).
    { unfold validImages, imagesToLoad, truthy in *.
      destruct originalImageUrl as [o|], (Types.secondaryImageUrl content) as [s|],
               (Types.imageUrl content) as [i|];
        cbn in *;
        try destruct (String.eqb o EmptyString);
        try destruct (String.eqb s EmptyString);
        try destruct (String.eqb i EmptyString);
        cbn in *;
        repeat match goal with
               | |- context [String.eqb ?x EmptyString] =>
                   destruct (String.eqb x EmptyString); cbn
               end;
        try reflexivity; intuition discriminate. }
    unfold handleDownloadComparison. now rewrite Hshort.
Qed.

Lemma handleDownloadComparison_layout_witness :
  exists canvas,
    handleDownloadComparison sizes true two_step_content
      (Some "data:image/png;base64,ORIGINAL")
    = Some canvas
    /\ canvas_width canvas = 1580%nat /\ canvas_height canvas = 480%nat
    /\ tiles 0 (draws canvas) (canvas_width canvas)
    /\ Forall (fits_height (canvas_height canvas)) (draws canvas).
Proof.
  eexists. split; [reflexivity|]. split; [reflexivity|]. split; [reflexivity|].
  apply (proj1 (handleDownloadComparison_layout sizes true two_step_content
                  (Some "data:image/png;base64,ORIGINAL")) _ eq_refl).
Defined.

End ResultDisplayFacts.
